(** * bilby.js: the dispatch environment, the data types and the shrinker

    A shallow embedding of [node_modules/lti/node_modules/bilby/bilby.js]:
    multimethod dispatch ([findRegistered], [makeMethod], [environment]),
    the helpers [bind], [curry], [extend], [singleton], [zip], the tagged
    sums with their [cata], the [shrink] and [equal] multimethods, the
    Validation applicative, the object lens and the [none] option; then
    the function helpers [compose], [flip] and [liftA2], the instances for
    arrays with [sequence], the eithers, the search [findSmallest] with
    [forAll], and the scopes of [Do].

    Conventions of the embedding.
    - JavaScript numbers are modelled by [Z]: the integer-valued doubles.
      Halving, [Math.floor], [Math.ceil] and negation are exact on them; a
      difference is rounded to the nearest double ([Shrink.to_double]), which is
      the difference itself up to magnitude [2^53].
    - An object is a plain object: the finite map of its own enumerable
      properties ([gmap string _]), with [Object.prototype] for prototype.
      It inherits the members of [Object.prototype]: reading one of them
      gives a function or an object, which is truthy, and [k in o] holds of
      them; what these members do when called is not modelled.  Writing
      [o["__proto__"] = v] on an object without such an own key adds no key:
      it is ignored for a primitive [v] and replaces the prototype
      otherwise, after which the object is outside the model.  The
      enumeration order of [for .. in] is the map's.
    - A function is data: a [callable] is either a function literal with its
      declared parameter count, its optional [_length] and its body, or a
      closure built by [bind] or [curry].
    - A computation that can throw returns a [result]. *)

From Stdlib Require Import ZArith String List Lia Bool.
From Equations Require Import Equations.
From stdpp Require Import base option list gmap strings fin_maps pretty.

Set Warnings "-register-all".

Local Open Scope string_scope.
Local Open Scope list_scope.

(** ** Results and exceptions *)

Inductive exn : Type :=
| Error (msg : string)
| TypeError (msg : string)
| ReferenceError (msg : string).

(** A computation returns, throws, or gets no answer from the model: the
    fuel of a bounded recursion ran out, or the input lies outside the
    modelled fragment. *)
Inductive result (A : Type) : Type :=
| Ok (a : A)
| Throw (e : exn)
| NoAnswer.
Arguments Ok {A} a.
Arguments Throw {A} e.
Arguments NoAnswer {A}.

#[global] Instance result_ret : MRet result := fun A a => Ok a.
#[global] Instance result_bind : MBind result := fun A B k r =>
  match r with
  | Ok a => k a
  | Throw e => Throw e
  | NoAnswer => NoAnswer
  end.

(** ** Values *)

Abbreviation loc := nat (only parsing).

(** First-order JavaScript values.  [VData c kvs] is an instance made by the
    constructor [tagged(c, fields)]: its own properties are [kvs].  [VFun c]
    is a function passed as a value and known by its name, such as the
    constructor [c].  [VRef l] is a reference to an object kept in a heap. *)
Inductive value : Type :=
| VUndef
| VNull
| VBool (b : bool)
| VNum (n : Z)
| VStr (s : string)
| VArr (xs : list value)
| VData (ctor : string) (kvs : list (string * value))
| VFun (name : string)
| VRef (l : loc).

Definition truthy (v : value) : bool :=
  match v with
  | VUndef | VNull => false
  | VBool b => b
  | VNum n => negb (n =? 0)%Z
  | VStr s => negb (String.eqb s "")
  | VArr _ | VData _ _ | VFun _ | VRef _ => true
  end.

Definition typeof (v : value) : string :=
  match v with
  | VUndef => "undefined"
  | VBool _ => "boolean"
  | VNum _ => "number"
  | VStr _ => "string"
  | VFun _ => "function"
  | VNull | VArr _ | VData _ _ | VRef _ => "object"
  end.

(** ** Functions as data *)

(** A function literal has a declared parameter count ([f.length]), maybe a
    [_length] property, and a body that receives [this] and the arguments.
    A call returns a first-order value or a function. *)
Inductive callable : Type :=
| Plain (length : nat) (_length : option nat)
        (body : value -> list value -> result (value + callable))
| Bound (f : callable) (o : value) (args : list value)
| Curried (f : callable).

Abbreviation ret := (value + callable)%type.
Abbreviation RVal := (@inl value callable).
Abbreviation RFn := (@inr value callable).

Definition truthy_ret (r : ret) : bool :=
  match r with
  | inl v => truthy v
  | inr _ => true
  end.

(** [f.length]: the declared count of a literal; [max(0, n - k)] for the
    function [f.bind(o, a1 .. ak)]; 0 for the [function() { .. }] that
    [curry] returns. *)
Fixpoint js_length (f : callable) : nat :=
  match f with
  | Plain n _ _ => n
  | Bound g _ args => js_length g - List.length args
  | Curried _ => 0
  end.

(** [functionLength(f)]: [f._length || f.length]. *)
Fixpoint functionLength (f : callable) : nat :=
  match f with
  | Plain n (Some (S m)) _ => S m
  | Plain n _ _ => n
  | Bound g _ args =>
      match functionLength g - List.length args with
      | S m => S m
      | O => js_length g - List.length args
      end
  | Curried _ => 0
  end.

(** [bind(f)(o, args..)]: [g = f.bind(o, args..)] with
    [g._length = Math.max(functionLength(f) - args.length, 0)]. *)
Definition bind (f : callable) (o : value) (args : list value) : callable :=
  Bound f o args.

Definition curry (f : callable) : callable := Curried f.

(** Calling a function.  A bound function ignores the caller's [this].  The
    function returned by [curry(f)] builds [g = bind(f)(this, args..)] and
    either calls [g()] or returns [curry(g)]. *)
Fixpoint call (c : callable) (this : value) (args : list value) : result ret :=
  match c with
  | Plain _ _ body => body this args
  | Bound f o bs => call f o (bs ++ args)
  | Curried f =>
      if (functionLength (bind f this args) =? 0)%nat
      then call f this (args ++ [])
      else Ok (RFn (curry (bind f this args)))
  end.

(** ** Helpers *)

(** [a === b] on primitives, on functions known by name and on references.
    Arrays and tagged instances are modelled by their contents and not by
    their identity: [===] between two of them is not modelled (it is only
    ever applied here with a primitive or a constructor on the left). *)
Definition strict_equals (a b : value) : bool :=
  match a, b with
  | VUndef, VUndef | VNull, VNull => true
  | VBool x, VBool y => Bool.eqb x y
  | VNum x, VNum y => (x =? y)%Z
  | VStr x, VStr y => String.eqb x y
  | VFun x, VFun y => String.eqb x y
  | VRef x, VRef y => (x =? y)%nat
  | _, _ => false
  end.

(** The [i]-th argument, [undefined] when it was not passed. *)
Definition arg (i : nat) (args : list value) : value := nth i args VUndef.

(** [curry(function(a, b) { return a === b; })] *)
Definition strictEquals : callable :=
  curry (Plain 2 None (fun _ args =>
    Ok (RVal (VBool (strict_equals (arg 0 args) (arg 1 args)))))).

(** [curry(function(s, o) { return typeof o == s; })] *)
Definition isTypeOf_fn : callable :=
  Plain 2 None (fun _ args =>
    Ok (RVal (VBool (strict_equals (VStr (typeof (arg 1 args))) (arg 0 args))))).
Definition isTypeOf : callable := curry isTypeOf_fn.

(** [isTypeOf('boolean')], [isTypeOf('number')], [isTypeOf('string')],
    [isTypeOf('function')]: what the call of [isTypeOf] returns. *)
Definition isBoolean : callable := curry (bind isTypeOf_fn VUndef [VStr "boolean"]).
Definition isNumber : callable := curry (bind isTypeOf_fn VUndef [VStr "number"]).
Definition isString : callable := curry (bind isTypeOf_fn VUndef [VStr "string"]).
Definition isFunction : callable := curry (bind isTypeOf_fn VUndef [VStr "function"]).

(** [Array.isArray(a)] *)
Definition isArray : callable :=
  Plain 1 None (fun _ args =>
    Ok (RVal (VBool match arg 0 args with VArr _ => true | _ => false end))).

(** [curry(function(c, o) { return o instanceof c; })]: an instance made by
    the constructor [c] is an instance of it. *)
Definition isInstanceOf_fn : callable :=
  Plain 2 None (fun _ args =>
    Ok (RVal (VBool match arg 0 args, arg 1 args with
                    | VFun c, VData c' _ => String.eqb c c'
                    | _, _ => false
                    end))).
Definition isInstanceOf (c : string) : callable :=
  curry (bind isInstanceOf_fn VUndef [VFun c]).

(** ** Objects *)

(** The members that every object inherits from [Object.prototype]. *)
Definition object_prototype_members : list string :=
  ["constructor"; "toString"; "toLocaleString"; "valueOf"; "hasOwnProperty";
   "isPrototypeOf"; "propertyIsEnumerable"; "__defineGetter__";
   "__defineSetter__"; "__lookupGetter__"; "__lookupSetter__"; "__proto__"].

Definition inherited (k : string) : bool :=
  bool_decide (k ∈ object_prototype_members).

(** The values that are no objects and not [null]: assigning one of them to
    [o["__proto__"]] is ignored. *)
Definition primitive (v : value) : bool :=
  match v with
  | VUndef | VBool _ | VNum _ | VStr _ => true
  | VNull | VArr _ | VData _ _ | VFun _ | VRef _ => false
  end.

(** ** Dispatch *)

Record registration : Type := Registration {
  predicate : callable;
  f : callable
}.

Definition not_implemented : exn :=
  Error "Method not implemented for this input".

(** [findRegistered(registrations, args)].  The predicates are applied with
    the [this] of [findRegistered] itself, which is [undefined] in a plain
    call of strict code.  An element that is [undefined] (a hole, [None])
    has no [predicate] to read. *)
Fixpoint findRegistered (registrations : list (option registration))
    (args : list value) : result callable :=
  match registrations with
  | [] => Throw not_implemented
  | None :: _ =>
      Throw (TypeError "Cannot read property 'predicate' of undefined")
  | Some r :: rest =>
      t ← call (predicate r) VUndef args;
      if truthy_ret t then Ok (f r) else findRegistered rest args
  end.

(** [makeMethod(registrations)]: a [function() { .. }] of no declared
    parameter. *)
Definition makeMethod (registrations : list (option registration)) : callable :=
  Plain 0 None (fun this args =>
    g ← findRegistered registrations args;
    call g this args).

(** ** The heap of the environments *)

Module Env.

(** What a property of an object holds: a value or a function, or a
    reference to an array of registrations. *)
Inductive slot : Type :=
| SVal (v : ret)
| SArr (l : loc).

(** A member that the constructor adds to an environment: the multimethod
    [makeMethod(methods[i])], a closure over the array [methods[i]], or the
    property [properties[i]]. *)
Inductive member : Type :=
| MMethod (s : slot)
| MProp (s : slot).

(** Heap objects: an array of registrations (a hole is an element that is
    [undefined]), a plain object, and an environment with the [methods] and
    [properties] its closures captured. *)
Inductive cell : Type :=
| CArr (rs : list (option registration))
| CObj (o : gmap string slot)
| CEnv (methods properties : loc) (members : gmap string member).

Abbreviation heap := (list cell) (only parsing).

Definition M (A : Type) : Type := heap -> result A * heap.

#[global] Instance M_ret : MRet M := fun A a σ => (Ok a, σ).
#[global] Instance M_bind : MBind M := fun A B k m σ =>
  match m σ with
  | (Ok a, σ') => k a σ'
  | (Throw e, σ') => (Throw e, σ')
  | (NoAnswer, σ') => (NoAnswer, σ')
  end.

Definition throw {A : Type} (e : exn) : M A := fun σ => (Throw e, σ).
Definition lift {A : Type} (r : result A) : M A := fun σ => (r, σ).

(** [new], an object literal, an array literal or [concat]: a fresh object. *)
Definition alloc (c : cell) : M loc := fun σ => (Ok (List.length σ), σ ++ [c]).

(** A reference that is not of the expected kind is outside the typed
    model: such an access gets no answer. *)
Definition read_arr (l : loc) : M (list (option registration)) := fun σ =>
  match σ !! l with
  | Some (CArr rs) => (Ok rs, σ)
  | _ => (NoAnswer, σ)
  end.

Definition read_obj (l : loc) : M (gmap string slot) := fun σ =>
  match σ !! l with
  | Some (CObj o) => (Ok o, σ)
  | _ => (NoAnswer, σ)
  end.

Definition read_env (l : loc) : M (loc * loc * gmap string member) := fun σ =>
  match σ !! l with
  | Some (CEnv ms ps mem) => (Ok (ms, ps, mem), σ)
  | _ => (NoAnswer, σ)
  end.

(** What [o["__proto__"] = s] ignores: a primitive value. *)
Definition primitive_slot (s : slot) : bool :=
  match s with
  | SVal (inl v) => primitive v
  | SVal (inr _) | SArr _ => false
  end.

(** [o[k] = s].  On an object without an own key ["__proto__"] the
    assignment to that key adds no key: a primitive is ignored, anything
    else becomes the prototype, which puts the object outside the model. *)
Definition set_prop (l : loc) (k : string) (s : slot) : M unit := fun σ =>
  match σ !! l with
  | Some (CObj o) =>
      if bool_decide (k = "__proto__") && bool_decide (o !! k = None)
      then if primitive_slot s then (Ok tt, σ) else (NoAnswer, σ)
      else (Ok tt, <[l := CObj (<[k := s]> o)]> σ)
  | _ => (NoAnswer, σ)
  end.

(** [this[i] = m] *)
Definition set_member (l : loc) (i : string) (m : member) : M unit := fun σ =>
  match σ !! l with
  | Some (CEnv ms ps mem) => (Ok tt, <[l := CEnv ms ps (<[i := m]> mem)]> σ)
  | _ => (NoAnswer, σ)
  end.

Fixpoint for_each {A : Type} (body : A -> M unit) (xs : list A) : M unit :=
  match xs with
  | [] => mret tt
  | x :: xs' => _ ← body x; for_each body xs'
  end.

(** [for(i in o) body].  The keys are visited in the order of the map, not
    in the insertion order of the JavaScript object; no statement below
    depends on which of several offending keys a loop meets first. *)
Definition for_in {A : Type} (o : gmap string A) (body : string -> A -> M unit)
    : M unit :=
  for_each (fun kv => body kv.1 kv.2) (map_to_list o).

(** [singleton(k, v)] *)
Definition singleton (k : string) (v : slot) : M loc :=
  o ← alloc (CObj ∅);
  _ ← set_prop o k v;
  mret o.

(** [extend(a, b)] *)
Definition extend (a b : loc) : M loc :=
  o ← alloc (CObj ∅);
  oa ← read_obj a;
  _ ← for_in oa (fun i v => set_prop o i v);
  ob ← read_obj b;
  _ ← for_in ob (fun i v => set_prop o i v);
  mret o.

(** The closures that the constructor sets on [this] before its loops. *)
Definition own_closures : list string :=
  ["method"; "property"; "envConcat"; "envAppend"].

Definition slot_truthy (s : slot) : bool :=
  match s with
  | SVal v => truthy_ret v
  | SArr _ => true
  end.

(** The names that [this] has before the loops of the constructor: its
    four closures, and the members it inherits from [Object.prototype]
    through [environment.prototype].  All of them are truthy. *)
Definition reserved (i : string) : bool :=
  bool_decide (i ∈ own_closures) || inherited i.

(** The truth value of [this[i]]: that of the member that a loop has set,
    else that of a closure or an inherited member. *)
Definition this_truthy (mem : gmap string member) (i : string) : bool :=
  match mem !! i with
  | Some (MMethod _) => true
  | Some (MProp s) => slot_truthy s
  | None => reserved i
  end.

Definition arg_or_empty (o : option loc) : M loc :=
  match o with
  | Some l => mret l
  | None => alloc (CObj ∅)
  end.

(** The body of the constructor's two loops:
    [if(this[i]) throw new Error(kind + " " + i + " already in environment."); this[i] = m]. *)
Definition add_member (this : loc) (kind : string) (wrap : slot -> member)
    (i : string) (s : slot) : M unit :=
  '(_, _, mem) ← read_env this;
  if this_truthy mem i
  then throw (Error (kind +:+ " " +:+ i +:+ " already in environment."))
  else set_member this i (wrap s).

(** [environment(methods, properties)]: the object built by [new], with
    [methods] and [properties] defaulting to [{}]. *)
Definition environment (methods properties : option loc) : M loc :=
  methods ← arg_or_empty methods;
  properties ← arg_or_empty properties;
  this ← alloc (CEnv methods properties ∅);
  ms ← read_obj methods;
  _ ← for_in ms (add_member this "Method" MMethod);
  ps ← read_obj properties;
  _ ← for_in ps (add_member this "Property" MProp);
  mret this.

(** The array behind a slot of a methods table.  A table with an entry
    that is no array is outside the model. *)
Definition arr_of (s : slot) : M (list (option registration)) :=
  match s with
  | SArr l => read_arr l
  | SVal _ => lift NoAnswer
  end.

(** [e.method(name, predicate, f)].  [methods[name] || []] is the own entry
    of [methods], or the member that [methods] inherits under this name,
    which has no [concat], or [[]]. *)
Definition method (e : loc) (name : string) (predicate f : callable) : M loc :=
  '(methods, properties, _) ← read_env e;
  ms ← read_obj methods;
  old ← match ms !! name with
        | Some s => arr_of s
        | None =>
            if inherited name
            then throw (TypeError "(methods[name] || []).concat is not a function")
            else mret []
        end;
  arr ← alloc (CArr (old ++ [Some (Registration predicate f)]));
  s ← singleton name (SArr arr);
  newMethods ← extend methods s;
  environment (Some newMethods) (Some properties).

(** [e.property(name, value)] *)
Definition property (e : loc) (name : string) (v : slot) : M loc :=
  '(methods, properties, _) ← read_env e;
  s ← singleton name v;
  newProperties ← extend properties s;
  environment (Some methods) (Some newProperties).

(** [methods[i].concat(extraMethods[i])]: an array argument is spliced in,
    [undefined] is appended as one element.  For a name [i] that
    [extraMethods] inherits, what is appended is the inherited member, which
    is no registration: this gets no answer here. *)
Definition concat_arg (i : string) (x : option slot)
    : M (list (option registration)) :=
  match x with
  | Some s => arr_of s
  | None => if inherited i then lift NoAnswer else mret [None]
  end.

(** The body of the first loop of [envConcat]:
    [newMethods[i] = methods[i].concat(extraMethods[i])]. *)
Definition concat_method (newMethods : loc) (xs : gmap string slot)
    (i : string) (s : slot) : M unit :=
  base ← arr_of s;
  extra ← concat_arg i (xs !! i);
  a ← alloc (CArr (base ++ extra));
  set_prop newMethods i (SArr a).

(** The body of its second loop:
    [if(i in newMethods) continue; newMethods[i] = extraMethods[i]].
    [i in newMethods] holds of the own keys and of the inherited members. *)
Definition add_missing (newMethods : loc) (i : string) (s : slot) : M unit :=
  nm ← read_obj newMethods;
  if bool_decide (is_Some (nm !! i)) || inherited i then mret tt
  else set_prop newMethods i s.

(** [e.envConcat(extraMethods, extraProperties)] *)
Definition envConcat (e : loc) (extraMethods extraProperties : loc) : M loc :=
  '(methods, properties, _) ← read_env e;
  newMethods ← alloc (CObj ∅);
  newProperties ← alloc (CObj ∅);
  ms ← read_obj methods;
  xs ← read_obj extraMethods;
  _ ← for_in ms (concat_method newMethods xs);
  _ ← for_in xs (add_missing newMethods);
  ps ← extend properties extraProperties;
  environment (Some newMethods) (Some ps).

(** [this.envAppend(e)]: [e.envConcat(methods, properties)] with the
    receiver's tables. *)
Definition envAppend (this e : loc) : M loc :=
  '(methods, properties, _) ← read_env this;
  envConcat e methods properties.

(** [e.name(args..)] for a multimethod or a function held by a property.
    The four own closures take functions as arguments: they are the
    operations above, and a call of one of them gets no answer here; nor
    does a call of a member inherited from [Object.prototype]. *)
Definition call_method (e : loc) (name : string) (args : list value) : M ret :=
  '(_, _, mem) ← read_env e;
  if bool_decide (name ∈ own_closures) then lift NoAnswer
  else match mem !! name with
       | Some (MMethod s) =>
           rs ← arr_of s;
           lift (call (makeMethod rs) (VRef e) args)
       | Some (MProp (SVal (inr g))) => lift (call g (VRef e) args)
       | Some (MProp _) => throw (TypeError (name +:+ " is not a function"))
       | None =>
           if inherited name then lift NoAnswer
           else throw (TypeError (name +:+ " is not a function"))
       end.

(** [e.name] read as a property: what the property holds, if [e] has the
    property (an own closure or an inherited member is no property, and
    gets no answer here). *)
Definition get_property (e : loc) (name : string) : M (option slot) :=
  '(_, _, mem) ← read_env e;
  if bool_decide (name ∈ own_closures) then lift NoAnswer
  else match mem !! name with
       | Some (MProp s) => mret (Some s)
       | Some (MMethod _) => mret None
       | None => if inherited name then lift NoAnswer else mret None
       end.

(** *** Well-formed heaps, and the statements the claims are measured against *)

Definition put_all {A : Type} (acc : gmap string A) (kvs : list (string * A))
    : gmap string A :=
  foldl (fun m kv => <[kv.1 := kv.2]> m) acc kvs.

(** The members that the constructor gives an environment. *)
Definition members_of (m p : gmap string slot) : gmap string member :=
  (MProp <$> p) ∪ (MMethod <$> m).

(** No method is named like an own closure or an inherited member; no
    property is named like one of them or like a method.  The constructor
    throws for any other tables. *)
Definition names_ok (m p : gmap string slot) : Prop :=
  map_Forall (fun i _ => reserved i = false) m /\
  map_Forall (fun i _ => (reserved i = false) /\ (m !! i = None)) p.

Definition arr_at (σ : heap) (s : slot) : option (list (option registration)) :=
  match s with
  | SArr l => match σ !! l with Some (CArr rs) => Some rs | _ => None end
  | SVal _ => None
  end.

Definition arrays_ok (σ : heap) (m : gmap string slot) : Prop :=
  map_Forall (fun _ s => is_Some (arr_at σ s)) m.

Definition env_ok (σ : heap) (e : loc) : Prop :=
  exists ms ps m p,
    σ !! e = Some (CEnv ms ps (members_of m p)) /\
    σ !! ms = Some (CObj m) /\ σ !! ps = Some (CObj p) /\
    names_ok m p /\ arrays_ok σ m.

(** The registrations of the multimethod [name] of [e], if [e] has this
    multimethod. *)
Definition registrations_of (σ : heap) (e : loc) (name : string)
    : option (list (option registration)) :=
  if bool_decide (name ∈ own_closures) then None
  else match σ !! e with
       | Some (CEnv _ _ mem) =>
           match mem !! name with
           | Some (MMethod s) => arr_at σ s
           | _ => None
           end
       | _ => None
       end.

Definition has_member (σ : heap) (e : loc) (n : string) : bool :=
  reserved n ||
  match σ !! e with
  | Some (CEnv _ _ mem) => bool_decide (is_Some (mem !! n))
  | _ => false
  end.

(** The registrations under [name] before a call of [method]. *)
Definition old_registrations (σ : heap) (m : gmap string slot) (name : string)
    : option (list (option registration)) :=
  match m !! name with
  | Some s => arr_at σ s
  | None => Some []
  end.

(** Whether the predicate of a registration holds of the arguments. *)
Definition matches (r : registration) (args : list value) : result bool :=
  t ← call (predicate r) VUndef args; mret (truthy_ret t).

Definition rejects (args : list value) (q : option registration) : Prop :=
  exists r, q = Some r /\ matches r args = Ok false.

Definition accepts (args : list value) (r : registration) : Prop :=
  matches r args = Ok true.

(** C1 as stated would have the error determine the method name and the
    argument count of the failed call. *)
Definition error_carries_name_and_count : Prop :=
  exists info : exn -> string * nat,
    forall σ e m rs args x,
      registrations_of σ e m = Some rs -> Forall (rejects args) rs ->
      (call_method e m args σ).1 = Throw x ->
      info x = (m, List.length args).

(** An environment with the multimethods [negate] (on numbers) and [size]
    (on arrays), built from the empty environment. *)
Definition negate_impl : callable :=
  Plain 1 None (fun _ args =>
    Ok (RVal match arg 0 args with VNum n => VNum (- n) | v => v end)).
Definition size_impl : callable :=
  Plain 1 None (fun _ args =>
    Ok (RVal match arg 0 args with
             | VArr xs => VNum (Z.of_nat (List.length xs))
             | v => v
             end)).
Definition sample : M loc :=
  e ← environment None None;
  e ← method e "negate" isNumber negate_impl;
  method e "size" isArray size_impl.
Definition sample_heap : heap := Eval vm_compute in (sample []).2.
Definition sample_env : loc := Eval vm_compute in
  match (sample []).1 with Ok e => e | _ => 0 end.

(** C2 as stated would have [method] return an environment for every name
    that has no registration. *)
Definition method_accepts_every_unregistered_name : Prop :=
  forall σ e n p fn,
    env_ok σ e -> registrations_of σ e n = None ->
    exists e' σ', method e n p fn σ = (Ok e', σ').

(** What [methods[i].concat(extraMethods[i])] holds. *)
Definition merged (σ : heap) (xs : gmap string slot) (i : string) (s : slot)
    : list (option registration) :=
  default [] (arr_at σ s) ++
  match xs !! i with
  | Some x => default [] (arr_at σ x)
  | None => [None]
  end.

Definition fill (acc : gmap string slot) (kvs : list (string * slot))
    : gmap string slot :=
  foldl (fun a kv => if bool_decide (is_Some (a !! kv.1)) || inherited kv.1 then a
                     else <[kv.1 := kv.2]> a) acc kvs.

Definition tables_of (σ : heap) (e : loc) : option (loc * loc) :=
  match σ !! e with
  | Some (CEnv ms ps _) => Some (ms, ps)
  | _ => None
  end.

Definition obj_at (σ : heap) (l : loc) : gmap string slot :=
  match σ !! l with
  | Some (CObj o) => o
  | _ => ∅
  end.

(** The names of the merged tables do not clash. *)
Definition merge_ok (σ : heap) (e : loc) (xs xpo : gmap string slot) : Prop :=
  match tables_of σ e with
  | Some (ms, ps) => names_ok (xs ∪ obj_at σ ms) (xpo ∪ obj_at σ ps)
  | None => False
  end.

(** A heap with tables to merge into the sample environment: a second
    registration for [negate] (on booleans) and the property [goal]. *)
Definition not_impl : callable :=
  Plain 1 None (fun _ args =>
    Ok (RVal match arg 0 args with VBool b => VBool (negb b) | v => v end)).
Definition merge_heap : heap :=
  sample_heap ++
  [CArr [Some (Registration isBoolean not_impl)];
   CObj {["negate" := SArr 11]};
   CObj {["goal" := SVal (RVal (VNum 100))]}].

(** C3 as stated would have [envConcat] return an environment for every
    base and every pair of extra tables. *)
Definition envConcat_always_returns : Prop :=
  forall σ e xm xp xs xpo,
    env_ok σ e ->
    σ !! xm = Some (CObj xs) -> σ !! xp = Some (CObj xpo) -> arrays_ok σ xs ->
    exists e' σ', envConcat e xm xp σ = (Ok e', σ').

(** Extra tables with a property named like a member of
    [Object.prototype]. *)
Definition shadow_heap : heap :=
  sample_heap ++
  [CArr [Some (Registration isBoolean not_impl)];
   CObj {["negate" := SArr 11]};
   CObj {["toString" := SVal (RVal (VNum 100))]}].

(** Extra tables that name [negate] both as a multimethod and as a
    property. *)
Definition clash_heap : heap :=
  sample_heap ++
  [CArr [Some (Registration isBoolean not_impl)];
   CObj {["negate" := SArr 11]};
   CObj {["negate" := SVal (RVal (VNum 100))]}].

(** [f] after successive partial applications [bind(f)(o1, as1..)],
    [bind(..)(o2, as2..)], ... *)
Definition partially (fn : callable) (steps : list (value * list value)) : callable :=
  foldl (fun g step => bind g step.1 step.2) fn steps.

(** The arguments collected by the steps, and the [this] that the function
    finally receives: the one bound first. *)
Definition collected (steps : list (value * list value)) : list value :=
  concat (steps.*2).
Definition bound_this (steps : list (value * list value)) (this : value) : value :=
  match steps with
  | [] => this
  | (o, _) :: _ => o
  end.

(** [function(a, b) { return [a, b]; }] *)
Definition pair_impl : callable :=
  Plain 2 None (fun _ args => Ok (RVal (VArr [arg 0 args; arg 1 args]))).

(** The sample environment with the multimethod [pair] on numbers. *)
Definition pair_sample : M loc :=
  e ← sample;
  method e "pair" isNumber pair_impl.
Definition pair_heap : heap := Eval vm_compute in (pair_sample []).2.
Definition pair_env : loc := Eval vm_compute in
  match (pair_sample []).1 with Ok e => e | _ => 0 end.

(** A predicate that throws, and the sample environment with a second
    registration of [size] under it. *)
Definition throwing_predicate : callable :=
  Plain 1 None (fun _ _ => Throw (TypeError "not a collection")).
Definition picky_sample : M loc :=
  e ← sample;
  method e "size" throwing_predicate negate_impl.
Definition picky_heap : heap := Eval vm_compute in (picky_sample []).2.
Definition picky_env : loc := Eval vm_compute in
  match (picky_sample []).1 with Ok e => e | _ => 0 end.

(** The sample environment with the property [goal]. *)
Definition goal_sample : M loc :=
  e ← sample;
  property e "goal" (SVal (RVal (VNum 100))).
Definition goal_heap : heap := Eval vm_compute in (goal_sample []).2.
Definition goal_env : loc := Eval vm_compute in
  match (goal_sample []).1 with Ok e => e | _ => 0 end.

(** C4 as stated: a multimethod called with fewer arguments than the
    declared parameter count of its first implementation returns a
    function. *)
Definition multimethods_curried : Prop :=
  forall σ e name r rest args,
    registrations_of σ e name = Some (Some r :: rest) ->
    List.length args < functionLength (f r) ->
    exists g, (call_method e name args σ).1 = Ok (RFn g).

(** *** Facts about the heap operations *)

Lemma lookup_fresh (σ τ : heap) (c : cell) : (σ ++ c :: τ) !! List.length σ = Some c.
Proof. by rewrite list_lookup_middle. Qed.

Lemma insert_fresh (σ τ : heap) (c c' : cell) :
  <[List.length σ := c']> (σ ++ c :: τ) = σ ++ c' :: τ.
Proof. rewrite insert_app_r_alt; [|lia]. by rewrite Nat.sub_diag. Qed.

Lemma reserved_false i :
  reserved i = false ->
  (i ∉ own_closures) /\ inherited i = false /\ i <> "__proto__".
Proof.
  unfold reserved. intros [H1 H2]%orb_false_elim.
  apply bool_decide_eq_false in H1. split; [done|]. split; [done|].
  intros ->. done.
Qed.

Lemma own_closure_reserved i : i ∈ own_closures -> reserved i = true.
Proof. intros Hi. unfold reserved. by rewrite bool_decide_eq_true_2. Qed.

Lemma own_closure_not_inherited i : i ∈ own_closures -> inherited i = false.
Proof.
  unfold own_closures.
  intros [->|[->|[->|[->|[]%elem_of_nil]%elem_of_cons]%elem_of_cons]%elem_of_cons]%elem_of_cons;
    reflexivity.
Qed.

(** The keys of a table with proper names: none is ["__proto__"]. *)
Lemma no_proto_key (m : gmap string slot) :
  map_Forall (fun i _ => reserved i = false) m -> m !! "__proto__" = None.
Proof.
  intros Hm. destruct (m !! "__proto__") as [x|] eqn:E; [|done].
  by destruct (reserved_false _ (Hm _ _ E)) as (_ & _ & ?).
Qed.

Lemma set_prop_fresh (σ τ : heap) o k s :
  k <> "__proto__" ->
  set_prop (List.length σ) k s (σ ++ CObj o :: τ)
  = (Ok tt, σ ++ CObj (<[k := s]> o) :: τ).
Proof.
  intros Hk. unfold set_prop. rewrite lookup_fresh, insert_fresh.
  by rewrite bool_decide_eq_false_2.
Qed.

Lemma put_all_union {A : Type} (kvs : list (string * A)) (acc : gmap string A) :
  NoDup kvs.*1 -> put_all acc kvs = list_to_map kvs ∪ acc.
Proof.
  revert acc. induction kvs as [|[k v] kvs IH]; intros acc Hnd; simpl.
  - by rewrite (left_id_L ∅ (∪)).
  - inversion_clear Hnd as [|? ? Hk Hnd']. unfold put_all in *. simpl.
    rewrite (IH _ Hnd'). rewrite <- insert_union_l.
    rewrite <- insert_union_r; [done|].
    by apply not_elem_of_list_to_map_1.
Qed.

Lemma put_all_map {A : Type} (m acc : gmap string A) :
  put_all acc (map_to_list m) = m ∪ acc.
Proof.
  rewrite put_all_union by apply NoDup_fst_map_to_list.
  by rewrite list_to_map_to_list.
Qed.

Lemma copy_loop (σ τ : heap) kvs acc :
  Forall (fun kv => kv.1 <> "__proto__") kvs ->
  for_each (fun kv => set_prop (List.length σ) kv.1 kv.2) kvs (σ ++ CObj acc :: τ)
  = (Ok tt, σ ++ CObj (put_all acc kvs) :: τ).
Proof.
  intros Hkvs. revert acc.
  induction Hkvs as [|[k v] kvs Hk _ IH]; intros acc; [done|].
  cbn [for_each]. unfold mbind, M_bind. rewrite set_prop_fresh by done. apply IH.
Qed.

Lemma map_to_list_no_proto {A : Type} (o : gmap string A) :
  o !! "__proto__" = None ->
  Forall (fun kv => kv.1 <> "__proto__") (map_to_list o).
Proof.
  intros Ho. apply Forall_forall. intros [k v] Hkv%elem_of_map_to_list.
  simpl. intros ->. congruence.
Qed.

Lemma extend_spec (σ : heap) a b oa ob :
  σ !! a = Some (CObj oa) -> σ !! b = Some (CObj ob) ->
  oa !! "__proto__" = None -> ob !! "__proto__" = None ->
  extend a b σ = (Ok (List.length σ), σ ++ [CObj (ob ∪ oa)]).
Proof.
  intros Ha Hb Hoa Hob.
  unfold extend, mbind, M_bind, alloc, read_obj, for_in, mret, M_ret.
  rewrite (lookup_app_l_Some _ _ _ _ Ha).
  rewrite copy_loop by (by apply map_to_list_no_proto).
  rewrite (lookup_app_l_Some _ _ _ _ Hb).
  rewrite copy_loop by (by apply map_to_list_no_proto). rewrite !put_all_map.
  by rewrite (right_id_L ∅ (∪)).
Qed.

Lemma this_truthy_fresh (mem : gmap string member) i :
  reserved i = false -> mem !! i = None -> this_truthy mem i = false.
Proof. intros Hi Hm. unfold this_truthy. by rewrite Hm. Qed.

Lemma add_member_fresh (σ τ : heap) kind wrap ms ps mem i s :
  reserved i = false -> mem !! i = None ->
  add_member (List.length σ) kind wrap i s (σ ++ CEnv ms ps mem :: τ)
  = (Ok tt, σ ++ CEnv ms ps (<[i := wrap s]> mem) :: τ).
Proof.
  intros Hi Hm. unfold add_member, mbind, M_bind, read_env, set_member.
  rewrite lookup_fresh. rewrite this_truthy_fresh by done.
  by rewrite lookup_fresh, insert_fresh.
Qed.

Lemma members_loop (σ τ : heap) kind wrap ms ps kvs mem :
  NoDup kvs.*1 ->
  (forall k, k ∈ (kvs.*1) -> (reserved k = false) /\ (mem !! k = None)) ->
  for_each (fun kv => add_member (List.length σ) kind wrap kv.1 kv.2) kvs
    (σ ++ CEnv ms ps mem :: τ)
  = (Ok tt, σ ++ CEnv ms ps (put_all mem (prod_map id wrap <$> kvs)) :: τ).
Proof.
  revert mem. induction kvs as [|[k v] kvs IH]; intros mem Hnd Hk; [done|].
  inversion_clear Hnd as [|? ? Hnk Hnd'].
  cbn [for_each]. unfold mbind at 1, M_bind at 1. cbn [fst snd].
  destruct (Hk k) as [Hown Hnone]; [apply list_elem_of_here|].
  rewrite add_member_fresh by done.
  rewrite IH; [done|done|].
  intros k' Hk'. destruct (Hk k') as [? ?]; [by apply list_elem_of_further|].
  split; [done|]. rewrite lookup_insert_ne; [done|]. intros ->. done.
Qed.

Lemma wrap_all (wrap : slot -> member) (m : gmap string slot) acc :
  put_all acc (prod_map id wrap <$> map_to_list m) = (wrap <$> m) ∪ acc.
Proof.
  rewrite put_all_union.
  - by rewrite list_to_map_fmap, list_to_map_to_list.
  - rewrite <- list_fmap_compose.
    rewrite (list_fmap_ext _ fst (map_to_list m)) by (by intros ? [??]).
    apply NoDup_fst_map_to_list.
Qed.

Lemma environment_spec (σ : heap) ms ps m p :
  σ !! ms = Some (CObj m) -> σ !! ps = Some (CObj p) -> names_ok m p ->
  environment (Some ms) (Some ps) σ
  = (Ok (List.length σ), σ ++ [CEnv ms ps (members_of m p)]).
Proof.
  intros Hm Hp [Hok1 Hok2].
  unfold environment, arg_or_empty, alloc, read_obj, for_in, mbind, M_bind, mret, M_ret.
  rewrite (lookup_app_l_Some _ _ _ _ Hm).
  rewrite members_loop; first last.
  { intros k Hk. split; [|apply lookup_empty].
    apply list_elem_of_fmap in Hk as ([k' v] & -> & Hin).
    apply elem_of_map_to_list in Hin. by apply (Hok1 k' v). }
  { apply NoDup_fst_map_to_list. }
  rewrite (lookup_app_l_Some _ _ _ _ Hp).
  rewrite members_loop; first last.
  { intros k Hk. apply list_elem_of_fmap in Hk as ([k' v] & -> & Hin).
    apply elem_of_map_to_list in Hin. destruct (Hok2 k' v Hin) as [? Hn].
    split; [done|]. cbn [fst]. rewrite wrap_all, lookup_union, lookup_fmap, Hn.
    by rewrite lookup_empty. }
  { apply NoDup_fst_map_to_list. }
  rewrite !wrap_all. unfold members_of. by rewrite (right_id_L ∅ (∪)).
Qed.

Lemma arr_at_app σ τ s rs : arr_at σ s = Some rs -> arr_at (σ ++ τ) s = Some rs.
Proof.
  destruct s as [v|l]; [done|]. simpl.
  destruct (σ !! l) as [c|] eqn:E; [|done].
  by rewrite (lookup_app_l_Some _ _ _ _ E).
Qed.

Lemma arrays_ok_app σ τ m : arrays_ok σ m -> arrays_ok (σ ++ τ) m.
Proof.
  intros H i s Hi. destruct (H i s Hi) as [rs Hrs].
  exists rs. by apply arr_at_app.
Qed.

Lemma env_ok_app σ τ e : env_ok σ e -> env_ok (σ ++ τ) e.
Proof.
  intros (ms & ps & m & p & He & Hm & Hp & Hn & Ha).
  exists ms, ps, m, p.
  split; [by apply lookup_app_l_Some|]. split; [by apply lookup_app_l_Some|].
  split; [by apply lookup_app_l_Some|]. split; [done|]. by apply arrays_ok_app.
Qed.

Lemma arr_of_spec σ s rs : arr_at σ s = Some rs -> arr_of s σ = (Ok rs, σ).
Proof.
  destruct s as [v|l]; [done|]. simpl. unfold read_arr.
  destruct (σ !! l) as [[]|]; naive_solver.
Qed.

Lemma lookup_members_of_method m p i s :
  names_ok m p -> m !! i = Some s -> members_of m p !! i = Some (MMethod s).
Proof.
  intros [_ Hp] Hi. unfold members_of. rewrite lookup_union_r.
  - by rewrite lookup_fmap, Hi.
  - rewrite lookup_fmap. destruct (p !! i) as [x|] eqn:E; [|done].
    destruct (Hp i x E) as [_ Hn]. congruence.
Qed.

Lemma lookup_members_of_None m p i :
  members_of m p !! i = None <-> m !! i = None /\ p !! i = None.
Proof.
  unfold members_of. rewrite lookup_union_None, !lookup_fmap, !fmap_None. tauto.
Qed.

(** A call only reads the heap, and reads it the same in a larger heap. *)
Lemma call_method_frame σ τ e name args :
  env_ok σ e ->
  call_method e name args (σ ++ τ) = ((call_method e name args σ).1, σ ++ τ).
Proof.
  intros (ms & ps & m & p & He & Hm & Hp & Hn & Ha).
  unfold call_method, mbind, M_bind, read_env.
  rewrite (lookup_app_l_Some _ _ _ _ He), He.
  case_bool_decide; [done|].
  destruct (members_of m p !! name) as [[s|[[v|g]|l]]|] eqn:E; try done;
    [|by destruct (inherited name)].
  assert (exists rs, arr_at σ s = Some rs) as [rs Hrs].
  { unfold members_of in E. apply lookup_union_Some_raw in E as [E|[_ E]].
    - rewrite lookup_fmap in E. destruct (p !! name); simplify_eq/=.
    - rewrite lookup_fmap in E. destruct (m !! name) eqn:E'; simplify_eq/=.
      by apply (Ha name). }
  rewrite (arr_of_spec _ _ _ (arr_at_app _ τ _ _ Hrs)), (arr_of_spec _ _ _ Hrs).
  done.
Qed.

Lemma get_property_frame σ τ e name :
  env_ok σ e ->
  get_property e name (σ ++ τ) = ((get_property e name σ).1, σ ++ τ).
Proof.
  intros (ms & ps & m & p & He & _).
  unfold get_property, mbind, M_bind, read_env.
  rewrite (lookup_app_l_Some _ _ _ _ He), He.
  case_bool_decide; [done|].
  destruct (members_of m p !! name) as [[]|]; try done.
  by destruct (inherited name).
Qed.

Lemma call_multimethod σ e name rs args :
  registrations_of σ e name = Some rs ->
  call_method e name args σ = (call (makeMethod rs) (VRef e) args, σ).
Proof.
  unfold registrations_of, call_method, mbind, M_bind, read_env.
  case_bool_decide; [done|].
  destruct (σ !! e) as [[| |ms ps mem]|]; try done.
  destruct (mem !! name) as [[s|]|]; try done.
  intros Hrs. by rewrite (arr_of_spec _ _ _ Hrs).
Qed.

Lemma singleton_spec (σ : heap) k s :
  k <> "__proto__" ->
  singleton k s σ = (Ok (List.length σ), σ ++ [CObj {[k := s]}]).
Proof.
  intros Hk. unfold singleton, alloc, mbind, M_bind, mret, M_ret.
  rewrite set_prop_fresh by done. by rewrite insert_empty.
Qed.

Lemma names_ok_insert m p name s :
  names_ok m p -> reserved name = false -> p !! name = None ->
  names_ok (<[name := s]> m) p.
Proof.
  intros [H1 H2] Hn Hp. split.
  - intros i x Hi. destruct (decide (name = i)) as [<-|Hne]; [done|].
    rewrite lookup_insert_ne in Hi by done. by apply (H1 i x).
  - intros i x Hi. destruct (H2 i x Hi) as [? ?]. split; [done|].
    rewrite lookup_insert_ne; [done|]. intros <-. congruence.
Qed.

Lemma method_spec (σ : heap) e ms ps mem m p name old pr fn :
  σ !! e = Some (CEnv ms ps mem) ->
  σ !! ms = Some (CObj m) -> σ !! ps = Some (CObj p) ->
  old_registrations σ m name = Some old ->
  names_ok (<[name := SArr (List.length σ)]> m) p ->
  method e name pr fn σ
  = (Ok (List.length σ + 3),
     σ ++ [CArr (old ++ [Some (Registration pr fn)]);
           CObj {[name := SArr (List.length σ)]};
           CObj (<[name := SArr (List.length σ)]> m);
           CEnv (List.length σ + 2) ps
                (members_of (<[name := SArr (List.length σ)]> m) p)]).
Proof.
  intros He Hm Hp Hold Hok.
  assert (reserved name = false) as Hres
    by (apply (proj1 Hok name (SArr (List.length σ))), lookup_insert_eq).
  destruct (reserved_false _ Hres) as (_ & Hinh & Hproto).
  assert (m !! "__proto__" = None) as Hmproto.
  { pose proof (no_proto_key _ (proj1 Hok)) as H.
    by rewrite lookup_insert_ne in H. }
  unfold method.
  unfold mbind at 1, M_bind at 1, read_env. rewrite He.
  unfold mbind at 1, M_bind at 1, read_obj. rewrite Hm.
  unfold mbind at 1, M_bind at 1. rewrite Hinh.
  assert ((match m !! name with Some s => arr_of s | None => mret [] end) σ
          = (Ok old, σ)) as ->.
  { unfold old_registrations in Hold. destruct (m !! name).
    - by apply arr_of_spec.
    - by simplify_eq. }
  unfold mbind at 1, M_bind at 1, alloc.
  unfold mbind at 1, M_bind at 1. rewrite singleton_spec by done.
  unfold mbind at 1, M_bind at 1.
  rewrite (extend_spec _ ms _ m {[name := SArr (List.length σ)]}); first last.
  { by rewrite lookup_singleton_ne. }
  { done. }
  { apply (lookup_fresh _ []). }
  { rewrite <- !app_assoc. by apply lookup_app_l_Some. }
  rewrite <- insert_union_singleton_l.
  rewrite (environment_spec _ _ _ (<[name := SArr (List.length σ)]> m) p); first last.
  { done. }
  { rewrite <- !app_assoc. by apply lookup_app_l_Some. }
  { apply (lookup_fresh _ []). }
  rewrite !length_app. simpl. rewrite <- !app_assoc. simpl.
  replace (List.length σ + 1 + 1 + 1) with (List.length σ + 3) by lia.
  by replace (List.length σ + 1 + 1) with (List.length σ + 2) by lia.
Qed.

Lemma matches_inv r args b :
  matches r args = Ok b ->
  exists t, call (predicate r) VUndef args = Ok t /\ truthy_ret t = b.
Proof.
  unfold matches. destruct (call (predicate r) VUndef args) as [t| |]; [|done..].
  intros [= <-]. by exists t.
Qed.

Lemma findRegistered_first pre r post args :
  Forall (rejects args) pre -> accepts args r ->
  findRegistered (pre ++ Some r :: post) args = Ok (f r).
Proof.
  intros Hpre Hr. induction Hpre as [|q pre (r' & -> & Hq) _ IH]; simpl.
  - apply matches_inv in Hr as (t & -> & Ht). simpl. by rewrite Ht.
  - apply matches_inv in Hq as (t & -> & Ht). simpl. by rewrite Ht.
Qed.

Lemma findRegistered_none rs args :
  Forall (rejects args) rs -> findRegistered rs args = Throw not_implemented.
Proof.
  induction 1 as [|q rs (r' & -> & Hq) _ IH]; simpl; [done|].
  apply matches_inv in Hq as (t & -> & Ht). simpl. by rewrite Ht.
Qed.

(** C1 (amended): a call of a registered multimethod scans the registration
    list in order and invokes the implementation of the first registration
    whose predicate holds of the arguments, with the environment as [this];
    when every registration rejects the arguments the call throws the fixed
    [Error("Method not implemented for this input")], which names neither
    the method nor the argument count. *)
Theorem dispatch_first_match σ e m rs args :
  registrations_of σ e m = Some rs ->
  (forall pre r post,
      rs = pre ++ Some r :: post -> Forall (rejects args) pre -> accepts args r ->
      call_method e m args σ = (call (f r) (VRef e) args, σ)) /\
  (Forall (rejects args) rs ->
      call_method e m args σ
      = (Throw (Error "Method not implemented for this input"), σ)).
Proof.
  intros Hrs. rewrite (call_multimethod _ _ _ _ args Hrs). split.
  - intros pre r post -> Hpre Hr. simpl.
    by rewrite (findRegistered_first _ _ _ _ Hpre Hr).
  - intros Hall. simpl. by rewrite (findRegistered_none _ _ Hall).
Qed.

Lemma dispatch_first_match_witness :
  call_method sample_env "negate" [VNum 5] sample_heap
  = (Ok (RVal (VNum (-5))), sample_heap) /\
  call_method sample_env "negate" [VStr "a"] sample_heap
  = (Throw (Error "Method not implemented for this input"), sample_heap).
Proof.
  assert (registrations_of sample_heap sample_env "negate"
          = Some [Some (Registration isNumber negate_impl)]) as Hrs by reflexivity.
  destruct (dispatch_first_match _ _ _ _ [VNum 5] Hrs) as [H1 _].
  destruct (dispatch_first_match _ _ _ _ [VStr "a"] Hrs) as [_ H2].
  split.
  - apply (H1 [] (Registration isNumber negate_impl) []); [reflexivity | constructor | reflexivity].
  - apply H2. constructor; [|constructor].
    exists (Registration isNumber negate_impl). split; reflexivity.
Defined.

(** C1 (counterexample): two failed calls, of different multimethods and
    with different argument counts, throw the very same error; so the error
    carries neither the name nor the count. *)
Lemma dispatch_error_anonymous :
  (call_method sample_env "negate" [VStr "a"] sample_heap).1
  = Throw (Error "Method not implemented for this input") /\
  (call_method sample_env "size" [VNum 1; VNum 2] sample_heap).1
  = Throw (Error "Method not implemented for this input") /\
  ~ error_carries_name_and_count.
Proof.
  split; [reflexivity|]. split; [reflexivity|].
  intros [info Hinfo].
  assert (info not_implemented = ("negate", 1)) as H1.
  { apply (Hinfo sample_heap sample_env "negate"
             [Some (Registration isNumber negate_impl)] [VStr "a"]);
      [reflexivity| |reflexivity].
    constructor; [|constructor]. eexists. split; reflexivity. }
  assert (info not_implemented = ("size", 2)) as H2.
  { apply (Hinfo sample_heap sample_env "size"
             [Some (Registration isArray size_impl)] [VNum 1; VNum 2]);
      [reflexivity| |reflexivity].
    constructor; [|constructor]. eexists. split; reflexivity. }
  congruence.
Qed.

Lemma lookup_fresh_n (σ τ : heap) k c :
  τ !! k = Some c -> (σ ++ τ) !! (List.length σ + k) = Some c.
Proof. intros H. rewrite lookup_app_r by lia. by replace (_ + _ - _) with k by lia. Qed.

Lemma has_member_false σ e ms ps m p n :
  σ !! e = Some (CEnv ms ps (members_of m p)) -> has_member σ e n = false ->
  reserved n = false /\ m !! n = None /\ p !! n = None.
Proof.
  unfold has_member. intros -> [H1 H2]%orb_false_elim.
  apply bool_decide_eq_false in H2. split; [done|].
  apply lookup_members_of_None. by apply eq_None_not_Some.
Qed.

(** C2 (amended): for a name [n] that is no member of [e] (no multimethod,
    no property, none of the own closures, and no member that [e] inherits
    from [Object.prototype]), [e.method(n, p, f)] returns a
    new environment whose [n] has the single registration [(p, f)], so that
    a call whose arguments satisfy [p] invokes [f]; the other multimethods
    are shared; the heap of [e] is a prefix of the new heap, every call and
    property of [e] resolves as before, and a call of [n] on [e] still
    fails, [e] having no member [n] (a [TypeError]). *)
Theorem method_fresh_name σ e n p fn :
  env_ok σ e -> has_member σ e n = false ->
  exists e' τ,
    method e n p fn σ = (Ok e', σ ++ τ) /\
    env_ok (σ ++ τ) e' /\
    registrations_of (σ ++ τ) e' n = Some [Some (Registration p fn)] /\
    (forall args, accepts args (Registration p fn) ->
       call_method e' n args (σ ++ τ) = (call fn (VRef e') args, σ ++ τ)) /\
    (forall m, m <> n ->
       registrations_of (σ ++ τ) e' m = registrations_of σ e m) /\
    (forall m args,
       call_method e m args (σ ++ τ) = ((call_method e m args σ).1, σ ++ τ)) /\
    (forall m,
       get_property e m (σ ++ τ) = ((get_property e m σ).1, σ ++ τ)) /\
    (forall args,
       (call_method e n args (σ ++ τ)).1
       = Throw (TypeError (n +:+ " is not a function"))).
Proof.
  intros Hok Hfresh. pose proof Hok as (ms & ps & m & p0 & He & Hm & Hp & Hn & Ha).
  destruct (has_member_false _ _ _ _ _ _ _ He Hfresh) as (Hres & Hmn & Hpn).
  destruct (reserved_false _ Hres) as (Hown & Hinh & _).
  set (a := List.length σ).
  set (m' := <[n := SArr a]> m).
  set (τ := [CArr [Some (Registration p fn)]; CObj {[n := SArr a]}; CObj m';
             CEnv (a + 2) ps (members_of m' p0)]).
  assert (names_ok m' p0) as Hn' by (by apply names_ok_insert).
  assert (method e n p fn σ = (Ok (a + 3), σ ++ τ)) as Hmethod.
  { apply (method_spec σ e ms ps _ m p0 n [] p fn He Hm Hp); [|done].
    unfold old_registrations. by rewrite Hmn. }
  assert ((σ ++ τ) !! (a + 3) = Some (CEnv (a + 2) ps (members_of m' p0))) as He'
    by (by apply lookup_fresh_n).
  assert (arr_at (σ ++ τ) (SArr a) = Some [Some (Registration p fn)]) as Harr.
  { unfold arr_at, a, τ. by rewrite lookup_fresh. }
  assert (registrations_of (σ ++ τ) (a + 3) n = Some [Some (Registration p fn)]) as Hregs.
  { unfold registrations_of. rewrite bool_decide_eq_false_2 by done.
    rewrite He'.
    rewrite (lookup_members_of_method m' p0 n (SArr a)); [done|done|].
    apply lookup_insert_eq. }
  exists (a + 3), τ. split; [done|]. split; [|split; [done|split; [|split; [|split; [|split]]]]].
  - exists (a + 2), ps, m', p0. split; [done|].
    split; [by apply lookup_fresh_n|]. split; [by apply lookup_app_l_Some|].
    split; [done|]. intros i s Hi. unfold m' in Hi.
    destruct (decide (n = i)) as [<-|Hne].
    + rewrite lookup_insert_eq in Hi. simplify_eq. by eexists.
    + rewrite lookup_insert_ne in Hi by done.
      by apply (arrays_ok_app σ τ m Ha i).
  - intros args Hacc. rewrite (call_multimethod _ _ _ _ args Hregs). simpl.
    pose proof (findRegistered_first [] _ [] args (Forall_nil_2 _) Hacc) as Hf.
    simpl in Hf. by rewrite Hf.
  - intros k Hk. unfold registrations_of. rewrite He', He.
    case_bool_decide; [done|].
    unfold members_of, m'. rewrite !lookup_union, !lookup_fmap.
    rewrite lookup_insert_ne by done.
    destruct (p0 !! k) as [s|] eqn:Ep; simpl.
    { by destruct (m !! k). }
    destruct (m !! k) as [s|] eqn:Em; simpl; [|done].
    destruct (Ha k s Em) as [rs Hrs]. rewrite Hrs. by apply arr_at_app.
  - intros k args. by apply call_method_frame.
  - intros k. by apply get_property_frame.
  - intros args. rewrite call_method_frame by done. simpl.
    unfold call_method, mbind, M_bind, read_env. rewrite He.
    rewrite bool_decide_eq_false_2 by done.
    assert (members_of m p0 !! n = None) as -> by (by apply lookup_members_of_None).
    by rewrite Hinh.
Qed.

Lemma sample_env_ok : env_ok sample_heap sample_env.
Proof.
  exists 9, 1, {["negate" := SArr 3; "size" := SArr 7]}, ∅.
  split; [reflexivity|]. split; [reflexivity|]. split; [reflexivity|].
  split; [split|]; compute_done.
Qed.

Lemma method_fresh_name_witness :
  exists e' τ,
    method sample_env "equal" isNumber strictEquals sample_heap
    = (Ok e', sample_heap ++ τ) /\
    call_method e' "equal" [VNum 2; VNum 2] (sample_heap ++ τ)
    = (Ok (RVal (VBool true)), sample_heap ++ τ).
Proof.
  destruct (method_fresh_name sample_heap sample_env "equal" isNumber strictEquals)
    as (e' & τ & H1 & _ & _ & H2 & _).
  - exact sample_env_ok.
  - reflexivity.
  - exists e', τ. split; [exact H1|]. rewrite H2; reflexivity.
Defined.

(** C2 (counterexample): [envAppend] has no registration in the sample
    environment, yet [method] throws for it; so it does for [toString],
    where [methods[name]] finds the member that [methods] inherits; and a
    call of an unregistered name fails with a [TypeError], not with the
    dispatch error. *)
Lemma method_rejects_own_closure_name :
  registrations_of sample_heap sample_env "envAppend" = None /\
  (method sample_env "envAppend" isNumber negate_impl sample_heap).1
  = Throw (Error "Method envAppend already in environment.") /\
  registrations_of sample_heap sample_env "toString" = None /\
  (method sample_env "toString" isNumber negate_impl sample_heap).1
  = Throw (TypeError "(methods[name] || []).concat is not a function") /\
  (call_method sample_env "equal" [VNum 2; VNum 2] sample_heap).1
  = Throw (TypeError "equal is not a function") /\
  ~ method_accepts_every_unregistered_name.
Proof.
  split; [reflexivity|]. split; [reflexivity|]. split; [reflexivity|].
  split; [reflexivity|]. split; [reflexivity|].
  intros H.
  destruct (H sample_heap sample_env "envAppend" isNumber negate_impl
              sample_env_ok eq_refl) as (e' & σ' & Heq).
  vm_compute in Heq. discriminate Heq.
Qed.

Lemma concat_method_spec (σ : heap) xs acc arrs i s :
  reserved i = false ->
  is_Some (arr_at σ s) -> arrays_ok σ xs ->
  concat_method (List.length σ) xs i s (σ ++ CObj acc :: CObj ∅ :: arrs)
  = (Ok tt,
     σ ++ CObj (<[i := SArr (List.length σ + 2 + List.length arrs)]> acc)
       :: CObj ∅ :: arrs ++ [CArr (merged σ xs i s)]).
Proof.
  intros Hres [base Hbase] Hxs.
  destruct (reserved_false _ Hres) as (_ & Hinh & Hproto).
  unfold concat_method.
  unfold mbind at 1, M_bind at 1.
  rewrite (arr_of_spec _ _ _ (arr_at_app _ _ _ _ Hbase)).
  unfold mbind at 1, M_bind at 1.
  assert (concat_arg i (xs !! i) (σ ++ CObj acc :: CObj ∅ :: arrs)
          = (Ok match xs !! i with
                | Some x => default [] (arr_at σ x)
                | None => [None]
                end, σ ++ CObj acc :: CObj ∅ :: arrs)) as ->.
  { unfold concat_arg. destruct (xs !! i) as [x|] eqn:E; [|by rewrite Hinh].
    destruct (Hxs i x E) as [rs Hrs]. rewrite Hrs. simpl.
    by apply arr_of_spec, arr_at_app. }
  unfold mbind at 1, M_bind at 1, alloc.
  replace ((σ ++ CObj acc :: CObj ∅ :: arrs) ++ [CArr (base ++ match xs !! i with
                | Some x => default [] (arr_at σ x)
                | None => [None]
                end)])
    with (σ ++ CObj acc :: CObj ∅ :: arrs ++ [CArr (merged σ xs i s)]).
  2:{ unfold merged. rewrite Hbase. simpl. by rewrite <- app_assoc. }
  rewrite set_prop_fresh by done. rewrite length_app. simpl.
  by replace (List.length σ + S (S (List.length arrs)))
       with (List.length σ + 2 + List.length arrs) by lia.
Qed.

Lemma concat_loop (σ : heap) xs kvs : forall acc arrs,
  NoDup (kvs.*1) ->
  Forall (fun kv => reserved kv.1 = false) kvs ->
  Forall (fun kv => is_Some (arr_at σ kv.2)) kvs ->
  arrays_ok σ xs ->
  exists acc' arrs',
    for_each (fun kv => concat_method (List.length σ) xs kv.1 kv.2) kvs
      (σ ++ CObj acc :: CObj ∅ :: arrs)
    = (Ok tt, σ ++ CObj acc' :: CObj ∅ :: arrs ++ arrs') /\
    (forall i, i ∉ kvs.*1 -> acc' !! i = acc !! i) /\
    (forall i s, (i, s) ∈ kvs ->
       exists j, acc' !! i = Some (SArr (List.length σ + 2 + j)) /\
                 (arrs ++ arrs') !! j = Some (CArr (merged σ xs i s))).
Proof.
  induction kvs as [|[k v] kvs IH]; intros acc arrs Hnd Hres Hall Hxs.
  - exists acc, []. rewrite app_nil_r. split; [done|]. split; [done|].
    intros i s Hin. by apply elem_of_nil in Hin.
  - inversion_clear Hnd as [|? ? Hk Hnd']. inversion_clear Hall as [|? ? Hv Hall'].
    inversion_clear Hres as [|? ? Hrk Hres'].
    destruct (IH (<[k := SArr (List.length σ + 2 + List.length arrs)]> acc)
                 (arrs ++ [CArr (merged σ xs k v)]) Hnd' Hres' Hall' Hxs)
      as (acc' & arrs' & Hrun & Hother & Hin).
    exists acc', (CArr (merged σ xs k v) :: arrs').
    split; [|split].
    + cbn [for_each]. unfold mbind at 1, M_bind at 1. cbn [fst snd].
      rewrite concat_method_spec by done. rewrite Hrun.
      by rewrite <- app_assoc.
    + intros i Hi. rewrite fmap_cons in Hi. cbn [fst] in Hi.
      apply not_elem_of_cons in Hi as [Hne Hi].
      rewrite (Hother i Hi). by rewrite lookup_insert_ne.
    + intros i s [Heq|Hin']%elem_of_cons.
      * simplify_eq. exists (List.length arrs). split.
        -- rewrite Hother by done. apply lookup_insert_eq.
        -- by rewrite list_lookup_middle.
      * destruct (Hin i s Hin') as (j & Hj1 & Hj2). exists j.
        split; [done|]. by rewrite <- app_assoc in Hj2.
Qed.

Lemma fill_union kvs : forall acc,
  NoDup (kvs.*1) -> Forall (fun kv => inherited kv.1 = false) kvs ->
  fill acc kvs = acc ∪ list_to_map kvs.
Proof.
  induction kvs as [|[k v] kvs IH]; intros acc Hnd Hinh; simpl.
  - by rewrite (right_id_L ∅ (∪)).
  - inversion_clear Hnd as [|? ? Hk Hnd']. inversion_clear Hinh as [|? ? Hik Hinh'].
    simpl in Hik. unfold fill in *. simpl. rewrite Hik, orb_false_r.
    rewrite (IH _ Hnd' Hinh').
    assert ((list_to_map kvs : gmap string slot) !! k = None) as HL
      by (by apply not_elem_of_list_to_map_1).
    apply map_eq. intros j. rewrite !lookup_union.
    case_bool_decide as Hacc.
    + destruct (decide (k = j)) as [<-|Hne].
      * destruct Hacc as [x Hx]. by rewrite Hx, lookup_insert_eq, HL.
      * by rewrite lookup_insert_ne.
    + apply eq_None_not_Some in Hacc.
      destruct (decide (k = j)) as [<-|Hne].
      * by rewrite !lookup_insert_eq, Hacc, HL.
      * by rewrite !lookup_insert_ne.
Qed.

Lemma missing_loop (σ τ : heap) kvs : forall acc,
  for_each (fun kv => add_missing (List.length σ) kv.1 kv.2) kvs
    (σ ++ CObj acc :: τ)
  = (Ok tt, σ ++ CObj (fill acc kvs) :: τ).
Proof.
  induction kvs as [|[k v] kvs IH]; intros acc; [done|].
  cbn [for_each]. unfold mbind at 1, M_bind at 1.
  unfold add_missing at 1. unfold mbind at 1, M_bind at 1, read_obj.
  rewrite lookup_fresh. cbn [fst snd].
  unfold fill. simpl.
  destruct (bool_decide (is_Some (acc !! k)) || inherited k) eqn:E.
  - unfold mret, M_ret. apply IH.
  - apply orb_false_elim in E as [_ E].
    rewrite set_prop_fresh by (intros ->; done). apply IH.
Qed.

Lemma get_property_spec σ e ms ps m p n :
  σ !! e = Some (CEnv ms ps (members_of m p)) -> reserved n = false ->
  get_property e n σ = (Ok (p !! n), σ).
Proof.
  intros He Hn. destruct (reserved_false _ Hn) as (Hown & Hinh & _).
  unfold get_property, mbind, M_bind, read_env, mret, M_ret.
  rewrite He. rewrite bool_decide_eq_false_2 by done.
  unfold members_of. rewrite lookup_union, lookup_fmap, lookup_fmap.
  destruct (p !! n); simpl; [by destruct (m !! n)|].
  destruct (m !! n); simpl; [done|]. by rewrite Hinh.
Qed.

Lemma names_ok_reserved m p n :
  names_ok m p -> reserved n = true -> members_of m p !! n = None.
Proof.
  intros [H1 H2] Hn. apply lookup_members_of_None.
  split.
  - destruct (m !! n) as [x|] eqn:E; [|done]. specialize (H1 n x E).
    simpl in H1. congruence.
  - destruct (p !! n) as [x|] eqn:E; [|done]. destruct (H2 n x E) as [H _].
    congruence.
Qed.

Lemma get_property_reserved σ e ms ps m p n :
  σ !! e = Some (CEnv ms ps (members_of m p)) -> names_ok m p ->
  reserved n = true -> get_property e n σ = (NoAnswer, σ).
Proof.
  intros He Hok Hn. unfold get_property, mbind, M_bind, read_env. rewrite He.
  case_bool_decide as Hown; [done|].
  rewrite (names_ok_reserved _ _ _ Hok Hn).
  unfold reserved in Hn. rewrite bool_decide_eq_false_2 in Hn by done.
  simpl in Hn. by rewrite Hn.
Qed.

Lemma names_ok_no_proto m p :
  names_ok m p -> m !! "__proto__" = None /\ p !! "__proto__" = None.
Proof.
  intros [H1 H2]. split; [by apply no_proto_key|].
  apply no_proto_key. intros i x Hi. by destruct (H2 i x Hi).
Qed.

Lemma members_of_method_inv m p n s :
  members_of m p !! n = Some (MMethod s) -> m !! n = Some s.
Proof.
  unfold members_of. intros [H|[_ H]]%lookup_union_Some_raw.
  - rewrite lookup_fmap in H. destruct (p !! n); simplify_eq/=.
  - rewrite lookup_fmap in H. destruct (m !! n); by simplify_eq/=.
Qed.

Lemma registrations_of_inv σ e ms ps m p n b :
  σ !! e = Some (CEnv ms ps (members_of m p)) ->
  registrations_of σ e n = Some b ->
  exists s, m !! n = Some s /\ arr_at σ s = Some b.
Proof.
  intros He. unfold registrations_of. rewrite He.
  case_bool_decide; [done|].
  destruct (members_of m p !! n) as [[s|]|] eqn:E; try done.
  intros Hb. exists s. split; [|done]. by apply (members_of_method_inv m p).
Qed.

Lemma envConcat_spec (σ : heap) e ms ps m p xm xp xs xpo :
  σ !! e = Some (CEnv ms ps (members_of m p)) ->
  σ !! ms = Some (CObj m) -> σ !! ps = Some (CObj p) -> arrays_ok σ m ->
  σ !! xm = Some (CObj xs) -> σ !! xp = Some (CObj xpo) -> arrays_ok σ xs ->
  names_ok (xs ∪ m) (xpo ∪ p) ->
  exists nm arrs,
    envConcat e xm xp σ
    = (Ok (List.length σ + 3 + List.length arrs),
       σ ++ CObj (nm ∪ xs) :: CObj ∅ :: arrs ++
         [CObj (xpo ∪ p);
          CEnv (List.length σ) (List.length σ + 2 + List.length arrs)
               (members_of (nm ∪ xs) (xpo ∪ p))]) /\
    names_ok (nm ∪ xs) (xpo ∪ p) /\
    (forall i, m !! i = None -> nm !! i = None) /\
    (forall i s, m !! i = Some s ->
       exists j, nm !! i = Some (SArr (List.length σ + 2 + j)) /\
                 arrs !! j = Some (CArr (merged σ xs i s))).
Proof.
  intros He Hm Hp Ham Hxm Hxp Haxs Hnames.
  destruct (concat_loop σ xs (map_to_list m) ∅ []) as (nm & arrs & Hrun & Hother & Hin).
  { apply NoDup_fst_map_to_list. }
  { apply Forall_forall. intros [k v] Hkv%elem_of_map_to_list. simpl.
    assert (is_Some ((xs ∪ m) !! k)) as [y Hy]
      by (apply lookup_union_is_Some; right; by eexists).
    by apply (proj1 Hnames k y). }
  { apply Forall_forall. intros [k v] Hkv%elem_of_map_to_list. by apply (Ham k v). }
  { done. }
  assert (Forall (fun kv : string * slot => inherited kv.1 = false) (map_to_list xs))
    as Hxsi.
  { apply Forall_forall. intros [k v] Hkv%elem_of_map_to_list. simpl.
    apply (reserved_false k), (proj1 Hnames k v). by apply lookup_union_Some_l. }
  destruct (names_ok_no_proto _ _ Hnames) as [_ [Hxpo_proto Hp_proto]%lookup_union_None].
  assert (forall i, m !! i = None -> nm !! i = None) as Hnone.
  { intros i Hi. rewrite Hother; [done|].
    intros ([k v] & -> & Hkv%elem_of_map_to_list)%list_elem_of_fmap.
    simpl in Hi. congruence. }
  assert (forall i s, m !! i = Some s ->
            exists j, nm !! i = Some (SArr (List.length σ + 2 + j)) /\
                      arrs !! j = Some (CArr (merged σ xs i s))) as Hsome.
  { intros i s Hi. by apply Hin, elem_of_map_to_list. }
  assert (names_ok (nm ∪ xs) (xpo ∪ p)) as Hnames'.
  { destruct Hnames as [H1 H2]. split.
    - intros i x Hi. destruct (m !! i) as [s|] eqn:Em.
      + assert (is_Some ((xs ∪ m) !! i)) as [y Hy]
          by (apply lookup_union_is_Some; right; by eexists).
        by apply (H1 i y).
      + rewrite lookup_union_r in Hi by (by apply Hnone).
        apply (H1 i x). by apply lookup_union_Some_l.
    - intros i x Hi. destruct (H2 i x Hi) as [Hown Hno]. split; [done|].
      apply lookup_union_None in Hno as [Hxs Hmi].
      apply lookup_union_None. split; [by apply Hnone|done]. }
  exists nm, arrs. split; [|done].
  unfold envConcat.
  unfold mbind at 1, M_bind at 1, read_env. rewrite He.
  unfold mbind at 1, M_bind at 1, alloc.
  unfold mbind at 1, M_bind at 1.
  unfold mbind at 1, M_bind at 1, read_obj.
  rewrite <- !app_assoc. cbn [app].
  rewrite (lookup_app_l_Some _ _ _ _ Hm).
  unfold mbind at 1, M_bind at 1.
  rewrite (lookup_app_l_Some _ _ _ _ Hxm).
  unfold mbind at 1, M_bind at 1, for_in.
  rewrite Hrun. cbn [app].
  unfold mbind at 1, M_bind at 1.
  rewrite missing_loop.
  rewrite fill_union, list_to_map_to_list by (done || apply NoDup_fst_map_to_list).
  unfold mbind at 1, M_bind at 1.
  rewrite (extend_spec _ ps xp p xpo) by (done || by apply lookup_app_l_Some).
  rewrite (environment_spec _ _ _ (nm ∪ xs) (xpo ∪ p)); first last.
  { done. }
  { apply (lookup_fresh _ []). }
  { rewrite <- app_assoc. apply lookup_fresh. }
  rewrite !length_app. cbn [List.length].
  rewrite <- !app_assoc. cbn [app]. rewrite <- ?app_assoc. cbn [app].
  replace (List.length σ + S (S (List.length arrs)) + 1)
    with (List.length σ + 3 + List.length arrs) by lia.
  by replace (List.length σ + S (S (List.length arrs)))
    with (List.length σ + 2 + List.length arrs) by lia.
Qed.

(** C3 (amended): when the merged names do not clash (no property is named
    like a multimethod, and no name is that of an own closure or of a member
    inherited from [Object.prototype]), [envConcat] returns
    an environment in which a multimethod defined by both sides has the
    base's registrations followed by the extra's (so a registration of the
    base that accepts the arguments wins over every registration of the
    extra), a property defined by the extra side has the extra's value and
    any other property keeps the base's; and [this.envAppend(e)] is
    [e.envConcat] applied to the receiver's tables. *)
Theorem envConcat_merges σ e xm xp xs xpo :
  env_ok σ e ->
  σ !! xm = Some (CObj xs) -> σ !! xp = Some (CObj xpo) -> arrays_ok σ xs ->
  merge_ok σ e xs xpo ->
  exists e' τ,
    envConcat e xm xp σ = (Ok e', σ ++ τ) /\
    (forall n b x ex,
       registrations_of σ e n = Some b -> xs !! n = Some x ->
       arr_at σ x = Some ex ->
       registrations_of (σ ++ τ) e' n = Some (b ++ ex) /\
       forall args pre r post,
         b = pre ++ Some r :: post -> Forall (rejects args) pre ->
         accepts args r ->
         call_method e' n args (σ ++ τ) = (call (f r) (VRef e') args, σ ++ τ)) /\
    (forall n v, xpo !! n = Some v ->
       get_property e' n (σ ++ τ) = (Ok (Some v), σ ++ τ)) /\
    (forall n, xpo !! n = None ->
       (get_property e' n (σ ++ τ)).1 = (get_property e n σ).1) /\
    (forall this tm tp mem, σ !! this = Some (CEnv tm tp mem) ->
       envAppend this e σ = envConcat e tm tp σ).
Proof.
  intros (ms & ps & m & p & He & Hm & Hp & Hn & Ha) Hxm Hxp Haxs Hmerge.
  unfold merge_ok, tables_of, obj_at in Hmerge. rewrite He, Hm, Hp in Hmerge.
  destruct (envConcat_spec σ e ms ps m p xm xp xs xpo)
    as (nm & arrs & Hrun & Hnames & Hnone & Hsome); try done.
  set (τ := CObj (nm ∪ xs) :: CObj ∅ :: arrs ++
         [CObj (xpo ∪ p);
          CEnv (List.length σ) (List.length σ + 2 + List.length arrs)
               (members_of (nm ∪ xs) (xpo ∪ p))]) in *.
  set (e' := List.length σ + 3 + List.length arrs) in *.
  assert ((σ ++ τ) !! e'
          = Some (CEnv (List.length σ) (List.length σ + 2 + List.length arrs)
                       (members_of (nm ∪ xs) (xpo ∪ p)))) as He'.
  { unfold e'. rewrite <- Nat.add_assoc. apply lookup_fresh_n.
    change τ with ([CObj (nm ∪ xs); CObj ∅] ++ arrs ++
         [CObj (xpo ∪ p);
          CEnv (List.length σ) (List.length σ + 2 + List.length arrs)
               (members_of (nm ∪ xs) (xpo ∪ p))]).
    rewrite lookup_app_r by (simpl; lia). rewrite lookup_app_r by (simpl; lia).
    by replace (_ - _ - _) with 1 by (simpl; lia). }
  exists e', τ. split; [done|]. split; [|split; [|split]].
  - intros n b x ex Hb Hx Hex.
    destruct (registrations_of_inv _ _ _ _ _ _ _ _ He Hb) as (s & Hs & Hbs).
    destruct (Hsome n s Hs) as (j & Hj1 & Hj2).
    assert (n ∉ own_closures) as Hown
      by (unfold registrations_of in Hb; by case_bool_decide).
    assert (registrations_of (σ ++ τ) e' n = Some (b ++ ex)) as Hregs.
    { unfold registrations_of. rewrite bool_decide_eq_false_2 by done.
      rewrite He'.
      rewrite (lookup_members_of_method _ _ n (SArr (List.length σ + 2 + j)));
        [|done|by apply lookup_union_Some_l].
      unfold arr_at. rewrite <- Nat.add_assoc.
      rewrite (lookup_fresh_n σ τ (2 + j) (CArr (merged σ xs n s))).
      - unfold merged. by rewrite Hbs, Hx, Hex.
      - change τ with ([CObj (nm ∪ xs); CObj ∅] ++ arrs ++
         [CObj (xpo ∪ p);
          CEnv (List.length σ) (List.length σ + 2 + List.length arrs)
               (members_of (nm ∪ xs) (xpo ∪ p))]).
        rewrite lookup_app_r by (simpl; lia).
        replace (_ - _) with j by (simpl; lia). by apply lookup_app_l_Some. }
    split; [done|]. intros args pre r post -> Hpre Hr.
    rewrite (call_multimethod _ _ _ _ args Hregs). simpl.
    rewrite <- app_assoc. cbn [app].
    by rewrite (findRegistered_first _ _ _ _ Hpre Hr).
  - intros n v Hv.
    assert ((xpo ∪ p) !! n = Some v) as Hv' by (by apply lookup_union_Some_l).
    rewrite (get_property_spec _ _ _ _ _ _ n He'); [by rewrite Hv'|].
    by apply (proj2 Hnames n v).
  - intros n Hv. destruct (reserved n) eqn:Hres.
    + rewrite (get_property_reserved _ _ _ _ _ _ n He' Hnames Hres).
      by rewrite (get_property_reserved _ _ _ _ _ _ n He Hn Hres).
    + rewrite (get_property_spec _ _ _ _ _ _ n He') by done.
      rewrite (get_property_spec _ _ _ _ _ _ n He) by done. simpl.
      by rewrite lookup_union_r.
  - intros this tm tp mem Hthis. unfold envAppend.
    unfold mbind at 1, M_bind at 1, read_env. by rewrite Hthis.
Qed.

Lemma envConcat_merges_witness :
  exists e' τ,
    envConcat sample_env 12 13 merge_heap = (Ok e', merge_heap ++ τ) /\
    registrations_of (merge_heap ++ τ) e' "negate"
    = Some [Some (Registration isNumber negate_impl);
            Some (Registration isBoolean not_impl)] /\
    get_property e' "goal" (merge_heap ++ τ)
    = (Ok (Some (SVal (RVal (VNum 100)))), merge_heap ++ τ).
Proof.
  destruct (envConcat_merges merge_heap sample_env 12 13
              {["negate" := SArr 11]} {["goal" := SVal (RVal (VNum 100))]})
    as (e' & τ & H1 & H2 & H3 & _).
  - apply env_ok_app, sample_env_ok.
  - reflexivity.
  - reflexivity.
  - compute_done.
  - split; compute_done.
  - exists e', τ. split; [exact H1|]. split.
    + apply (H2 "negate" [Some (Registration isNumber negate_impl)] (SArr 11)
                [Some (Registration isBoolean not_impl)]); reflexivity.
    + apply H3. reflexivity.
Defined.

(** C3 (counterexample): on extra tables whose property names clash with a
    multimethod, or with a member inherited from [Object.prototype],
    [envConcat] throws and returns no environment. *)
Lemma envConcat_clash_throws :
  (envConcat sample_env 12 13 clash_heap).1
  = Throw (Error "Property negate already in environment.") /\
  (envConcat sample_env 12 13 shadow_heap).1
  = Throw (Error "Property toString already in environment.") /\
  ~ envConcat_always_returns.
Proof.
  split; [reflexivity|]. split; [reflexivity|]. intros H.
  destruct (H clash_heap sample_env 12 13
              {["negate" := SArr 11]} {["negate" := SVal (RVal (VNum 100))]})
    as (e' & σ' & Heq).
  - apply env_ok_app, sample_env_ok.
  - reflexivity.
  - reflexivity.
  - compute_done.
  - vm_compute in Heq. discriminate Heq.
Qed.

Lemma partially_lengths fn steps :
  functionLength fn = js_length fn ->
  functionLength (partially fn steps) = js_length fn - List.length (collected steps) /\
  js_length (partially fn steps) = js_length fn - List.length (collected steps).
Proof.
  revert fn. induction steps as [|[o bs] steps IH]; intros fn Hfn.
  - unfold collected. simpl. split; lia.
  - unfold partially, collected in *. cbn [foldl fmap list_fmap fst snd concat].
    rewrite length_app.
    destruct (IH (bind fn o bs)) as [H1 H2].
    { unfold bind. cbn [functionLength js_length]. rewrite Hfn.
      by destruct (js_length fn - List.length bs). }
    rewrite H1, H2. unfold bind. cbn [js_length]. split; lia.
Qed.

Lemma call_partially fn steps this args :
  call (partially fn steps) this args
  = call fn (bound_this steps this) (collected steps ++ args).
Proof.
  revert fn this. induction steps as [|[o bs] steps IH]; intros fn this; [done|].
  unfold partially, collected in *. cbn [foldl fmap list_fmap fst snd concat bound_this].
  rewrite IH. unfold bind. cbn [call]. rewrite <- app_assoc.
  by destruct steps as [|[??]?].
Qed.

Lemma call_curry_partially n body steps this args :
  call (curry (partially (Plain n None body) steps)) this args
  = if decide (n <= List.length (collected steps) + List.length args)
    then body (bound_this steps this) (collected steps ++ args)
    else Ok (RFn (curry (partially (Plain n None body) (steps ++ [(this, args)])))).
Proof.
  unfold curry. cbn [call].
  destruct (partially_lengths (Plain n None body) steps eq_refl) as [H1 H2].
  unfold bind at 1. cbn [functionLength js_length] in *. rewrite H1, H2.
  case_decide as Hn.
  - replace (n - _ - _) with 0 by lia. simpl.
    rewrite app_nil_r, call_partially. done.
  - destruct (n - List.length (collected steps) - List.length args) eqn:E; [lia|].
    simpl. unfold partially. by rewrite foldl_snoc.
Qed.

(** C4 (amended): a multimethod is not curried: it dispatches at once on
    the arguments it is given, and an implementation of [n] declared
    parameters whose predicate accepts them is invoked on exactly them,
    however few.  Partial application is what [curry] gives a function of
    [n] declared parameters: called with [n] arguments or more, [curry(f)]
    invokes [f]; called with fewer, it returns a function that awaits the
    rest, and invokes [f] on all the arguments, with the first [this], once
    [n] are there. *)
Theorem multimethod_direct_curry_partial :
  (forall σ e name p n body rest args,
      registrations_of σ e name
      = Some (Some (Registration p (Plain n None body)) :: rest) ->
      accepts args (Registration p (Plain n None body)) ->
      call_method e name args σ = (body (VRef e) args, σ)) /\
  (forall n body this args,
      (n <= List.length args ->
         call (curry (Plain n None body)) this args = body this args) /\
      (List.length args < n ->
         call (curry (Plain n None body)) this args
         = Ok (RFn (curry (bind (Plain n None body) this args))) /\
         forall this' rest,
           (n <= List.length args + List.length rest ->
              call (curry (bind (Plain n None body) this args)) this' rest
              = body this (args ++ rest)) /\
           (List.length args + List.length rest < n ->
              call (curry (bind (Plain n None body) this args)) this' rest
              = Ok (RFn (curry (bind (bind (Plain n None body) this args)
                                     this' rest)))))).
Proof.
  split.
  - intros σ e name p n body rest args Hregs Hacc.
    rewrite (call_multimethod _ _ _ _ args Hregs). simpl.
    pose proof (findRegistered_first [] _ rest args (Forall_nil_2 _) Hacc) as Hf.
    simpl in Hf. by rewrite Hf.
  - intros n body this args.
    assert (call (curry (Plain n None body)) this args
            = if decide (n <= List.length args) then body this args
              else Ok (RFn (curry (bind (Plain n None body) this args)))) as H0
      by exact (call_curry_partially n body [] this args).
    assert (forall this' rest,
              call (curry (bind (Plain n None body) this args)) this' rest
              = if decide (n <= List.length (args ++ []) + List.length rest)
                then body this ((args ++ []) ++ rest)
                else Ok (RFn (curry (bind (bind (Plain n None body) this args)
                                          this' rest)))) as H1
      by exact (fun this' rest =>
                  call_curry_partially n body [(this, args)] this' rest).
    rewrite app_nil_r in H1. split; [|split].
    + intros Hn. rewrite H0. by rewrite decide_True by done.
    + rewrite H0. by rewrite decide_False by lia.
    + intros this' rest. rewrite H1. split; intros Hn.
      * by rewrite decide_True by done.
      * by rewrite decide_False by lia.
Qed.

Lemma multimethod_direct_curry_partial_witness :
  call_method pair_env "pair" [VNum 5] pair_heap
  = (Ok (RVal (VArr [VNum 5; VUndef])), pair_heap) /\
  call (curry pair_impl) VUndef [VNum 5; VNum 6]
  = Ok (RVal (VArr [VNum 5; VNum 6])) /\
  call (curry (bind pair_impl VUndef [VNum 5])) VUndef [VNum 6]
  = Ok (RVal (VArr [VNum 5; VNum 6])).
Proof.
  destruct multimethod_direct_curry_partial as [H1 H2].
  split; [|split].
  - apply (H1 pair_heap pair_env "pair" isNumber 2
                (fun _ args => Ok (RVal (VArr [arg 0 args; arg 1 args])))
                [] [VNum 5]); reflexivity.
  - apply (H2 2 (fun _ args => Ok (RVal (VArr [arg 0 args; arg 1 args])))
                VUndef [VNum 5; VNum 6]). simpl. lia.
  - destruct (H2 2 (fun _ args => Ok (RVal (VArr [arg 0 args; arg 1 args])))
                 VUndef [VNum 5]) as [_ H3].
    destruct H3 as [_ H3]; [simpl; lia|].
    apply (H3 VUndef [VNum 6]). simpl. lia.
Defined.

(** C4 (counterexample): [pair] has one implementation, of two declared
    parameters; called with one argument it does not return a function
    awaiting the second, it invokes the implementation at once. *)
Lemma multimethod_not_curried :
  registrations_of pair_heap pair_env "pair"
  = Some [Some (Registration isNumber pair_impl)] /\
  functionLength pair_impl = 2 /\
  (call_method pair_env "pair" [VNum 5] pair_heap).1
  = Ok (RVal (VArr [VNum 5; VUndef])) /\
  ~ multimethods_curried.
Proof.
  split; [reflexivity|]. split; [reflexivity|]. split; [reflexivity|].
  intros H.
  destruct (H pair_heap pair_env "pair" (Registration isNumber pair_impl) []
              [VNum 5] eq_refl) as [g Hg].
  - simpl. lia.
  - vm_compute in Hg. discriminate Hg.
Qed.

(** *** Further facts about the environments *)

Lemma findRegistered_hole pre post args :
  Forall (rejects args) pre ->
  findRegistered (pre ++ None :: post) args
  = Throw (TypeError "Cannot read property 'predicate' of undefined").
Proof.
  induction 1 as [|q pre (r' & -> & Hq) _ IH]; simpl; [done|].
  apply matches_inv in Hq as (t & -> & Ht). simpl. by rewrite Ht.
Qed.

Lemma multimethod_names σ e ms ps m p n b :
  σ !! e = Some (CEnv ms ps (members_of m p)) -> names_ok m p ->
  registrations_of σ e n = Some b ->
  reserved n = false /\ p !! n = None /\ exists s, m !! n = Some s /\ arr_at σ s = Some b.
Proof.
  intros He [H1 H2] Hb.
  destruct (registrations_of_inv _ _ _ _ _ _ _ _ He Hb) as (s & Hs & Hbs).
  split; [by apply (H1 n s)|]. split; [|by exists s].
  destruct (p !! n) as [x|] eqn:E; [|done].
  destruct (H2 n x E) as [_ Hno]. congruence.
Qed.

(** X1: [e.method(n, p, f)] for a name [n] that already is a multimethod
    of [e] appends the registration [(p, f)] to those of [n]: in the new
    environment a registration that [e] had still wins where it accepts the
    arguments, and [f] is invoked when all of them reject the arguments and
    [p] accepts them; the other multimethods are shared, and [e] keeps the
    registrations it had. *)
Theorem method_appends_registration σ e n old p fn :
  env_ok σ e -> registrations_of σ e n = Some old ->
  exists e' τ,
    method e n p fn σ = (Ok e', σ ++ τ) /\
    env_ok (σ ++ τ) e' /\
    registrations_of (σ ++ τ) e' n = Some (old ++ [Some (Registration p fn)]) /\
    (forall args pre r post,
       old = pre ++ Some r :: post -> Forall (rejects args) pre -> accepts args r ->
       call_method e' n args (σ ++ τ) = (call (f r) (VRef e') args, σ ++ τ)) /\
    (forall args,
       Forall (rejects args) old -> accepts args (Registration p fn) ->
       call_method e' n args (σ ++ τ) = (call fn (VRef e') args, σ ++ τ)) /\
    (forall m, m <> n ->
       registrations_of (σ ++ τ) e' m = registrations_of σ e m) /\
    registrations_of (σ ++ τ) e n = Some old.
Proof.
  intros Hok Hold. pose proof Hok as (ms & ps & m & p0 & He & Hm & Hp & Hn & Ha).
  destruct (multimethod_names _ _ _ _ _ _ _ _ He Hn Hold)
    as (Hres & Hpn & s & Hs & Hbs).
  destruct (reserved_false _ Hres) as (Hown & _ & _).
  set (a := List.length σ).
  set (m' := <[n := SArr a]> m).
  set (τ := [CArr (old ++ [Some (Registration p fn)]); CObj {[n := SArr a]}; CObj m';
             CEnv (a + 2) ps (members_of m' p0)]).
  assert (names_ok m' p0) as Hn' by (by apply names_ok_insert).
  assert (method e n p fn σ = (Ok (a + 3), σ ++ τ)) as Hmethod.
  { apply (method_spec σ e ms ps _ m p0 n old p fn He Hm Hp); [|done].
    unfold old_registrations. by rewrite Hs. }
  assert ((σ ++ τ) !! (a + 3) = Some (CEnv (a + 2) ps (members_of m' p0))) as He'
    by (by apply lookup_fresh_n).
  assert (registrations_of (σ ++ τ) (a + 3) n
          = Some (old ++ [Some (Registration p fn)])) as Hregs.
  { unfold registrations_of. rewrite bool_decide_eq_false_2 by done.
    rewrite He'.
    rewrite (lookup_members_of_method m' p0 n (SArr a)); [|done|apply lookup_insert_eq].
    unfold arr_at, a, τ. by rewrite lookup_fresh. }
  exists (a + 3), τ. split; [done|].
  split; [|split; [done|split; [|split; [|split]]]].
  - exists (a + 2), ps, m', p0. split; [done|].
    split; [by apply lookup_fresh_n|]. split; [by apply lookup_app_l_Some|].
    split; [done|]. intros i x Hi. unfold m' in Hi.
    destruct (decide (n = i)) as [<-|Hne].
    + rewrite lookup_insert_eq in Hi. simplify_eq. unfold arr_at, a, τ.
      rewrite lookup_fresh. by eexists.
    + rewrite lookup_insert_ne in Hi by done.
      by apply (arrays_ok_app σ τ m Ha i).
  - intros args pre r post -> Hpre Hr.
    rewrite (call_multimethod _ _ _ _ args Hregs). simpl.
    rewrite <- app_assoc. cbn [app].
    by rewrite (findRegistered_first _ _ _ _ Hpre Hr).
  - intros args Hrej Hacc.
    rewrite (call_multimethod _ _ _ _ args Hregs). simpl.
    by rewrite (findRegistered_first _ _ [] _ Hrej Hacc).
  - intros k Hk. unfold registrations_of. rewrite He', He.
    case_bool_decide; [done|].
    unfold members_of, m'. rewrite !lookup_union, !lookup_fmap.
    rewrite lookup_insert_ne by done.
    destruct (p0 !! k) as [x|] eqn:Ep; simpl.
    { by destruct (m !! k). }
    destruct (m !! k) as [x|] eqn:Em; simpl; [|done].
    destruct (Ha k x Em) as [rs Hrs]. rewrite Hrs. by apply arr_at_app.
  - unfold registrations_of in *. rewrite (lookup_app_l_Some _ _ _ _ He).
    rewrite He in Hold. case_bool_decide; [done|].
    destruct (members_of m p0 !! n) as [[x|]|]; try done.
    by apply arr_at_app.
Qed.

Lemma method_appends_registration_witness :
  exists e' τ,
    method sample_env "negate" isBoolean not_impl sample_heap
    = (Ok e', sample_heap ++ τ) /\
    call_method e' "negate" [VNum 5] (sample_heap ++ τ)
    = (Ok (RVal (VNum (-5))), sample_heap ++ τ) /\
    call_method e' "negate" [VBool true] (sample_heap ++ τ)
    = (Ok (RVal (VBool false)), sample_heap ++ τ).
Proof.
  destruct (method_appends_registration sample_heap sample_env "negate"
              [Some (Registration isNumber negate_impl)] isBoolean not_impl)
    as (e' & τ & H1 & _ & _ & H2 & H3 & _).
  - exact sample_env_ok.
  - reflexivity.
  - exists e', τ. split; [exact H1|]. split.
    + rewrite (H2 [VNum 5] [] (Registration isNumber negate_impl) []);
        [reflexivity|reflexivity|constructor|reflexivity].
    + rewrite (H3 [VBool true]); [reflexivity| |reflexivity].
      constructor; [|constructor].
      exists (Registration isNumber negate_impl). split; reflexivity.
Defined.

Lemma get_property_Some_inv σ e ms ps m p n old :
  σ !! e = Some (CEnv ms ps (members_of m p)) -> names_ok m p ->
  (get_property e n σ).1 = Ok (Some old) ->
  reserved n = false /\ p !! n = Some old /\ m !! n = None.
Proof.
  intros He Hok Hget. destruct (reserved n) eqn:Hres.
  { by rewrite (get_property_reserved _ _ _ _ _ _ n He Hok Hres) in Hget. }
  rewrite (get_property_spec _ _ _ _ _ _ n He Hres) in Hget. simpl in Hget.
  assert (p !! n = Some old) as Hpn by congruence.
  split; [done|]. split; [done|]. by destruct (proj2 Hok n old Hpn).
Qed.

Lemma property_spec (σ : heap) e ms ps mem m p name v :
  σ !! e = Some (CEnv ms ps mem) ->
  σ !! ms = Some (CObj m) -> σ !! ps = Some (CObj p) ->
  names_ok m (<[name := v]> p) ->
  property e name v σ
  = (Ok (List.length σ + 2),
     σ ++ [CObj {[name := v]};
           CObj (<[name := v]> p);
           CEnv ms (List.length σ + 1) (members_of m (<[name := v]> p))]).
Proof.
  intros He Hm Hp Hok.
  destruct (names_ok_no_proto _ _ Hok) as [_ Hproto].
  assert (name <> "__proto__") as Hname
    by (intros ->; by rewrite lookup_insert_eq in Hproto).
  rewrite lookup_insert_ne in Hproto by done.
  unfold property.
  unfold mbind at 1, M_bind at 1, read_env. rewrite He.
  unfold mbind at 1, M_bind at 1. rewrite singleton_spec by done.
  unfold mbind at 1, M_bind at 1.
  rewrite (extend_spec _ ps _ p {[name := v]}); first last.
  { by rewrite lookup_singleton_ne. }
  { done. }
  { apply (lookup_fresh _ []). }
  { by apply lookup_app_l_Some. }
  rewrite <- insert_union_singleton_l.
  rewrite (environment_spec _ _ _ m (<[name := v]> p)); first last.
  { done. }
  { apply (lookup_fresh _ []). }
  { rewrite <- !app_assoc. by apply lookup_app_l_Some. }
  rewrite !length_app. simpl. rewrite <- !app_assoc. simpl.
  replace (List.length σ + 1 + 1) with (List.length σ + 2) by lia.
  done.
Qed.

(** X2: [e.property(n, v)] for a name [n] that already is a property of
    [e] returns a new environment that reads [v] at [n]; every other
    property and every multimethod is as in [e], and [e] itself still reads
    the value it had. *)
Theorem property_replaces_value σ e n old v :
  env_ok σ e -> (get_property e n σ).1 = Ok (Some old) ->
  exists e' τ,
    property e n v σ = (Ok e', σ ++ τ) /\
    env_ok (σ ++ τ) e' /\
    get_property e' n (σ ++ τ) = (Ok (Some v), σ ++ τ) /\
    (forall k, k <> n ->
       (get_property e' k (σ ++ τ)).1 = (get_property e k σ).1) /\
    (forall k, registrations_of (σ ++ τ) e' k = registrations_of σ e k) /\
    get_property e n (σ ++ τ) = (Ok (Some old), σ ++ τ).
Proof.
  intros Hok Hget. pose proof Hok as (ms & ps & m & p & He & Hm & Hp & Hn & Ha).
  destruct (get_property_Some_inv _ _ _ _ _ _ _ _ He Hn Hget) as (Hown & Hpn & Hmn).
  set (p' := <[n := v]> p).
  assert (names_ok m p') as Hn'.
  { destruct Hn as [H1 H2]. split; [done|]. intros i x Hi. unfold p' in Hi.
    destruct (decide (n = i)) as [<-|Hne]; [done|].
    rewrite lookup_insert_ne in Hi by done. by apply (H2 i x). }
  set (a := List.length σ).
  set (τ := [CObj {[n := v]}; CObj p'; CEnv ms (a + 1) (members_of m p')]).
  assert (property e n v σ = (Ok (a + 2), σ ++ τ)) as Hrun
    by (by apply (property_spec σ e ms ps _ m p n v He Hm Hp)).
  assert ((σ ++ τ) !! (a + 2) = Some (CEnv ms (a + 1) (members_of m p'))) as He'
    by (by apply lookup_fresh_n).
  exists (a + 2), τ. split; [done|]. split; [|split; [|split; [|split]]].
  - exists ms, (a + 1), m, p'. split; [done|].
    split; [by apply lookup_app_l_Some|]. split; [by apply lookup_fresh_n|].
    split; [done|]. by apply arrays_ok_app.
  - rewrite (get_property_spec _ _ _ _ _ _ n He' Hown). unfold p'.
    by rewrite lookup_insert_eq.
  - intros k Hk. destruct (reserved k) eqn:Hnin.
    + rewrite (get_property_reserved _ _ _ _ _ _ k He' Hn' Hnin).
      by rewrite (get_property_reserved _ _ _ _ _ _ k He Hn Hnin).
    + rewrite (get_property_spec _ _ _ _ _ _ k He' Hnin).
      rewrite (get_property_spec _ _ _ _ _ _ k He Hnin). simpl. unfold p'.
      by rewrite lookup_insert_ne.
  - intros k. unfold registrations_of. rewrite He', He.
    case_bool_decide; [done|].
    unfold members_of, p'. rewrite !lookup_union, !lookup_fmap.
    destruct (decide (n = k)) as [<-|Hne].
    + rewrite lookup_insert_eq, Hpn, Hmn. done.
    + rewrite lookup_insert_ne by done.
      destruct (p !! k) as [x|] eqn:Ep; simpl.
      { by destruct (m !! k). }
      destruct (m !! k) as [x|] eqn:Em; simpl; [|done].
      destruct (Ha k x Em) as [rs Hrs]. rewrite Hrs. by apply arr_at_app.
  - rewrite get_property_frame by done.
    rewrite (get_property_spec _ _ _ _ _ _ n He Hown). simpl. by rewrite Hpn.
Qed.

Lemma goal_env_ok : env_ok goal_heap goal_env.
Proof.
  exists 9, 12, {["negate" := SArr 3; "size" := SArr 7]},
    {["goal" := SVal (RVal (VNum 100))]}.
  split; [reflexivity|]. split; [reflexivity|]. split; [reflexivity|].
  split; [split|]; compute_done.
Qed.

Lemma property_replaces_value_witness :
  exists e' τ,
    property goal_env "goal" (SVal (RVal (VNum 1000))) goal_heap
    = (Ok e', goal_heap ++ τ) /\
    get_property e' "goal" (goal_heap ++ τ)
    = (Ok (Some (SVal (RVal (VNum 1000)))), goal_heap ++ τ) /\
    get_property goal_env "goal" (goal_heap ++ τ)
    = (Ok (Some (SVal (RVal (VNum 100)))), goal_heap ++ τ).
Proof.
  destruct (property_replaces_value goal_heap goal_env "goal"
              (SVal (RVal (VNum 100))) (SVal (RVal (VNum 1000))))
    as (e' & τ & H1 & _ & H2 & _ & _ & H3).
  - exact goal_env_ok.
  - reflexivity.
  - exists e', τ. split; [exact H1|]. split; [exact H2|exact H3].
Defined.

Lemma this_truthy_insert_ne (mem : gmap string member) i k x :
  i <> k -> this_truthy (<[k := x]> mem) i = this_truthy mem i.
Proof. intros Hne. unfold this_truthy. by rewrite lookup_insert_ne. Qed.

(** The loop of the constructor throws at a key that [this] already has,
    when the keys it meets before are new. *)
Lemma members_loop_throws (σ τ : heap) kind wrap ms ps kvs n : forall mem,
  NoDup kvs.*1 -> n ∈ kvs.*1 -> this_truthy mem n = true ->
  (forall k, k ∈ (kvs.*1) -> k <> n -> (reserved k = false) /\ (mem !! k = None)) ->
  (for_each (fun kv => add_member (List.length σ) kind wrap kv.1 kv.2) kvs
     (σ ++ CEnv ms ps mem :: τ)).1
  = Throw (Error (kind +:+ " " +:+ n +:+ " already in environment.")).
Proof.
  induction kvs as [|[k v] kvs IH]; intros mem Hnd Hin Hn Hk.
  { by apply elem_of_nil in Hin. }
  inversion_clear Hnd as [|? ? Hnk Hnd'].
  cbn [for_each]. unfold mbind at 1, M_bind at 1. cbn [fst snd].
  destruct (decide (k = n)) as [->|Hne].
  - unfold add_member, mbind, M_bind, read_env. rewrite lookup_fresh.
    by rewrite Hn.
  - destruct (Hk k) as [Hown Hnone]; [apply list_elem_of_here|done|].
    rewrite add_member_fresh by done.
    apply IH; [done| | |].
    + rewrite fmap_cons in Hin. apply elem_of_cons in Hin as [?|?]; [|done].
      simpl in *. congruence.
    + rewrite this_truthy_insert_ne by done. done.
    + intros k' Hk' Hne'. destruct (Hk k') as [? ?];
        [by apply list_elem_of_further|done|].
      split; [done|]. rewrite lookup_insert_ne; [done|]. intros ->. done.
Qed.

Lemma environment_method_clash (σ : heap) ms ps m n :
  σ !! ms = Some (CObj m) -> is_Some (m !! n) -> n ∈ own_closures ->
  (forall k, is_Some (m !! k) -> k <> n -> reserved k = false) ->
  (environment (Some ms) (Some ps) σ).1
  = Throw (Error ("Method " +:+ n +:+ " already in environment.")).
Proof.
  intros Hm [s Hs] Hown Hother.
  unfold environment, arg_or_empty, alloc, read_obj, for_in.
  unfold mbind at 1, M_bind at 1, mret, M_ret.
  unfold mbind at 1, M_bind at 1.
  unfold mbind at 1, M_bind at 1.
  unfold mbind at 1, M_bind at 1.
  rewrite (lookup_app_l_Some _ _ _ _ Hm).
  unfold mbind at 1, M_bind at 1.
  pose proof (members_loop_throws σ [] "Method" MMethod ms ps (map_to_list m) n ∅)
    as Hthrow.
  destruct (for_each _ (map_to_list m) (σ ++ [CEnv ms ps ∅])) as [r σ'] eqn:E.
  simpl in Hthrow. rewrite Hthrow; [done|..].
  - apply NoDup_fst_map_to_list.
  - apply list_elem_of_fmap. exists (n, s). split; [done|].
    by apply elem_of_map_to_list.
  - unfold this_truthy. rewrite lookup_empty. by apply own_closure_reserved.
  - intros k ([k' v] & -> & Hkv%elem_of_map_to_list)%list_elem_of_fmap Hne.
    split; [|apply lookup_empty]. apply Hother; [by eexists|done].
Qed.

Lemma environment_property_clash (σ : heap) ms ps m p n :
  σ !! ms = Some (CObj m) -> σ !! ps = Some (CObj p) ->
  map_Forall (fun i _ => reserved i = false) m ->
  is_Some (p !! n) -> n ∈ own_closures \/ is_Some (m !! n) ->
  (forall k, is_Some (p !! k) -> k <> n -> (reserved k = false) /\ (m !! k = None)) ->
  (environment (Some ms) (Some ps) σ).1
  = Throw (Error ("Property " +:+ n +:+ " already in environment.")).
Proof.
  intros Hm Hp Hnames [s Hs] Hclash Hother.
  unfold environment, arg_or_empty, alloc, read_obj, for_in.
  unfold mbind at 1, M_bind at 1, mret, M_ret.
  unfold mbind at 1, M_bind at 1.
  unfold mbind at 1, M_bind at 1.
  unfold mbind at 1, M_bind at 1.
  rewrite (lookup_app_l_Some _ _ _ _ Hm).
  unfold mbind at 1, M_bind at 1.
  rewrite (members_loop σ [] "Method" MMethod ms ps (map_to_list m) ∅); first last.
  { intros k ([k' v] & -> & Hkv%elem_of_map_to_list)%list_elem_of_fmap.
    split; [by apply (Hnames k' v)|apply lookup_empty]. }
  { apply NoDup_fst_map_to_list. }
  unfold mbind at 1, M_bind at 1.
  rewrite (lookup_app_l_Some _ _ _ _ Hp).
  unfold mbind at 1, M_bind at 1.
  rewrite wrap_all, (right_id_L ∅ (∪)).
  pose proof (members_loop_throws σ [] "Property" MProp ms ps (map_to_list p) n
                (MMethod <$> m)) as Hthrow.
  destruct (for_each _ (map_to_list p) (σ ++ [CEnv ms ps (MMethod <$> m)]))
    as [r σ'] eqn:E.
  simpl in Hthrow. rewrite Hthrow; [done|..].
  - apply NoDup_fst_map_to_list.
  - apply list_elem_of_fmap. exists (n, s). split; [done|].
    by apply elem_of_map_to_list.
  - unfold this_truthy. rewrite lookup_fmap.
    destruct Hclash as [Hown|[x Hx]]; [|by rewrite Hx].
    destruct (m !! n); [done|]. by apply own_closure_reserved.
  - intros k ([k' v] & -> & Hkv%elem_of_map_to_list)%list_elem_of_fmap Hne.
    destruct (Hother k') as [? Hno]; [by eexists|done|].
    split; [done|]. cbn [fst]. by rewrite lookup_fmap, Hno.
Qed.

(** X3: a name is a multimethod, a property or an own closure of an
    environment, never two of them.  [e.method(n, p, f)] throws
    ["Property n already in environment."] when [n] is a property of [e],
    and ["Method n already in environment."] when [n] is one of [method],
    [property], [envConcat], [envAppend]; [e.property(n, v)] throws
    ["Property n already in environment."] when [n] is a multimethod of [e]
    or one of these four. *)
Theorem member_name_clash_throws σ e n :
  env_ok σ e ->
  (forall old p fn,
     (get_property e n σ).1 = Ok (Some old) ->
     (method e n p fn σ).1
     = Throw (Error ("Property " +:+ n +:+ " already in environment."))) /\
  (forall p fn,
     n ∈ own_closures ->
     (method e n p fn σ).1
     = Throw (Error ("Method " +:+ n +:+ " already in environment."))) /\
  (forall v,
     is_Some (registrations_of σ e n) \/ n ∈ own_closures ->
     (property e n v σ).1
     = Throw (Error ("Property " +:+ n +:+ " already in environment."))).
Proof.
  intros (ms & ps & m & p & He & Hm & Hp & Hn & Ha). split; [|split].
  - intros old pr fn Hget.
    destruct (get_property_Some_inv _ _ _ _ _ _ _ _ He Hn Hget) as (Hres & Hpn & Hmn).
    destruct (reserved_false _ Hres) as (Hown & Hinh & Hproto).
    unfold method.
    unfold mbind at 1, M_bind at 1, read_env. rewrite He.
    unfold mbind at 1, M_bind at 1, read_obj. rewrite Hm.
    unfold mbind at 1, M_bind at 1. rewrite Hmn, Hinh. unfold mret at 1, M_ret at 1.
    unfold mbind at 1, M_bind at 1, alloc.
    unfold mbind at 1, M_bind at 1. rewrite singleton_spec by done.
    unfold mbind at 1, M_bind at 1.
    rewrite (extend_spec _ ms _ m {[n := SArr (List.length σ)]}); first last.
    { by rewrite lookup_singleton_ne. }
    { apply (names_ok_no_proto _ _ Hn). }
    { apply (lookup_fresh _ []). }
    { rewrite <- !app_assoc. by apply lookup_app_l_Some. }
    rewrite <- insert_union_singleton_l.
    apply (environment_property_clash _ _ _ (<[n := SArr (List.length σ)]> m) p n).
    + apply (lookup_fresh _ []).
    + rewrite <- !app_assoc. by apply lookup_app_l_Some.
    + intros i x Hi. destruct (decide (n = i)) as [<-|Hne]; [done|].
      rewrite lookup_insert_ne in Hi by done. by apply (proj1 Hn i x).
    + by eexists.
    + right. rewrite lookup_insert_eq. by eexists.
    + intros k [x Hx] Hne. destruct (proj2 Hn k x Hx) as [? ?].
      split; [done|]. by rewrite lookup_insert_ne.
  - intros pr fn Hown.
    pose proof (own_closure_reserved _ Hown) as Hres.
    pose proof (own_closure_not_inherited _ Hown) as Hinh.
    assert (n <> "__proto__") as Hproto by (intros ->; done).
    assert (m !! n = None) as Hmn.
    { destruct (m !! n) as [x|] eqn:E; [|done].
      pose proof (proj1 Hn n x E) as H. simpl in H. congruence. }
    unfold method.
    unfold mbind at 1, M_bind at 1, read_env. rewrite He.
    unfold mbind at 1, M_bind at 1, read_obj. rewrite Hm.
    unfold mbind at 1, M_bind at 1. rewrite Hmn, Hinh. unfold mret at 1, M_ret at 1.
    unfold mbind at 1, M_bind at 1, alloc.
    unfold mbind at 1, M_bind at 1. rewrite singleton_spec by done.
    unfold mbind at 1, M_bind at 1.
    rewrite (extend_spec _ ms _ m {[n := SArr (List.length σ)]}); first last.
    { by rewrite lookup_singleton_ne. }
    { apply (names_ok_no_proto _ _ Hn). }
    { apply (lookup_fresh _ []). }
    { rewrite <- !app_assoc. by apply lookup_app_l_Some. }
    rewrite <- insert_union_singleton_l.
    apply (environment_method_clash _ _ _ (<[n := SArr (List.length σ)]> m) n).
    + apply (lookup_fresh _ []).
    + rewrite lookup_insert_eq. by eexists.
    + done.
    + intros k [x Hx] Hne. rewrite lookup_insert_ne in Hx by done.
      by apply (proj1 Hn k x).
  - intros v Hclash.
    assert (p !! n = None) as Hpn.
    { destruct Hclash as [[b Hb]|Hown].
      - by destruct (multimethod_names _ _ _ _ _ _ _ _ He Hn Hb) as (_ & ? & _).
      - destruct (p !! n) as [x|] eqn:E; [|done].
        destruct (proj2 Hn n x E) as [H _].
        rewrite (own_closure_reserved _ Hown) in H. done. }
    assert (n <> "__proto__") as Hproto.
    { destruct Hclash as [[b Hb]|Hown];
        [|intros ->; by apply own_closure_not_inherited in Hown].
      destruct (multimethod_names _ _ _ _ _ _ _ _ He Hn Hb) as (Hres & _).
      by destruct (reserved_false _ Hres) as (_ & _ & ?). }
    unfold property.
    unfold mbind at 1, M_bind at 1, read_env. rewrite He.
    unfold mbind at 1, M_bind at 1. rewrite singleton_spec by done.
    unfold mbind at 1, M_bind at 1.
    rewrite (extend_spec _ ps _ p {[n := v]}); first last.
    { by rewrite lookup_singleton_ne. }
    { apply (names_ok_no_proto _ _ Hn). }
    { apply (lookup_fresh _ []). }
    { by apply lookup_app_l_Some. }
    rewrite <- insert_union_singleton_l.
    apply (environment_property_clash _ _ _ m (<[n := v]> p) n).
    + rewrite <- !app_assoc. by apply lookup_app_l_Some.
    + apply (lookup_fresh _ []).
    + apply Hn.
    + rewrite lookup_insert_eq. by eexists.
    + destruct Hclash as [[b Hb]|Hown]; [|by left]. right.
      destruct (multimethod_names _ _ _ _ _ _ _ _ He Hn Hb) as (_ & _ & s & Hs & _).
      by eexists.
    + intros k [x Hx] Hne. rewrite lookup_insert_ne in Hx by done.
      by apply (proj2 Hn k x).
Qed.

Lemma member_name_clash_throws_witness :
  (method goal_env "goal" isNumber negate_impl goal_heap).1
  = Throw (Error "Property goal already in environment.") /\
  (method goal_env "envConcat" isNumber negate_impl goal_heap).1
  = Throw (Error "Method envConcat already in environment.") /\
  (property goal_env "negate" (SVal (RVal (VNum 1))) goal_heap).1
  = Throw (Error "Property negate already in environment.").
Proof.
  destruct (member_name_clash_throws goal_heap goal_env "goal" goal_env_ok)
    as (H1 & _ & _).
  destruct (member_name_clash_throws goal_heap goal_env "envConcat" goal_env_ok)
    as (_ & H2 & _).
  destruct (member_name_clash_throws goal_heap goal_env "negate" goal_env_ok)
    as (_ & _ & H3).
  split; [|split].
  - apply (H1 (SVal (RVal (VNum 100)))). reflexivity.
  - apply H2. compute_done.
  - apply H3. left. by eexists.
Defined.

(** X4: when the merged names do not clash (with each other, with the own
    closures or with a member inherited from [Object.prototype]),
    [envConcat] gives a multimethod of the base that the extra methods
    do not define a trailing [undefined] registration
    ([methods[i].concat(extraMethods[i])] appends the missing entry): a call
    that every registration of the base rejects then throws a [TypeError]
    for reading [predicate] of [undefined], where the same call on the base
    throws the dispatch error. *)
Theorem envConcat_absent_method_gets_hole σ e xm xp xs xpo :
  env_ok σ e ->
  σ !! xm = Some (CObj xs) -> σ !! xp = Some (CObj xpo) -> arrays_ok σ xs ->
  merge_ok σ e xs xpo ->
  exists e' τ,
    envConcat e xm xp σ = (Ok e', σ ++ τ) /\
    forall n b,
      registrations_of σ e n = Some b -> xs !! n = None ->
      registrations_of (σ ++ τ) e' n = Some (b ++ [None]) /\
      forall args,
        Forall (rejects args) b ->
        (call_method e' n args (σ ++ τ)).1
        = Throw (TypeError "Cannot read property 'predicate' of undefined") /\
        (call_method e n args σ).1 = Throw not_implemented.
Proof.
  intros (ms & ps & m & p & He & Hm & Hp & Hn & Ha) Hxm Hxp Haxs Hmerge.
  unfold merge_ok, tables_of, obj_at in Hmerge. rewrite He, Hm, Hp in Hmerge.
  destruct (envConcat_spec σ e ms ps m p xm xp xs xpo)
    as (nm & arrs & Hrun & Hnames & Hnone & Hsome); try done.
  set (τ := CObj (nm ∪ xs) :: CObj ∅ :: arrs ++
         [CObj (xpo ∪ p);
          CEnv (List.length σ) (List.length σ + 2 + List.length arrs)
               (members_of (nm ∪ xs) (xpo ∪ p))]) in *.
  set (e' := List.length σ + 3 + List.length arrs) in *.
  assert ((σ ++ τ) !! e'
          = Some (CEnv (List.length σ) (List.length σ + 2 + List.length arrs)
                       (members_of (nm ∪ xs) (xpo ∪ p)))) as He'.
  { unfold e'. rewrite <- Nat.add_assoc. apply lookup_fresh_n.
    change τ with ([CObj (nm ∪ xs); CObj ∅] ++ arrs ++
         [CObj (xpo ∪ p);
          CEnv (List.length σ) (List.length σ + 2 + List.length arrs)
               (members_of (nm ∪ xs) (xpo ∪ p))]).
    rewrite lookup_app_r by (simpl; lia). rewrite lookup_app_r by (simpl; lia).
    by replace (_ - _ - _) with 1 by (simpl; lia). }
  exists e', τ. split; [done|]. intros n b Hb Hx.
  destruct (registrations_of_inv _ _ _ _ _ _ _ _ He Hb) as (s & Hs & Hbs).
  destruct (Hsome n s Hs) as (j & Hj1 & Hj2).
  assert (n ∉ own_closures) as Hown
    by (unfold registrations_of in Hb; by case_bool_decide).
  assert (registrations_of (σ ++ τ) e' n = Some (b ++ [None])) as Hregs.
  { unfold registrations_of. rewrite bool_decide_eq_false_2 by done.
    rewrite He'.
    rewrite (lookup_members_of_method _ _ n (SArr (List.length σ + 2 + j)));
      [|done|by apply lookup_union_Some_l].
    unfold arr_at. rewrite <- Nat.add_assoc.
    rewrite (lookup_fresh_n σ τ (2 + j) (CArr (merged σ xs n s))).
    - unfold merged. by rewrite Hbs, Hx.
    - change τ with ([CObj (nm ∪ xs); CObj ∅] ++ arrs ++
         [CObj (xpo ∪ p);
          CEnv (List.length σ) (List.length σ + 2 + List.length arrs)
               (members_of (nm ∪ xs) (xpo ∪ p))]).
      rewrite lookup_app_r by (simpl; lia).
      replace (_ - _) with j by (simpl; lia). by apply lookup_app_l_Some. }
  split; [done|]. intros args Hrej. split.
  - rewrite (call_multimethod _ _ _ _ args Hregs). simpl.
    by rewrite (findRegistered_hole _ [] _ Hrej).
  - rewrite (call_multimethod _ _ _ _ args Hb). simpl.
    by rewrite (findRegistered_none _ _ Hrej).
Qed.

Lemma envConcat_absent_method_gets_hole_witness :
  exists e' τ,
    envConcat sample_env 12 13 merge_heap = (Ok e', merge_heap ++ τ) /\
    (call_method e' "size" [VNum 1] (merge_heap ++ τ)).1
    = Throw (TypeError "Cannot read property 'predicate' of undefined") /\
    (call_method sample_env "size" [VNum 1] merge_heap).1
    = Throw (Error "Method not implemented for this input").
Proof.
  destruct (envConcat_absent_method_gets_hole merge_heap sample_env 12 13
              {["negate" := SArr 11]} {["goal" := SVal (RVal (VNum 100))]})
    as (e' & τ & H1 & H2).
  - apply env_ok_app, sample_env_ok.
  - reflexivity.
  - reflexivity.
  - compute_done.
  - split; compute_done.
  - exists e', τ. split; [exact H1|].
    destruct (H2 "size" [Some (Registration isArray size_impl)]) as [_ H3];
      [reflexivity|reflexivity|].
    apply (H3 [VNum 1]). constructor; [|constructor].
    exists (Registration isArray size_impl). split; reflexivity.
Defined.

Lemma findRegistered_predicate_throws pre r post args x :
  Forall (rejects args) pre -> call (predicate r) VUndef args = Throw x ->
  findRegistered (pre ++ Some r :: post) args = Throw x.
Proof.
  intros Hpre Hr. induction Hpre as [|q pre (r' & -> & Hq) _ IH]; simpl.
  - by rewrite Hr.
  - apply matches_inv in Hq as (t & -> & Ht). simpl. by rewrite Ht.
Qed.

(** X28: when the predicate of a registration throws, and the
    registrations before it have rejected the arguments, the call of the
    multimethod throws that exception: no implementation is invoked, and
    the registrations after it are not tried, whatever they accept. *)
Theorem dispatch_predicate_exception σ e m pre r post args x :
  registrations_of σ e m = Some (pre ++ Some r :: post) ->
  Forall (rejects args) pre ->
  call (predicate r) VUndef args = Throw x ->
  call_method e m args σ = (Throw x, σ).
Proof.
  intros Hregs Hpre Hr. rewrite (call_multimethod _ _ _ _ args Hregs). simpl.
  by rewrite (findRegistered_predicate_throws _ _ _ _ _ Hpre Hr).
Qed.

Lemma dispatch_predicate_exception_witness :
  call_method picky_env "size" [VNum 1] picky_heap
  = (Throw (TypeError "not a collection"), picky_heap).
Proof.
  apply (dispatch_predicate_exception picky_heap picky_env "size"
           [Some (Registration isArray size_impl)]
           (Registration throwing_predicate negate_impl) [] [VNum 1]).
  - reflexivity.
  - constructor; [|constructor].
    exists (Registration isArray size_impl). split; reflexivity.
  - reflexivity.
Defined.

End Env.

(** ** Tagged records and tagged sums *)

Module ADT.

(** [o[k] = v] on the own properties of an instance, in insertion order. *)
Fixpoint set_field (k : string) (v : value) (kvs : list (string * value))
    : list (string * value) :=
  match kvs with
  | [] => [(k, v)]
  | (k', v') :: rest =>
      if String.eqb k k' then (k, v) :: rest else (k', v') :: set_field k v rest
  end.

Fixpoint own_field (k : string) (kvs : list (string * value)) : option value :=
  match kvs with
  | [] => None
  | (k', v) :: rest => if String.eqb k k' then Some v else own_field k rest
  end.

(** [this[k]] for an instance: its own property [k].  A name that the
    instance does not own is looked up in its prototypes, which hold [cata],
    [constructor], what the library adds to them later ([map], [ap], ..) and
    the members of [Object.prototype]: such a read gets no answer here. *)
Definition get_field (this : value) (k : string) : result value :=
  match this with
  | VData _ kvs =>
      match own_field k kvs with
      | Some v => Ok v
      | None => NoAnswer
      end
  | _ => NoAnswer
  end.

(** The loop [for(i = 0; i < fields.length; i++) this[fields[i]] = arguments[i]]. *)
Fixpoint assign_fields (fields : list string) (args : list value)
    (kvs : list (string * value)) : list (string * value) :=
  match fields, args with
  | k :: fields', v :: args' => assign_fields fields' args' (set_field k v kvs)
  | _, _ => kvs
  end.

(** [tagged(name, fields)(args..)].  For a field named [__proto__] the
    assignment [this[fields[i]] = arguments[i]] replaces the prototype of the
    instance or does nothing: no answer here. *)
Definition tagged (name : string) (fields : list string) (args : list value)
    : result value :=
  if decide (List.length args = List.length fields)
  then if bool_decide ("__proto__" ∈ fields) then NoAnswer
       else Ok (VData name (assign_fields fields args []))
  else Throw (TypeError ("Expected " +:+ pretty (List.length fields) +:+
                         " arguments, got " +:+ pretty (List.length args))).

(** A loop whose body may throw. *)
Fixpoint for_each (body : string -> result unit) (keys : list string) : result unit :=
  match keys with
  | [] => Ok tt
  | k :: keys' => _ ← body k; for_each body keys'
  end.

(** [for(key in o) body], in the order of the map (the theorem below gives
    the error up to which offending key is met first). *)
Definition for_in {A : Type} (o : gmap string A) (body : string -> result unit)
    : result unit :=
  for_each body (map_to_list o).*1.

(** Whether [o[key]] is truthy, for a table [o] whose entries are functions
    or arrays: [o] has the key, or inherits it from [Object.prototype]. *)
Definition truthy_at {A : Type} (o : gmap string A) (key : string) : bool :=
  bool_decide (is_Some (o !! key)) || inherited key.

(** [makeCata(fields, field)] called on [this] with [dispatches].  The
    entries of the dispatch table are functions.  [dispatches[field]] that is
    not an own entry is undefined or, for an inherited name, a member of
    [Object.prototype], whose call gets no answer here. *)
Definition makeCata (constructors : gmap string (list string))
    (fields : list string) (field : string)
    (this : value) (dispatches : gmap string callable) : result ret :=
  _ ← for_in constructors (fun key =>
        if truthy_at dispatches key then Ok tt
        else Throw (TypeError ("Constructors define " +:+ key +:+
                               " but not supplied to cata")));
  _ ← for_in dispatches (fun key =>
        if truthy_at constructors key then Ok tt
        else Throw (TypeError ("Found extra constructor supplied to cata: " +:+ key)));
  args ← mapM (get_field this) fields;
  match dispatches !! field with
  | Some h => call h this args
  | None =>
      if inherited field then NoAnswer
      else Throw (TypeError "undefined is not a function")
  end.

(** [taggedSum(constructors)[key](args..)]: the constructor of a variant.
    A variant named [__proto__] would make [taggedSum] replace the prototype
    of its [definitions], and an inherited name that is no variant reads a
    member of [Object.prototype]: neither gets an answer here. *)
Definition construct (constructors : gmap string (list string)) (key : string)
    (args : list value) : result value :=
  if bool_decide (is_Some (constructors !! "__proto__")) then NoAnswer
  else match constructors !! key with
       | Some fields => tagged key fields args
       | None =>
           if inherited key then NoAnswer
           else Throw (TypeError (key +:+ " is not a function"))
       end.

(** [v.cata(dispatches)]: the [cata] that [taggedSum] put on the prototype
    of [v]'s constructor.  An instance with a field named [cata] has this
    field called instead, and an instance of another constructor or an
    object of the heap has a [cata] of its own or none: no answer here. *)
Definition cata (constructors : gmap string (list string)) (v : value)
    (dispatches : gmap string callable) : result ret :=
  match v with
  | VData key kvs =>
      if bool_decide (is_Some (constructors !! "__proto__")) then NoAnswer
      else match own_field "cata" kvs, constructors !! key with
           | None, Some fields => makeCata constructors fields key v dispatches
           | _, _ => NoAnswer
           end
  | VFun _ | VRef _ => NoAnswer
  | _ => Throw (TypeError "cata is not a function")
  end.





(** The sum of the source's example, and a table of handlers for it. *)
Definition List_sum : gmap string (list string) :=
  {["Cons" := ["car"; "cdr"]; "Nil" := []]}.
Definition on_cons : callable :=
  Plain 2 None (fun _ args => Ok (RVal (VArr args))).
Definition on_nil : callable :=
  Plain 0 None (fun _ _ => Ok (RVal (VNum 0))).























Example cata_missing_variant :
  cata List_sum (VData "Cons" [("car", VNum 1); ("cdr", VNum 2)])
    {["Cons" := on_cons]}
  = Throw (TypeError "Constructors define Nil but not supplied to cata").
Proof. reflexivity. Qed.

Example cata_extra_variant :
  cata List_sum (VData "Nil" [])
    {["Cons" := on_cons; "Nil" := on_nil; "Snoc" := on_cons]}
  = Throw (TypeError "Found extra constructor supplied to cata: Snoc").
Proof. reflexivity. Qed.

Example cata_exact_table :
  cata List_sum (VData "Cons" [("car", VNum 1); ("cdr", VNum 2)])
    {["Cons" := on_cons; "Nil" := on_nil]}
  = Ok (RVal (VArr [VNum 1; VNum 2])).
Proof. reflexivity. Qed.

Example tagged_arity_mismatch :
  construct List_sum "Cons" [VNum 1]
  = Throw (TypeError "Expected 2 arguments, got 1").
Proof. reflexivity. Qed.

End ADT.

(** ** The [shrink] multimethod *)

Module Shrink.

(** The implementation registered for booleans: a function of no parameter
    that returns a function; [False] is not defined. *)
Definition shrink_boolean : callable :=
  Plain 0 None (fun _ _ =>
    Ok (RFn (Plain 1 None (fun _ args =>
      if truthy (arg 0 args)
      then Throw (ReferenceError "False is not defined")
      else Ok (RVal (VArr [])))))).

(** The double nearest to the integer [z], ties going to the even
    significand: [z] itself up to magnitude [2^53]; beyond, [z] rounded to 53
    significant bits. *)
Definition to_double (z : Z) : Z :=
  let a := Z.abs z in
  if (a <=? 2 ^ 53)%Z then z
  else
    let e := (Z.log2 a - 52)%Z in
    let q := (a / 2 ^ e)%Z in
    let r := (a mod 2 ^ e)%Z in
    let q' := if (2 * r <? 2 ^ e)%Z then q
              else if (2 ^ e <? 2 * r)%Z then (q + 1)%Z
              else if Z.even q then q else (q + 1)%Z in
    (Z.sgn z * (q' * 2 ^ e))%Z.

(** The loop of the implementation for numbers:
    [while(x) { x = x / 2; x = x < 0 ? Math.ceil(x) : Math.floor(x);
                if(x) accum.push(n - x); }].
    Halving and truncating an integer are exact; the difference [n - x] is
    rounded. *)
Equations? number_loop (n x : Z) (accum : list value) : list value
    by wf (Z.abs_nat x) lt :=
  number_loop n x accum with decide (x = 0%Z) => {
    | left _ => accum
    | right _ =>
        if decide (Z.quot x 2 = 0%Z)
        then number_loop n (Z.quot x 2) accum
        else number_loop n (Z.quot x 2)
               (accum ++ [VNum (to_double (n - Z.quot x 2))]) }.
Proof.
  all: assert (Z.abs (Z.quot x 2) < Z.abs x)%Z
         by (rewrite <- (Z.quot_abs x 2) by lia; apply Z.quot_lt; lia);
       lia.
Qed.

Definition shrink_number (n : Z) : list value :=
  number_loop n n ([VNum 0] ++ if decide (n < 0)%Z then [VNum (- n)] else []).

(** The loop of the implementations for strings and for arrays:
    [while(x) { x = Math.floor(x / 2); if(x) accum.push(candidate(x)); }] *)
Equations? length_loop (candidate : nat -> value) (x : nat) (accum : list value)
    : list value by wf x lt :=
  length_loop candidate x accum with decide (x = 0) => {
    | left _ => accum
    | right _ =>
        if decide (x / 2 = 0)
        then length_loop candidate (x / 2) accum
        else length_loop candidate (x / 2) (accum ++ [candidate (x / 2)]) }.
Proof.
  all: apply Nat.div_lt; lia.
Qed.

(** [s.substring(0, s.length - x)] *)
Definition shrink_string (s : string) : list value :=
  length_loop (fun x => VStr (String.substring 0 (String.length s - x) s))
    (String.length s) [VStr ""].

(** [a.slice(a.length - x)] *)
Definition shrink_array (a : list value) : list value :=
  length_loop (fun x => VArr (drop (List.length a - x) a))
    (List.length a) [VArr []].

Definition shrink_registrations : list (option registration) :=
  [ Some (Registration isBoolean shrink_boolean);
    Some (Registration isNumber (Plain 1 None (fun _ args =>
      match arg 0 args with
      | VNum n => Ok (RVal (VArr (shrink_number n)))
      | _ => Throw (TypeError "not a number")
      end)));
    Some (Registration isString (Plain 1 None (fun _ args =>
      match arg 0 args with
      | VStr s => Ok (RVal (VArr (shrink_string s)))
      | _ => Throw (TypeError "not a string")
      end)));
    Some (Registration isArray (Plain 1 None (fun _ args =>
      match arg 0 args with
      | VArr a => Ok (RVal (VArr (shrink_array a)))
      | _ => Throw (TypeError "not an array")
      end))) ].

(** [env.shrink(v)] *)
Definition shrink (this v : value) : result ret :=
  call (makeMethod shrink_registrations) this [v].






















(** The implementation registered for booleans does not return a list: it
    returns a function, and that function throws on [true]. *)
Example shrink_boolean_returns_function :
  exists g, shrink VUndef (VBool true) = Ok (RFn g) /\
            call g VUndef [VBool true]
            = Throw (ReferenceError "False is not defined").
Proof. eexists. split; reflexivity. Qed.


End Shrink.

(** ** The [equal] multimethod *)

Module Equal.

(** [zip(a, b)]: the pairs [[a[i], b[i]]] for [i] below both lengths. *)
Fixpoint zip (a b : list value) : list value :=
  match a, b with
  | x :: a', y :: b' => VArr [x; y] :: zip a' b'
  | _, _ => []
  end.

(** [t[i]] *)
Definition index (t : value) (i : nat) : value :=
  match t with
  | VArr xs => nth i xs VUndef
  | _ => VUndef
  end.

(** What [zip] reads of an argument: its [length] and its elements.  A
    string has its characters; a boolean or a number has no [length], and
    the loop of [zip] does not run; reading [undefined.length] throws.  The
    [length] of the other objects is not part of the model. *)
Fixpoint characters (s : string) : list value :=
  match s with
  | EmptyString => []
  | String c s' => VStr (String c EmptyString) :: characters s'
  end.

Definition elements (v : value) : result (list value) :=
  match v with
  | VArr xs => Ok xs
  | VStr s => Ok (characters s)
  | VBool _ | VNum _ => Ok []
  | VUndef | VNull => Throw (TypeError "Cannot read property 'length' of undefined")
  | VData _ _ | VFun _ | VRef _ => NoAnswer
  end.

(** The implementation of [fold] registered for arrays (the first
    registration of [fold], and [zip] returns an array):
    [for(i = 0; i < a.length; i++) b = c(b, a[i]); return b]. *)
Fixpoint fold_array (a : list value) (b : ret) (c : ret -> value -> result ret)
    : result ret :=
  match a with
  | [] => Ok b
  | x :: a' => b' ← c b x; fold_array a' b' c
  end.

(** The implementation of [equal] registered for arrays, with [env.equal]
    as [self]:
    [env.fold(zip(a, b), true, function(a, t) { return a && env.equal(t[0], t[1]); })] *)
Definition equal_array (self : value -> list value -> result ret) : callable :=
  Plain 2 None (fun this args =>
    a ← elements (arg 0 args);
    b ← elements (arg 1 args);
    fold_array (zip a b) (RVal (VBool true)) (fun acc t =>
      if truthy_ret acc then self this [index t 0; index t 1] else Ok acc)).

Definition equal_registrations (self : value -> list value -> result ret)
    : list (option registration) :=
  [ Some (Registration isBoolean strictEquals);
    Some (Registration isNumber strictEquals);
    Some (Registration isString strictEquals);
    Some (Registration isArray (equal_array self)) ].

(** [env.equal(args..)].  The recursion through [env.equal] is bounded by
    [fuel], one unit for each level of nesting. *)
Fixpoint equal (fuel : nat) (this : value) (args : list value) : result ret :=
  match fuel with
  | 0 => NoAnswer
  | S fuel' => call (makeMethod (equal_registrations (equal fuel'))) this args
  end.


(** Whether two lists of numbers agree below the shorter length. *)
Fixpoint agree (a b : list Z) : bool :=
  match a, b with
  | x :: a', y :: b' => (x =? y)%Z && agree a' b'
  | _, _ => true
  end.

(** The function that [equal_array] folds with. *)
Definition compare_pair (self : value -> list value -> result ret) (this : value)
    (acc : ret) (t : value) : result ret :=
  if truthy_ret acc then self this [index t 0; index t 1] else Ok acc.

Lemma equal_on_arrays n this xs ys :
  equal (S n) this [VArr xs; VArr ys]
  = fold_array (zip xs ys) (RVal (VBool true)) (compare_pair (equal n) this).
Proof. reflexivity. Qed.

Lemma zip_take xs : forall ys,
  zip xs ys
  = zip (take (List.length xs `min` List.length ys) xs)
        (take (List.length xs `min` List.length ys) ys).
Proof.
  induction xs as [|x xs IH]; intros [|y ys]; simpl; try done.
  by rewrite <- IH.
Qed.

Lemma zip_lookup xs : forall ys t,
  t ∈ zip xs ys ->
  exists i x y, xs !! i = Some x /\ ys !! i = Some y /\ t = VArr [x; y].
Proof.
  induction xs as [|x xs IH]; intros [|y ys] t Hin; simpl in Hin;
    try by apply elem_of_nil in Hin.
  apply elem_of_cons in Hin as [->|Hin].
  - by exists 0, x, y.
  - destruct (IH ys t Hin) as (i & x' & y' & ? & ? & ?).
    by exists (S i), x', y'.
Qed.

Lemma fold_array_true l c :
  (forall t, t ∈ l -> c (RVal (VBool true)) t = Ok (RVal (VBool true))) ->
  fold_array l (RVal (VBool true)) c = Ok (RVal (VBool true)).
Proof.
  induction l as [|t l IH]; intros H; [done|]. simpl.
  rewrite H by apply list_elem_of_here. simpl.
  apply IH. intros t' Ht'. by apply H, list_elem_of_further.
Qed.

(** A result that is an answer: a value or an exception. *)
Definition answered {A : Type} (r : result A) : Prop := r <> NoAnswer.

Lemma fold_array_mono l c c' : forall b r,
  (forall acc t r', c acc t = r' -> answered r' -> c' acc t = r') ->
  fold_array l b c = r -> answered r -> fold_array l b c' = r.
Proof.
  induction l as [|t l IH]; intros b r Hc Hr Hans; [done|]. simpl in *.
  destruct (c b t) as [b'| |] eqn:E.
  - rewrite (Hc b t (Ok b')) by done. simpl in *. by apply IH.
  - rewrite (Hc b t (Throw e)) by done. done.
  - simpl in Hr. by subst.
Qed.

Lemma equal_array_mono self self' this args r :
  (forall args' r', self this args' = r' -> answered r' -> self' this args' = r') ->
  call (equal_array self) this args = r -> answered r ->
  call (equal_array self') this args = r.
Proof.
  intros Hself. simpl.
  destruct (elements (arg 0 args)) as [a| |]; simpl; try done.
  destruct (elements (arg 1 args)) as [b| |]; simpl; try done.
  apply fold_array_mono. intros acc t r'.
  destruct (truthy_ret acc); [apply Hself|done].
Qed.

Lemma equal_dispatch this args :
  (exists r, forall self,
      call (makeMethod (equal_registrations self)) this args = r) \/
  (forall self,
      call (makeMethod (equal_registrations self)) this args
      = call (equal_array self) this args).
Proof.
  cbn [call makeMethod equal_registrations findRegistered predicate f].
  destruct (call isBoolean VUndef args) as [t1| |]; cbn [mbind result_bind];
    [|left; by eexists..].
  destruct (truthy_ret t1); [left; by eexists|].
  destruct (call isNumber VUndef args) as [t2| |]; cbn [mbind result_bind];
    [|left; by eexists..].
  destruct (truthy_ret t2); [left; by eexists|].
  destruct (call isString VUndef args) as [t3| |]; cbn [mbind result_bind];
    [|left; by eexists..].
  destruct (truthy_ret t3); [left; by eexists|].
  destruct (call isArray VUndef args) as [t4| |]; cbn [mbind result_bind];
    [|left; by eexists..].
  destruct (truthy_ret t4); [by right|left; by eexists].
Qed.

(** More fuel does not change an answer. *)
Lemma equal_fuel_mono n : forall this args r,
  equal n this args = r -> answered r -> equal (S n) this args = r.
Proof.
  induction n as [|n IH]; intros this args r Hr Hans.
  - simpl in Hr. by subst.
  - change (call (makeMethod (equal_registrations (equal n))) this args = r) in Hr.
    change (call (makeMethod (equal_registrations (equal (S n)))) this args = r).
    destruct (equal_dispatch this args) as [[r0 H0]|Harr].
    + by rewrite H0 in *.
    + rewrite Harr in *. revert Hr Hans. apply equal_array_mono.
      intros args' r'. apply IH.
Qed.

Lemma equal_fuel_le n m this args r :
  n <= m -> equal n this args = r -> answered r -> equal m this args = r.
Proof.
  induction 1 as [|m Hle IH]; [done|]. intros Hr Hans.
  apply equal_fuel_mono; [by apply IH|done].
Qed.

Lemma zip_split xs : forall ys i x y,
  xs !! i = Some x -> ys !! i = Some y ->
  zip xs ys
  = zip (take i xs) (take i ys) ++
    VArr [x; y] :: zip (drop (S i) xs) (drop (S i) ys).
Proof.
  induction xs as [|x0 xs IH]; intros [|y0 ys] [|i] x y Hx Hy; try done.
  - by simplify_eq/=.
  - simpl in Hx, Hy. cbn [take drop zip app]. f_equal. by apply IH.
Qed.

Lemma fold_array_app l1 l2 b c :
  fold_array (l1 ++ l2) b c = (b' ← fold_array l1 b c; fold_array l2 b' c).
Proof.
  revert b. induction l1 as [|t l1 IH]; intros b; [done|]. simpl.
  destruct (c b t) as [b'| |]; simpl; [apply IH|done..].
Qed.

Lemma fold_array_falsy self this l acc :
  truthy_ret acc = false ->
  fold_array l acc (compare_pair self this) = Ok acc.
Proof.
  intros Hacc. induction l as [|t l IH]; [done|]. cbn [fold_array].
  assert (compare_pair self this acc t = Ok acc) as ->
    by (unfold compare_pair; by rewrite Hacc).
  apply IH.
Qed.

Lemma equal_first_pair n m this xs ys i x y :
  n < m -> xs !! i = Some x -> ys !! i = Some y ->
  (forall j x' y', j < i -> xs !! j = Some x' -> ys !! j = Some y' ->
     equal n this [x'; y'] = Ok (RVal (VBool true))) ->
  equal m this [VArr xs; VArr ys]
  = (r ← equal (m - 1) this [x; y];
     fold_array (zip (drop (S i) xs) (drop (S i) ys)) r
       (compare_pair (equal (m - 1)) this)).
Proof.
  intros Hnm Hx Hy Hbefore. destruct m as [|m]; [lia|].
  replace (S m - 1) with m by lia.
  rewrite equal_on_arrays, (zip_split xs ys i x y Hx Hy), fold_array_app.
  rewrite fold_array_true; [done|].
  intros t (j & x' & y' & Hx' & Hy' & ->)%zip_lookup. unfold compare_pair. simpl.
  apply lookup_take_Some in Hx' as [Hx' Hj]. apply lookup_take_Some in Hy' as [Hy' _].
  apply (equal_fuel_le n m); [lia| |done]. by apply (Hbefore j).
Qed.

Lemma equal_numbers m this (a b : Z) :
  equal (S m) this [VNum a; VNum b] = Ok (RVal (VBool (a =? b)%Z)).
Proof. reflexivity. Qed.

Lemma fold_numbers m this (a : list Z) : forall b : list Z,
  fold_array (zip (VNum <$> a) (VNum <$> b)) (RVal (VBool true))
    (compare_pair (equal (S m)) this)
  = Ok (RVal (VBool (agree a b))).
Proof.
  induction a as [|x a IH]; intros [|y b]; try done.
  cbn [fmap list_fmap zip fold_array agree].
  assert (compare_pair (equal (S m)) this (RVal (VBool true)) (VArr [VNum x; VNum y])
          = Ok (RVal (VBool (x =? y)%Z))) as -> by reflexivity.
  cbn [mbind result_bind]. destruct (x =? y)%Z; simpl.
  - apply IH.
  - by apply fold_array_falsy.
Qed.

Lemma agree_take (a : list Z) : forall b : list Z,
  agree a b = bool_decide (take (List.length a `min` List.length b) a
                           = take (List.length a `min` List.length b) b).
Proof.
  induction a as [|x a IH]; intros [|y b]; try done.
  cbn [agree List.length Nat.min take]. rewrite IH.
  destruct (Z.eqb_spec x y) as [->|Hne]; simpl.
  - apply bool_decide_ext. split; [by intros ->|]. by intros [= ->].
  - symmetry. apply bool_decide_eq_false. by intros [= ? _].
Qed.

(** C7: [equal] on two arrays compares the pairs below the shorter length
    only, so its result is that on the two arrays cut to that length; when
    these pairs are equal the result is [true]; hence an array that is a
    proper prefix of another, with elements equal to themselves, is equal
    to it.  The pairs are compared in order, up to the first one that is
    not equal: the result is then what the comparison of this pair gave
    ([false], or its exception), and no later pair is compared.  On arrays
    of integers the result is whether the two agree below the shorter
    length. *)
Theorem equal_arrays_up_to_shorter n m this (xs ys : list value) :
  n < m ->
  equal m this [VArr xs; VArr ys]
  = equal m this [VArr (take (List.length xs `min` List.length ys) xs);
                  VArr (take (List.length xs `min` List.length ys) ys)] /\
  ((forall i x y, xs !! i = Some x -> ys !! i = Some y ->
      equal n this [x; y] = Ok (RVal (VBool true))) ->
   equal m this [VArr xs; VArr ys] = Ok (RVal (VBool true))) /\
  (forall z zs,
     (forall x, x ∈ xs -> equal n this [x; x] = Ok (RVal (VBool true))) ->
     equal m this [VArr xs; VArr (xs ++ z :: zs)] = Ok (RVal (VBool true))) /\
  (forall i x y,
     xs !! i = Some x -> ys !! i = Some y ->
     (forall j x' y', j < i -> xs !! j = Some x' -> ys !! j = Some y' ->
        equal n this [x'; y'] = Ok (RVal (VBool true))) ->
     (forall r, equal n this [x; y] = Ok r -> truthy_ret r = false ->
        equal m this [VArr xs; VArr ys] = Ok r) /\
     (forall e, equal n this [x; y] = Throw e ->
        equal m this [VArr xs; VArr ys] = Throw e)) /\
  (forall a b : list Z,
     1 <= n ->
     equal m this [VArr (VNum <$> a); VArr (VNum <$> b)]
     = Ok (RVal (VBool (bool_decide
             (take (List.length a `min` List.length b) a
              = take (List.length a `min` List.length b) b))))).
Proof.
  intros Hnm. destruct m as [|m]; [lia|].
  assert (forall ys',
            (forall i x y, xs !! i = Some x -> ys' !! i = Some y ->
               equal n this [x; y] = Ok (RVal (VBool true))) ->
            equal (S m) this [VArr xs; VArr ys'] = Ok (RVal (VBool true))) as Hpairs.
  { intros ys' H. rewrite equal_on_arrays. apply fold_array_true.
    intros t (i & x & y & Hx & Hy & ->)%zip_lookup. unfold compare_pair. simpl.
    apply (equal_fuel_le n m); [lia| |done]. by apply (H i). }
  split; [|split; [|split; [|split]]].
  - rewrite !equal_on_arrays. by rewrite <- zip_take.
  - apply Hpairs.
  - intros z zs H. apply Hpairs. intros i x y Hx Hy.
    rewrite (lookup_app_l_Some _ _ _ _ Hx) in Hy. simplify_eq.
    apply H. by apply list_elem_of_lookup_2 in Hx.
  - intros i x y Hx Hy Hbefore.
    rewrite (equal_first_pair n (S m) this xs ys i x y Hnm Hx Hy Hbefore).
    replace (S m - 1) with m by lia. split.
    + intros r Hr Hfalse.
      rewrite (equal_fuel_le n m this [x; y] (Ok r)); [|lia|done|done].
      cbn [mbind result_bind]. by apply fold_array_falsy.
    + intros e He.
      by rewrite (equal_fuel_le n m this [x; y] (Throw e)); [|lia|done|done].
  - intros a b Hn. destruct m as [|m]; [lia|].
    rewrite equal_on_arrays, fold_numbers. by rewrite agree_take.
Qed.

Lemma equal_arrays_up_to_shorter_witness :
  equal 2 VUndef [VArr [VNum 1; VStr "a"]; VArr [VNum 1; VStr "a"; VBool false]]
  = Ok (RVal (VBool true)) /\
  equal 2 VUndef [VArr [VNum 1; VStr "a"; VNum 3]; VArr [VNum 1; VStr "b"]]
  = Ok (RVal (VBool false)).
Proof.
  split.
  - destruct (equal_arrays_up_to_shorter 1 2 VUndef [VNum 1; VStr "a"]
                [VNum 1; VStr "a"; VBool false]) as (_ & _ & H & _); [lia|].
    apply (H (VBool false) []).
    intros x [->|[->|[]%elem_of_nil]%elem_of_cons]%elem_of_cons; reflexivity.
  - destruct (equal_arrays_up_to_shorter 1 2 VUndef [VNum 1; VStr "a"; VNum 3]
                [VNum 1; VStr "b"]) as (_ & _ & _ & H & _); [lia|].
    destruct (H 1 (VStr "a") (VStr "b")) as [Hfalse _]; [reflexivity|reflexivity| |].
    + intros [|j] x' y' Hj Hx' Hy'; [|lia]. simpl in Hx', Hy'. by simplify_eq.
    + apply Hfalse; reflexivity.
Defined.

Example equal_prefix_of_longer :
  equal 2 VUndef [VArr [VNum 1; VNum 2]; VArr [VNum 1; VNum 2; VNum 3]]
  = Ok (RVal (VBool true)).
Proof. reflexivity. Qed.

Example equal_differs_in_prefix :
  equal 2 VUndef [VArr [VNum 1; VNum 2]; VArr [VNum 1; VNum 3; VNum 3]]
  = Ok (RVal (VBool false)).
Proof. reflexivity. Qed.

End Equal.

(** ** Validation *)

Module Validation.

(** [taggedSum({success: ['value'], failure: ['errors']})] *)
Definition Validation_sum : gmap string (list string) :=
  {["success" := ["value"]; "failure" := ["errors"]]}.

Definition success (v : value) : result value :=
  ADT.construct Validation_sum "success" [v].
Definition failure (errors : value) : result value :=
  ADT.construct Validation_sum "failure" [errors].

(** The object [none], a single object of the library. *)
Definition none : value := VRef 0.

(** [liftA2(or, p, q)] with the instances for functions:
    [function(x) { return or(p(x))(q(x)); }]: both are called, and the
    result is [a || b] of their results. *)
Definition either_holds (p q : callable) : callable :=
  Plain 1 None (fun _ args =>
    a ← call p VUndef [arg 0 args];
    b ← call q VUndef [arg 0 args];
    Ok (if truthy_ret a then a else b)).

Definition isOption : callable :=
  either_holds (isInstanceOf "some") (curry (bind (Plain 2 None (fun _ args =>
    Ok (RVal (VBool (strict_equals (arg 0 args) (arg 1 args)))))) VUndef [none])).
Definition isEither : callable :=
  either_holds (isInstanceOf "left") (isInstanceOf "right").
Definition isValidation : callable :=
  either_holds (isInstanceOf "success") (isInstanceOf "failure").

(** A result that is a first-order value; a function has no place in a
    field of the model. *)
Definition as_value (r : ret) : result value :=
  match r with
  | inl v => Ok v
  | inr _ => NoAnswer
  end.

(** The implementation of [append] registered for arrays: [a.concat(b)]
    splices an array argument in and appends any other value. *)
Definition append_array : callable :=
  Plain 2 None (fun _ args =>
    match arg 0 args with
    | VArr xs =>
        Ok (RVal (VArr (xs ++ match arg 1 args with
                              | VArr ys => ys
                              | v => [v]
                              end)))
    | _ => Throw (TypeError "a.concat is not a function")
    end).

Section instances.

(** The implementations registered for the other shapes, and the
    application of a function value, are left open: nothing below depends
    on what they do. *)
Variables append_number_string append_option append_either : callable.
Variables ap_function ap_array ap_option ap_either : callable.
Variable apply_function : value -> list value -> result value.

Definition append_registrations : list (option registration) :=
  [ Some (Registration isArray append_array);
    Some (Registration (either_holds isNumber isString) append_number_string);
    Some (Registration isOption append_option);
    Some (Registration isEither append_either) ].

(** [Validation.failure.prototype.ap]:
    [b.cata({success: function(value) { return a; },
             failure: function(errors) {
               return Validation.failure(append(a.errors, errors)); }})] *)
Definition failure_ap (a b : value) (append : callable) : result ret :=
  ADT.cata Validation_sum b
    {[ "success" := Plain 1 None (fun _ _ => Ok (RVal a));
       "failure" := Plain 1 None (fun _ args =>
          mine ← ADT.get_field a "errors";
          r ← call append VUndef [mine; arg 0 args];
          errors ← as_value r;
          v ← failure errors;
          Ok (RVal v)) ]}.

(** [v.map(fn)]: [Validation.success.prototype.map] and
    [Validation.failure.prototype.map] for a validation.  Any other object
    (an array, an option, an either, ..) has a [map] of its own or none: no
    answer here.  A primitive has none. *)
Definition validation_map (v : value) (fn : value) : result ret :=
  match v with
  | VData "success" _ =>
      x ← ADT.get_field v "value";
      r ← apply_function fn [x];
      v' ← success r;
      Ok (RVal v')
  | VData "failure" _ => Ok (RVal v)
  | VUndef | VNull | VBool _ | VNum _ | VStr _ =>
      Throw (TypeError "v.map is not a function")
  | VArr _ | VData _ _ | VFun _ | VRef _ => NoAnswer
  end.

(** [vf.ap(v, append)], by the prototype of [vf]; likewise. *)
Definition validation_ap (vf v : value) (append : callable) : result ret :=
  match vf with
  | VData "success" _ =>
      fn ← ADT.get_field vf "value";
      validation_map v fn
  | VData "failure" _ => failure_ap vf v append
  | VUndef | VNull | VBool _ | VNum _ | VStr _ =>
      Throw (TypeError "vf.ap is not a function")
  | VArr _ | VData _ _ | VFun _ | VRef _ => NoAnswer
  end.

Definition ap_registrations : list (option registration) :=
  [ Some (Registration isFunction ap_function);
    Some (Registration isArray ap_array);
    Some (Registration isOption ap_option);
    Some (Registration isEither ap_either);
    Some (Registration isValidation (Plain 2 None (fun this args =>
      validation_ap (arg 0 args) (arg 1 args) (makeMethod append_registrations)))) ].

(** [env.ap(args..)] and [env.append(args..)] of the library's environment. *)
Definition ap (this : value) (args : list value) : result ret :=
  call (makeMethod ap_registrations) this args.
Definition append (this : value) (args : list value) : result ret :=
  call (makeMethod append_registrations) this args.

(** C8: [ap] of a failure over a failure is the failure of the two error
    lists appended, the first argument's errors first: for the lists [[a]]
    and [[b]] it is [Failure([a, b])], and not the first failure alone. *)
Theorem ap_failures_accumulate this :
  (forall xs ys : list value,
     ap this [VData "failure" [("errors", VArr xs)];
              VData "failure" [("errors", VArr ys)]]
     = Ok (RVal (VData "failure" [("errors", VArr (xs ++ ys))]))) /\
  (forall a b : value,
     failure (VArr [a]) = Ok (VData "failure" [("errors", VArr [a])]) /\
     ap this [VData "failure" [("errors", VArr [a])];
              VData "failure" [("errors", VArr [b])]]
     = Ok (RVal (VData "failure" [("errors", VArr [a; b])])) /\
     ap this [VData "failure" [("errors", VArr [a])];
              VData "failure" [("errors", VArr [b])]]
     <> Ok (RVal (VData "failure" [("errors", VArr [a])])) /\
     append VUndef [VArr [a]; VArr [b]] = Ok (RVal (VArr [a; b]))).
Proof.
  assert (forall xs ys : list value,
     ap this [VData "failure" [("errors", VArr xs)];
              VData "failure" [("errors", VArr ys)]]
     = Ok (RVal (VData "failure" [("errors", VArr (xs ++ ys))]))) as H.
  { intros xs ys. reflexivity. }
  split; [exact H|]. intros a b. split; [reflexivity|]. split; [apply H|].
  split; [|reflexivity]. rewrite H. simpl. congruence.
Qed.

(** X18: [ap] of two validations is a success only when both are: with a
    failure on either side it returns that failure as it is and applies
    nothing; with two successes it applies the function of the first to the
    value of the second, once, and wraps the result in a success. *)
Theorem ap_success_only_of_successes this (fv x errors : value) :
  ap this [VData "success" [("value", fv)]; VData "failure" [("errors", errors)]]
  = Ok (RVal (VData "failure" [("errors", errors)])) /\
  ap this [VData "failure" [("errors", errors)]; VData "success" [("value", x)]]
  = Ok (RVal (VData "failure" [("errors", errors)])) /\
  ap this [VData "success" [("value", fv)]; VData "success" [("value", x)]]
  = (r ← apply_function fv [x]; Ok (RVal (VData "success" [("value", r)]))) /\
  success x = Ok (VData "success" [("value", x)]) /\
  failure errors = Ok (VData "failure" [("errors", errors)]).
Proof.
  split; [reflexivity|]. split; [reflexivity|]. split; [|split; reflexivity].
  change (ap this [VData "success" [("value", fv)]; VData "success" [("value", x)]])
    with (validation_map (VData "success" [("value", x)]) fv).
  unfold validation_map. simpl.
  by destruct (apply_function fv [x]).
Qed.

End instances.

End Validation.

(** ** Lenses *)

Module Lens.

(** A plain object: its own properties. *)
Abbreviation object := (gmap string value) (only parsing).

(** [o[k]]: the own property; for a key that [o] does not have, the member
    of [Object.prototype] of this name, a function or an object that is no
    value of the model, or else [undefined]. *)
Definition get (o : object) (k : string) : result value :=
  match o !! k with
  | Some v => Ok v
  | None => if inherited k then NoAnswer else Ok VUndef
  end.

(** [o[k] = v].  Without an own key [__proto__], [o["__proto__"] = v] is
    ignored for a primitive [v], and replaces the prototype of [o]
    otherwise. *)
Definition set (o : object) (k : string) (v : value) : result object :=
  if bool_decide (k = "__proto__") && bool_decide (o !! k = None)
  then if primitive v then Ok o else NoAnswer
  else Ok (<[k := v]> o).

(** [singleton(k, v)]: [var o = {}; o[k] = v; return o]. *)
Definition singleton (k : string) (v : value) : result object := set ∅ k v.

(** The loop [for(i in a) o[i] = a[i]]. *)
Definition copy_into (a o : object) : result object :=
  map_fold (fun i v acc => o' ← acc; set o' i v) (Ok o) a.

(** [extend(a, b)]: a new object with the properties of [a], then those
    of [b]. *)
Definition extend (a b : object) : result object :=
  o ← copy_into a ∅; copy_into b o.

(** [store(setter, getter)] *)
Record store : Type := Store {
  setter : value -> result object;
  getter : value
}.

(** [lens(f)]: [run(x)] is [f(x)]. *)
Record lens : Type := MkLens {
  run : object -> result store
}.

(** [objectLens(k)]: [o[k]] is read when the lens is run. *)
Definition objectLens (k : string) : lens :=
  MkLens (fun o =>
    g ← get o k;
    Ok (Store (fun v => s ← singleton k v; extend o s) g)).

(** [L.run(o).setter(L.run(o).getter)], [L.run(o).setter(v)] and
    [L.run(L.run(o).setter(v)).getter] for [L = objectLens(k)]. *)
Definition set_what_was_got (k : string) (o : object) : result object :=
  s ← run (objectLens k) o; setter s (getter s).
Definition put (k : string) (o : object) (v : value) : result object :=
  s ← run (objectLens k) o; setter s v.
Definition get_what_was_set (k : string) (o : object) (v : value) : result value :=
  o' ← put k o v; s ← run (objectLens k) o'; Ok (getter s).

(** An own property [__proto__] that the loop of [extend] drops: it holds a
    primitive. *)
Definition proto_ignored (o : object) : bool :=
  match o !! "__proto__" with
  | Some v => primitive v
  | None => true
  end.

(** C9 as stated: setting what was got gives the object back, for every
    key and object. *)
Definition get_then_set_is_identity : Prop :=
  forall (k : string) (o : object), set_what_was_got k o = Ok o.

Lemma copy_into_spec (a o : object) :
  o !! "__proto__" = None ->
  copy_into a o
  = if proto_ignored a then Ok (delete "__proto__" a ∪ o) else NoAnswer.
Proof.
  intros Ho. unfold copy_into.
  apply (map_fold_weak_ind
           (fun r (m : object) =>
              r = if proto_ignored m then Ok (delete "__proto__" m ∪ o) else NoAnswer)).
  - unfold proto_ignored. rewrite lookup_empty, delete_empty.
    by rewrite (left_id_L ∅ (∪)).
  - intros i x m r Hi ->. destruct (decide (i = "__proto__")) as [->|Hne].
    + unfold proto_ignored at 1. rewrite Hi. cbn [mbind result_bind].
      unfold set. rewrite bool_decide_eq_true_2 by done.
      rewrite bool_decide_eq_true_2.
      2:{ apply lookup_union_None. by rewrite lookup_delete_eq. }
      unfold proto_ignored. rewrite lookup_insert_eq. cbn [andb].
      destruct (primitive x); [|done].
      by rewrite delete_insert_eq.
    + assert (proto_ignored (<[i := x]> m) = proto_ignored m) as ->.
      { unfold proto_ignored. by rewrite lookup_insert_ne. }
      destruct (proto_ignored m); [|done]. cbn [mbind result_bind].
      unfold set. rewrite bool_decide_eq_false_2 by done. cbn [andb].
      by rewrite delete_insert_ne, insert_union_l.
Qed.

Lemma extend_drops_proto (a b : object) :
  extend a b
  = if proto_ignored a && proto_ignored b
    then Ok (delete "__proto__" (b ∪ a)) else NoAnswer.
Proof.
  unfold extend. rewrite copy_into_spec by apply lookup_empty.
  destruct (proto_ignored a); [|done]. cbn [mbind result_bind andb].
  rewrite (right_id_L ∅ (∪)).
  rewrite copy_into_spec by apply lookup_delete_eq.
  destruct (proto_ignored b); [|done]. by rewrite delete_union.
Qed.

Lemma proto_ignored_absent (o : object) :
  o !! "__proto__" = None -> proto_ignored o = true.
Proof. intros H. unfold proto_ignored. by rewrite H. Qed.

Lemma extend_union (a b : object) :
  a !! "__proto__" = None -> b !! "__proto__" = None ->
  extend a b = Ok (b ∪ a).
Proof.
  intros Ha Hb. rewrite extend_drops_proto, !proto_ignored_absent by done.
  cbn [andb]. rewrite delete_id; [done|].
  apply lookup_union_None. by split.
Qed.

Lemma put_insert k (o : object) v :
  k <> "__proto__" -> o !! "__proto__" = None ->
  is_Some (o !! k) \/ inherited k = false ->
  put k o v = Ok (<[k := v]> o).
Proof.
  intros Hk Ho Hread. unfold put. cbn [run objectLens].
  assert (exists g, get o k = Ok g) as [g ->].
  { unfold get. destruct Hread as [[x ->]| ->]; [by eexists|].
    destruct (o !! k); by eexists. }
  cbn [mbind result_bind setter]. unfold singleton, set.
  rewrite bool_decide_eq_false_2 by done. cbn [andb mbind result_bind].
  rewrite extend_union; [|done|by rewrite lookup_insert_ne].
  by rewrite insert_empty, insert_union_singleton_l.
Qed.

Lemma set_what_was_got_absent k (o : object) :
  k <> "__proto__" -> o !! "__proto__" = None ->
  o !! k = None -> inherited k = false ->
  set_what_was_got k o = Ok (<[k := VUndef]> o).
Proof.
  intros Hk Ho Hnone Hinh.
  pose proof (put_insert k o VUndef Hk Ho (or_intror Hinh)) as Hput.
  unfold set_what_was_got, put in *. cbn [run objectLens] in *.
  unfold get in *. rewrite Hnone, Hinh in *. by cbn [mbind result_bind getter] in *.
Qed.

(** C9 (amended): for a key [k] other than [__proto__] and an object [o]
    without an own property [__proto__]: when [o] has the key [k], setting
    what was got gives [o] back; when [o] has the key, or [k] names no
    member of [Object.prototype], getting after setting [v] gives [v], and
    the setter's object has [v] at [k] and the value of [o] at every other
    key; for a key that [o] lacks (and that names no member of
    [Object.prototype]), setting what was got adds the key, bound to
    [undefined]. *)
Theorem objectLens_laws (k : string) (o : object) (v : value) :
  k <> "__proto__" -> o !! "__proto__" = None ->
  (is_Some (o !! k) -> set_what_was_got k o = Ok o) /\
  (is_Some (o !! k) \/ inherited k = false ->
     get_what_was_set k o v = Ok v /\
     exists o', put k o v = Ok o' /\
                o' !! k = Some v /\
                forall k', k' <> k -> o' !! k' = o !! k') /\
  (o !! k = None -> inherited k = false ->
     set_what_was_got k o = Ok (<[k := VUndef]> o)).
Proof.
  intros Hk Ho. split; [|split].
  - intros [x Hx].
    pose proof (put_insert k o x Hk Ho (or_introl (mk_is_Some _ _ Hx))) as Hput.
    unfold set_what_was_got, put in *. cbn [run objectLens] in *.
    unfold get in *. rewrite Hx in *. cbn [mbind result_bind getter] in *.
    rewrite Hput. by rewrite insert_id.
  - intros Hread. pose proof (put_insert k o v Hk Ho Hread) as Hput. split.
    + unfold get_what_was_set. rewrite Hput. cbn [mbind result_bind run objectLens].
      unfold get. by rewrite lookup_insert_eq.
    + exists (<[k := v]> o). split; [done|]. split; [apply lookup_insert_eq|].
      intros k' Hk'. by rewrite lookup_insert_ne.
  - intros Hnone Hinh. by apply set_what_was_got_absent.
Qed.

Lemma objectLens_laws_witness :
  set_what_was_got "k" {["k" := VNum 1; "j" := VNum 2]}
  = Ok {["k" := VNum 1; "j" := VNum 2]} /\
  get_what_was_set "k" {["k" := VNum 1; "j" := VNum 2]} (VNum 3) = Ok (VNum 3).
Proof.
  destruct (objectLens_laws "k" {["k" := VNum 1; "j" := VNum 2]} (VNum 3))
    as (H1 & H2 & _); [done|reflexivity|].
  split.
  - apply H1. by eexists.
  - apply H2. left. by eexists.
Defined.

(** C9 (counterexample): on the empty object, setting what the lens of
    ["k"] got gives [{k: undefined}], an object with one key more. *)
Lemma objectLens_absent_key :
  set_what_was_got "k" ∅ = Ok {["k" := VUndef]} /\
  set_what_was_got "k" ∅ <> Ok ∅ /\
  ~ get_then_set_is_identity.
Proof.
  assert (set_what_was_got "k" ∅ = Ok {["k" := VUndef]}) as H.
  { rewrite (set_what_was_got_absent "k" ∅); [|done..]. by rewrite insert_empty. }
  assert (({["k" := VUndef]} : gmap string value) <> ∅) as Hne.
  { intros Heq. apply (f_equal (fun m : gmap string value => m !! "k")) in Heq.
    by rewrite lookup_singleton_eq, lookup_empty in Heq. }
  split; [done|]. split; [rewrite H; congruence|].
  intros Hlaw. specialize (Hlaw "k" ∅). rewrite H in Hlaw. congruence.
Qed.

(** The lens of a key that names a member of [Object.prototype], run on an
    object without this key, reads that member: setting what was got would
    add it to the object. *)
Example objectLens_inherited_key :
  get ∅ "toString" = NoAnswer /\ singleton "__proto__" (VNum 5) = Ok ∅.
Proof. split; reflexivity. Qed.

(** X19: for objects without an own property [__proto__], [extend(a, b)]
    has the keys of both objects and is right-biased: a key of [b] has the
    value of [b], any other key that of [a].  So extending by or from the
    empty object changes nothing, extending twice by the same object is
    extending once, and [extend] is associative.  An own property
    [__proto__] that holds a primitive is dropped, whichever object has
    it. *)
Theorem extend_right_biased (a b c : object) :
  a !! "__proto__" = None -> b !! "__proto__" = None -> c !! "__proto__" = None ->
  (exists ab bc,
     extend a b = Ok ab /\ extend b c = Ok bc /\
     (forall k, ab !! k = match b !! k with
                          | Some v => Some v
                          | None => a !! k
                          end) /\
     extend ab b = Ok ab /\
     extend ab c = extend a bc) /\
  extend a ∅ = Ok a /\ extend ∅ b = Ok b /\
  (forall a' b' : object,
     proto_ignored a' = true -> proto_ignored b' = true ->
     extend a' b' = Ok (delete "__proto__" (b' ∪ a'))).
Proof.
  intros Ha Hb Hc. split; [|split; [|split]].
  - exists (b ∪ a), (c ∪ b).
    assert ((b ∪ a) !! "__proto__" = None) as Hab
      by (apply lookup_union_None; by split).
    assert ((c ∪ b) !! "__proto__" = None) as Hbc
      by (apply lookup_union_None; by split).
    rewrite !extend_union by done.
    split; [done|]. split; [done|]. split; [|split].
    + intros k. rewrite lookup_union. by destruct (b !! k), (a !! k).
    + by rewrite (assoc_L (∪)), (idemp_L (∪)).
    + by rewrite (assoc_L (∪)).
  - rewrite extend_union by (done || apply lookup_empty).
    by rewrite (left_id_L ∅ (∪)).
  - rewrite extend_union by (done || apply lookup_empty).
    by rewrite (right_id_L ∅ (∪)).
  - intros a' b' Ha' Hb'. by rewrite extend_drops_proto, Ha', Hb'.
Qed.

Lemma extend_right_biased_witness :
  exists ab,
    extend {["a" := VNum 1; "b" := VNum 2]} {["b" := VBool true; "c" := VBool false]}
    = Ok ab /\
    ab !! "a" = Some (VNum 1) /\ ab !! "b" = Some (VBool true) /\
    ab !! "c" = Some (VBool false).
Proof.
  destruct (extend_right_biased {["a" := VNum 1; "b" := VNum 2]}
              {["b" := VBool true; "c" := VBool false]} ∅)
    as ((ab & bc & H1 & _ & H2 & _) & _); [reflexivity..|].
  exists ab. split; [exact H1|]. by rewrite !H2.
Defined.

End Lens.

(** ** Option *)

Module Option.

(** What a method receives where it expects a function: a function known
    by its name, the closure [function(y) { return plus(x, y); }] that the
    [append] of [some(x)] passes to [map], or a value that is no function. *)
Inductive fn : Type :=
| Named (name : string)
| PlusLeft (plus : fn) (x : value)
| NotFunction (v : value).

Definition as_fn (v : value) : fn :=
  match v with
  | VFun name => Named name
  | _ => NotFunction v
  end.

(** The objects: the single [none], and what [new some(x)] creates. *)
Inductive object : Type :=
| ONone
| OSome (x : value).

(** The state: the objects created so far, by address, and the calls of
    named functions made so far, latest first. *)
Record state : Type := State {
  objects : list object;
  calls : list (string * list value)
}.

Definition M (A : Type) : Type := state -> result A * state.

#[global] Instance M_ret : MRet M := fun A a σ => (Ok a, σ).
#[global] Instance M_bind : MBind M := fun A B k m σ =>
  match m σ with
  | (Ok a, σ') => k a σ'
  | (Throw e, σ') => (Throw e, σ')
  | (NoAnswer, σ') => (NoAnswer, σ')
  end.

Definition throw {A : Type} (e : exn) : M A := fun σ => (Throw e, σ).

(** [new]: a fresh object. *)
Definition alloc (o : object) : M value := fun σ =>
  (Ok (VRef (List.length (objects σ))), State (objects σ ++ [o]) (calls σ)).

(** The option behind the value that a method is called on; the methods
    below are those of options. *)
Definition deref (v : value) : M object := fun σ =>
  match v with
  | VRef l =>
      match objects σ !! l with
      | Some o => (Ok o, σ)
      | None => (Throw (TypeError "not an option"), σ)
      end
  | _ => (Throw (TypeError "not an option"), σ)
  end.

(** [var none = { .. }]: the object at address 0 of the library's state. *)
Definition none : value := VRef 0.
Definition initial : state := State [ONone] [].

Definition some (x : value) : M value := alloc (OSome x).

Section methods.

(** What a named function returns is left open. *)
Variable returns : string -> list value -> result value.

(** A call [g(args..)]: a call of a named function is recorded. *)
Fixpoint apply (g : fn) (args : list value) : M value :=
  match g with
  | Named name => fun σ =>
      (returns name args, State (objects σ) ((name, args) :: calls σ))
  | PlusLeft plus x => apply plus [x; arg 0 args]
  | NotFunction _ => throw (TypeError "f is not a function")
  end.

(** [this.map(f)]: [return this] on [none], [return some(f(x))] on
    [some(x)]. *)
Definition map (this : value) (f : fn) : M value :=
  o ← deref this;
  match o with
  | ONone => mret this
  | OSome x => y ← apply f [x]; some y
  end.

(** [this.flatMap(f)]: [return this] on [none], [return f(x)] on [some(x)]. *)
Definition flatMap (this : value) (f : fn) : M value :=
  o ← deref this;
  match o with
  | ONone => mret this
  | OSome x => apply f [x]
  end.

(** [this.ap(s)]: [return this] on [none], [return s.map(x)] on [some(x)]. *)
Definition ap (this : value) (s : value) : M value :=
  o ← deref this;
  match o with
  | ONone => mret this
  | OSome x => map s (as_fn x)
  end.

(** [this.append(s, plus)] of an option: [return this] on [none],
    [return s.map(function(y) { return plus(x, y); })] on [some(x)]. *)
Definition append (this : value) (s : value) (plus : fn) : M value :=
  o ← deref this;
  match o with
  | ONone => mret this
  | OSome x => map s (PlusLeft plus x)
  end.

(** [this.getOrElse(y)] *)
Definition getOrElse (this : value) (y : value) : M value :=
  o ← deref this;
  match o with
  | ONone => mret y
  | OSome x => mret x
  end.

(** C10: in a state that holds the library's [none], each of [map],
    [flatMap], [ap] and [append] called on [none] returns [none] itself and
    leaves the state as it was: no object is created and no function is
    called. *)
Theorem none_operations_return_none σ (f plus : fn) (x : value) :
  objects σ !! 0 = Some ONone ->
  map none f σ = (Ok none, σ) /\
  flatMap none f σ = (Ok none, σ) /\
  ap none x σ = (Ok none, σ) /\
  append none x plus σ = (Ok none, σ).
Proof.
  intros Hnone.
  assert (deref none σ = (Ok ONone, σ)) as Hderef
    by (unfold deref, none; by rewrite Hnone).
  repeat split;
    [unfold map | unfold flatMap | unfold ap | unfold append];
    unfold mbind, M_bind; by rewrite Hderef.
Qed.

(** By contrast, [map] on [some(x)] calls the function and creates an
    object. *)
Lemma some_map_calls_and_allocates σ l x name y :
  objects σ !! l = Some (OSome x) -> returns name [x] = Ok y ->
  map (VRef l) (Named name) σ
  = (Ok (VRef (List.length (objects σ))),
     State (objects σ ++ [OSome y]) ((name, [x]) :: calls σ)).
Proof.
  intros Hl Hy. unfold map, mbind, M_bind, deref. rewrite Hl.
  cbn [apply]. by rewrite Hy.
Qed.

(** [Some(x).map(f).getOrElse(y)] is [f(x)], and [None.map(f).getOrElse(y)]
    is [y]. *)
Lemma map_getOrElse σ l x name y z :
  objects σ !! 0 = Some ONone ->
  objects σ !! l = Some (OSome x) -> returns name [x] = Ok y ->
  (v ← map (VRef l) (Named name); getOrElse v z) σ
  = (Ok y, State (objects σ ++ [OSome y]) ((name, [x]) :: calls σ)) /\
  (v ← map none (Named name); getOrElse v z) σ = (Ok z, σ).
Proof.
  intros Hnone Hl Hy. split.
  - unfold mbind at 1, M_bind at 1.
    rewrite (some_map_calls_and_allocates _ _ _ _ _ Hl Hy).
    unfold getOrElse, mbind, M_bind, deref. cbn [objects].
    by rewrite list_lookup_middle.
  - unfold map, getOrElse, mbind, M_bind, deref, none, mret, M_ret.
    rewrite Hnone. by rewrite Hnone.
Qed.

(** X20: for options [none] absorbs on the right as well: [some(x).append(none, plus)]
    and [some(x).ap(none)] return [none] itself, call nothing and create
    nothing, even when [x] is no function.  [some(x).append(some(y), plus)]
    calls [plus(x, y)] once and returns a new [some] of the result. *)
Theorem some_append_and_ap σ l x plus :
  objects σ !! 0 = Some ONone -> objects σ !! l = Some (OSome x) ->
  append (VRef l) none plus σ = (Ok none, σ) /\
  ap (VRef l) none σ = (Ok none, σ) /\
  (forall l' y name z,
     objects σ !! l' = Some (OSome y) -> returns name [x; y] = Ok z ->
     append (VRef l) (VRef l') (Named name) σ
     = (Ok (VRef (List.length (objects σ))),
        State (objects σ ++ [OSome z]) ((name, [x; y]) :: calls σ))).
Proof.
  intros Hnone Hl. split; [|split].
  - unfold append, map, mbind, M_bind, deref, none. by rewrite Hl, Hnone.
  - unfold ap, map, mbind, M_bind, deref, none. by rewrite Hl, Hnone.
  - intros l' y name z Hl' Hz.
    unfold append, map, mbind, M_bind, deref. rewrite Hl, Hl'.
    cbn [apply arg nth]. by rewrite Hz.
Qed.

End methods.

Lemma some_append_and_ap_witness :
  append (fun _ _ => Ok (VNum 3)) (VRef 1) none (Named "plus")
    (State [ONone; OSome (VNum 1)] [])
  = (Ok none, State [ONone; OSome (VNum 1)] []) /\
  append (fun _ _ => Ok (VNum 3)) (VRef 1) (VRef 2) (Named "plus")
    (State [ONone; OSome (VNum 1); OSome (VNum 2)] [])
  = (Ok (VRef 3),
     State [ONone; OSome (VNum 1); OSome (VNum 2); OSome (VNum 3)]
           [("plus", [VNum 1; VNum 2])]).
Proof.
  destruct (some_append_and_ap (fun _ _ => Ok (VNum 3))
              (State [ONone; OSome (VNum 1)] []) 1 (VNum 1) (Named "plus")
              eq_refl eq_refl) as (H1 & _ & _).
  destruct (some_append_and_ap (fun _ _ => Ok (VNum 3))
              (State [ONone; OSome (VNum 1); OSome (VNum 2)] []) 1 (VNum 1)
              (Named "plus") eq_refl eq_refl) as (_ & _ & H3).
  split; [exact H1|]. apply (H3 2 (VNum 2) "plus" (VNum 3)); reflexivity.
Defined.

Lemma none_operations_return_none_witness :
  map (fun _ _ => Ok VUndef) none (Named "f") initial = (Ok none, initial) /\
  append (fun _ _ => Ok VUndef) none (VNum 1) (Named "plus") initial
  = (Ok none, initial).
Proof.
  destruct (none_operations_return_none (fun _ _ => Ok VUndef) initial
              (Named "f") (Named "plus") (VNum 1) eq_refl) as (H1 & _ & _ & H4).
  split; [exact H1|exact H4].
Defined.

End Option.

(** ** The function helpers *)

Module Helpers.

(** [identity] *)
Definition identity : callable :=
  Plain 1 None (fun _ args => Ok (RVal (arg 0 args))).

(** A result handed on as an argument.  The arguments of the model are
    first-order values: handing on a function gets no answer. *)
Definition as_argument (r : ret) : result value :=
  match r with
  | inl v => Ok v
  | inr _ => NoAnswer
  end.

(** [compose(f, g)]:
    [function() { return f(g.apply(this, [].slice.call(arguments))); }] *)
Definition compose (f g : callable) : callable :=
  Plain 0 None (fun this args =>
    r ← call g this args;
    v ← as_argument r;
    call f VUndef [v]).

(** [flip(f)]:
    [function(a) { return function(b) { return f(b, a); }; }] *)
Definition flip (f : callable) : callable :=
  Plain 1 None (fun _ args =>
    Ok (RFn (Plain 1 None (fun _ args' =>
      call f VUndef [arg 0 args'; arg 0 args])))).

(** [or]: [curry(function(a, b) { return a || b; })] *)
Definition or_fn : callable :=
  Plain 2 None (fun _ args =>
    Ok (RVal (if truthy (arg 0 args) then arg 0 args else arg 1 args))).
Definition or : callable := curry or_fn.

(** The implementations of [map] and [ap] registered for functions:
    [function(a, b) { return compose(b, a); }] and
    [function(a, b) { return function(x) { return a(x)(b(x)); }; }].
    In [a(x)(b(x))] the argument [b(x)] is evaluated before the call, and
    so before the call fails on an [a(x)] that is no function. *)
Definition map_function (a b : callable) : callable := compose b a.
Definition ap_function (a b : callable) : callable :=
  Plain 1 None (fun _ args =>
    r ← call a VUndef [arg 0 args];
    s ← call b VUndef [arg 0 args];
    match r with
    | inr g => v ← as_argument s; call g VUndef [v]
    | inl _ => Throw (TypeError "a(...) is not a function")
    end).

(** [liftA2(f, a, b)] on functions [a] and [b]:
    [this.ap(this.map(a, f), b)]. *)
Definition liftA2 (f a b : callable) : callable :=
  ap_function (map_function a f) b.

(** The calls [r(args1)(args2)..], each with its [this]: every call needs
    a function to call. *)
Fixpoint feed (r : ret) (calls : list (value * list value)) : result ret :=
  match calls with
  | [] => Ok r
  | (this, args) :: rest =>
      match r with
      | inr g => r' ← call g this args; feed r' rest
      | inl _ => Throw (TypeError "not a function")
      end
  end.

(** X5: [compose] is associative, also in the [this] and the arguments
    that the innermost function receives; the outer function is always
    called with one argument and no [this], so [compose(f, identity)] calls
    [f] on the first argument alone. *)
Theorem compose_associative (f g h : callable) this args :
  call (compose f (compose g h)) this args
  = call (compose (compose f g) h) this args /\
  call (compose f identity) this args = call f VUndef [arg 0 args] /\
  call (compose identity f) this args
  = (r ← call f this args; v ← as_argument r; Ok (RVal v)).
Proof.
  split; [|split].
  - simpl. by destruct (call h this args) as [[v|k]| |].
  - done.
  - simpl. destruct (call f this args) as [[v|k]| |]; by simpl.
Qed.

(** X6: [flip(f)(a)(b)] is [f(b, a)]; but [flip(f)] takes its arguments
    one at a time, so [flip] is no involution: [flip(flip(f))(a)(b)] drops
    [a] and returns a function [h] that still awaits an argument, with
    [h(c)] being [f(c, b)]. *)
Theorem flip_twice_is_not_identity (f : callable) (a b : value) this :
  (exists g, call (flip f) this [a] = Ok (RFn g) /\
             call g this [b] = call f VUndef [b; a]) /\
  (exists g h, call (flip (flip f)) this [a] = Ok (RFn g) /\
               call g this [b] = Ok (RFn h) /\
               forall c, call h this [c] = call f VUndef [c; b]).
Proof.
  split.
  - eexists. split; reflexivity.
  - eexists. eexists. split; [reflexivity|]. split; [reflexivity|]. done.
Qed.

(** X7: lifted over functions, [liftA2(or, p, q)] is the predicate
    [x => p(x) || q(x)] that calls both [p] and [q]: the predicates
    [isOption], [isEither], [isValidation] and that of [append] for numbers
    and strings are built this way. *)
Theorem liftA2_or_is_either (p q : callable) this (x : value) :
  (forall g, call p VUndef [x] <> Ok (RFn g)) ->
  (forall g, call q VUndef [x] <> Ok (RFn g)) ->
  call (liftA2 or p q) this [x] = call (Validation.either_holds p q) this [x].
Proof.
  intros Hp Hq. simpl. unfold arg. simpl.
  destruct (call p VUndef [x]) as [[v|g]| |] eqn:Ep; simpl; try done.
  - destruct (call q VUndef [x]) as [[w|g]| |] eqn:Eq; simpl; try done.
    + unfold arg. simpl. by destruct (truthy v).
    + by destruct (Hq g).
  - by destruct (Hp g).
Qed.

Lemma liftA2_or_is_either_witness :
  call (liftA2 or isNumber isString) VUndef [VStr "a"] = Ok (RVal (VBool true)).
Proof.
  rewrite (liftA2_or_is_either isNumber isString VUndef (VStr "a")).
  - reflexivity.
  - intros g. discriminate.
  - intros g. discriminate.
Defined.

Lemma feed_curry_partially n body this args : forall calls steps,
  List.length (Env.collected steps) + List.length (Env.collected calls) < n ->
  n <= List.length (Env.collected steps) + List.length (Env.collected calls)
       + List.length args ->
  feed (RFn (curry (Env.partially (Plain n None body) steps)))
       (calls ++ [(this, args)])
  = body (Env.bound_this (steps ++ calls) this)
         (Env.collected steps ++ Env.collected calls ++ args).
Proof.
  induction calls as [|[o bs] calls IH]; intros steps Hlt Hle.
  - cbn [app feed]. rewrite Env.call_curry_partially.
    unfold Env.collected in *. simpl in *.
    rewrite decide_True by lia. rewrite app_nil_r.
    by destruct (body _ _).
  - cbn [app feed]. rewrite Env.call_curry_partially.
    unfold Env.collected in *. cbn [fmap list_fmap snd concat] in *.
    rewrite length_app in Hlt, Hle.
    rewrite decide_False by lia. cbn [mbind result_bind].
    rewrite (IH (steps ++ [(o, bs)])).
    + rewrite fmap_app, concat_app. simpl. rewrite app_nil_r.
      rewrite <- !app_assoc. done.
    + rewrite fmap_app, concat_app, length_app. simpl. rewrite app_nil_r. lia.
    + rewrite fmap_app, concat_app, length_app. simpl. rewrite app_nil_r. lia.
Qed.

(** X8: [curry(f)] for an [f] of [n] declared parameters collects its
    arguments over any number of calls, of any number of arguments each
    (none included): as long as fewer than [n] have come it returns a
    function, and the call that brings the count to [n] or above invokes
    [f] once, on all the arguments in order, with the [this] of the first
    call. *)
Theorem curry_collects_arguments n body calls this args :
  List.length (Env.collected calls) < n ->
  n <= List.length (Env.collected calls) + List.length args ->
  feed (RFn (curry (Plain n None body))) (calls ++ [(this, args)])
  = body (Env.bound_this calls this) (Env.collected calls ++ args) /\
  exists g, feed (RFn (curry (Plain n None body))) calls = Ok (RFn g).
Proof.
  intros Hlt Hle. split.
  - apply (feed_curry_partially n body this args calls []); simpl; lia.
  - clear Hle. change (Plain n None body) with (Env.partially (Plain n None body) []).
    assert (List.length (Env.collected ([] : list (value * list value)))
            + List.length (Env.collected calls) < n) as Hlt' by (simpl; lia).
    clear Hlt. revert Hlt'. generalize ([] : list (value * list value)) as steps.
    induction calls as [|[o bs] calls IH]; intros steps Hlt.
    + by eexists.
    + cbn [feed]. rewrite Env.call_curry_partially.
      unfold Env.collected in *. cbn [fmap list_fmap snd concat] in *.
      rewrite length_app in Hlt.
      rewrite decide_False by lia. cbn [mbind result_bind].
      apply IH. rewrite fmap_app, concat_app, length_app. simpl.
      rewrite app_nil_r. lia.
Qed.

Lemma curry_collects_arguments_witness :
  feed (RFn (curry Env.pair_impl)) [(VNum 1, []); (VNum 2, [VNum 5]); (VNum 3, [VNum 6])]
  = Ok (RVal (VArr [VNum 5; VNum 6])).
Proof.
  destruct (curry_collects_arguments 2
              (fun _ args => Ok (RVal (VArr [arg 0 args; arg 1 args])))
              [(VNum 1, []); (VNum 2, [VNum 5])] (VNum 3) [VNum 6]) as [H _].
  - simpl. lia.
  - simpl. lia.
  - exact H.
Defined.

End Helpers.

(** ** The instances for arrays, and [sequence] *)

Module Arrays.

(** [accum.concat(v)]: an array is spliced in, any other value is appended. *)
Definition concat_value (accum : list value) (v : value) : list value :=
  match v with
  | VArr ys => accum ++ ys
  | _ => accum ++ [v]
  end.

(** The loops of the implementations, over the callback [b] (or [c]):
    [for(i = 0; i < a.length; i++) b = c(b, a[i])],
    [for(..) accum = accum.concat(b(a[i]))] and
    [for(..) accum[i] = b(a[i])]. *)
Fixpoint fold_loop (c : value -> value -> result value) (a : list value)
    (b : value) : result value :=
  match a with
  | [] => Ok b
  | x :: a' => b' ← c b x; fold_loop c a' b'
  end.

Fixpoint flatMap_loop (b : value -> result value) (a : list value)
    (accum : list value) : result (list value) :=
  match a with
  | [] => Ok accum
  | x :: a' => y ← b x; flatMap_loop b a' (concat_value accum y)
  end.

Fixpoint map_loop (b : value -> result value) (a : list value)
    (accum : list value) : result (list value) :=
  match a with
  | [] => Ok accum
  | x :: a' => y ← b x; map_loop b a' (accum ++ [y])
  end.

(** The loops of [ap]:
    [for(i..) for(j = 0; j < b.length; j++) accum.push(a[i](b[j]))].
    [b.length] is read when the inner loop starts, once for every element
    of [a]; what [b] has for elements is as [zip] reads it. *)
Fixpoint ap_inner (fn : value -> result value) (bs : list value)
    (accum : list value) : result (list value) :=
  match bs with
  | [] => Ok accum
  | y :: bs' => r ← fn y; ap_inner fn bs' (accum ++ [r])
  end.

Fixpoint ap_loop (app : value -> value -> result value) (a : list value)
    (b : value) (accum : list value) : result (list value) :=
  match a with
  | [] => Ok accum
  | fn :: a' =>
      bs ← Equal.elements b;
      accum' ← ap_inner (app fn) bs accum;
      ap_loop app a' b accum'
  end.

(** [env.flatMap(v, b)] and [env.pure(m, v)] as the library itself calls
    them, with a closure for [b]: the dispatch on the first argument.  No
    implementation of [flatMap] accepts a primitive; the instances for
    options, eithers and [io] are not followed here. *)
Definition flatMap_closure (v : value) (b : value -> result value) : result value :=
  match v with
  | VArr a => r ← flatMap_loop b a []; Ok (VArr r)
  | VUndef | VNull | VBool _ | VNum _ | VStr _ => Throw not_implemented
  | VData _ _ | VFun _ | VRef _ => NoAnswer
  end.

Definition pure_closure (m : value) (v : value) : result value :=
  match m with
  | VFun "Array" => Ok (VArr [v])
  | _ => NoAnswer
  end.

(** [env.sequence(m, a)] for an array [a]:
    [if(!a.length) return env.pure(m, []);
     return env.flatMap(a[0], function(x) {
       return env.flatMap(env.sequence(m, a.slice(1)), function(y) {
         return env.pure(m, [x].concat(y)); }); })] *)
Fixpoint sequence (m : value) (a : list value) : result value :=
  match a with
  | [] => pure_closure m (VArr [])
  | a0 :: rest =>
      flatMap_closure a0 (fun x =>
        s ← sequence m rest;
        flatMap_closure s (fun y => pure_closure m (VArr (concat_value [x] y))))
  end.

(** All the ways to pick one element from each list, the first list
    varying slowest. *)
Fixpoint choices (xss : list (list value)) : list (list value) :=
  match xss with
  | [] => [[]]
  | xs :: rest => x ← xs; ys ← choices rest; [x :: ys]
  end.

(** What [concat] adds for a value. *)
Definition items (v : value) : list value :=
  match v with
  | VArr ys => ys
  | _ => [v]
  end.

(** A sample of function values: [inc] adds one to a number, [dup] returns
    [[x, x]], and nothing else is a function. *)
Definition sample_apply (fn : value) (args : list value) : result value :=
  match fn, args with
  | VFun "inc", [VNum n] => Ok (VNum (n + 1))
  | VFun "dup", [x] => Ok (VArr [x; x])
  | _, _ => Throw (TypeError "not a function")
  end.

Section instances.

(** What a function value returns when it is applied is left open, and so
    are the implementations registered for functions and those registered
    after the ones for arrays. *)
Variable apply_function : value -> list value -> result value.
Variables map_function ap_function : callable.
Variables fold_rest flatMap_rest map_rest ap_rest : list (option registration).

Definition callback (fn : value) (x : value) : result value :=
  apply_function fn [x].

(** The implementations registered for arrays; they are reached for an
    array [a] only. *)
Definition fold_array : callable :=
  Plain 3 None (fun _ args =>
    match arg 0 args with
    | VArr a =>
        r ← fold_loop (fun b x => apply_function (arg 2 args) [b; x]) a (arg 1 args);
        Ok (RVal r)
    | _ => NoAnswer
    end).

Definition flatMap_array : callable :=
  Plain 2 None (fun _ args =>
    match arg 0 args with
    | VArr a => r ← flatMap_loop (callback (arg 1 args)) a []; Ok (RVal (VArr r))
    | _ => NoAnswer
    end).

Definition map_array : callable :=
  Plain 2 None (fun _ args =>
    match arg 0 args with
    | VArr a => r ← map_loop (callback (arg 1 args)) a []; Ok (RVal (VArr r))
    | _ => NoAnswer
    end).

Definition ap_array : callable :=
  Plain 2 None (fun _ args =>
    match arg 0 args with
    | VArr a => r ← ap_loop callback a (arg 1 args) []; Ok (RVal (VArr r))
    | _ => NoAnswer
    end).

Definition fold_registrations : list (option registration) :=
  Some (Registration isArray fold_array) :: fold_rest.
Definition flatMap_registrations : list (option registration) :=
  Some (Registration isArray flatMap_array) :: flatMap_rest.
Definition map_registrations : list (option registration) :=
  Some (Registration isFunction map_function) ::
  Some (Registration isArray map_array) :: map_rest.
Definition ap_registrations : list (option registration) :=
  Some (Registration isFunction ap_function) ::
  Some (Registration isArray ap_array) :: ap_rest.

(** [env.fold(args..)], [env.flatMap(args..)], [env.map(args..)] and
    [env.ap(args..)]. *)
Definition fold (this : value) (args : list value) : result ret :=
  call (makeMethod fold_registrations) this args.
Definition flatMap (this : value) (args : list value) : result ret :=
  call (makeMethod flatMap_registrations) this args.
Definition map (this : value) (args : list value) : result ret :=
  call (makeMethod map_registrations) this args.
Definition ap (this : value) (args : list value) : result ret :=
  call (makeMethod ap_registrations) this args.

End instances.

(** *** The loops *)


Lemma map_loop_spec b a : forall accum r,
  map_loop b a accum = Ok r <->
  exists ys, Forall2 (fun x y => b x = Ok y) a ys /\ r = accum ++ ys.
Proof.
  induction a as [|x a IH]; intros accum r; simpl.
  - split.
    + intros [= <-]. exists []. split; [constructor|by rewrite app_nil_r].
    + intros (ys & Hys & ->). inversion_clear Hys. by rewrite app_nil_r.
  - destruct (b x) as [y| |] eqn:E; simpl.
    + rewrite IH. split.
      * intros (ys & Hys & ->). exists (y :: ys). split; [by constructor|].
        by rewrite <- app_assoc.
      * intros (ys & Hys & ->). inversion Hys as [|? y' ? ys' Hy Hys']; subst.
        exists ys'. split; [done|]. rewrite <- app_assoc. simpl. congruence.
    + split; [done|]. intros (ys & Hys & _). inversion Hys; congruence.
    + split; [done|]. intros (ys & Hys & _). inversion Hys; congruence.
Qed.

Lemma map_loop_throws b a e : forall accum i x,
  a !! i = Some x -> b x = Throw e ->
  (forall j y, j < i -> a !! j = Some y -> exists z, b y = Ok z) ->
  map_loop b a accum = Throw e.
Proof.
  induction a as [|x0 a IH]; intros accum i x Hi Hx Hbefore; [done|].
  destruct i as [|i]; simpl in *.
  - simplify_eq. by rewrite Hx.
  - destruct (Hbefore 0 x0) as [z Hz]; [lia|done|]. rewrite Hz. simpl.
    apply (IH _ i x); [done|done|].
    intros j y Hj Hy. apply (Hbefore (S j) y); [lia|done].
Qed.

Lemma flatMap_loop_accum b a : forall accum,
  flatMap_loop b a accum = (r ← flatMap_loop b a []; Ok (accum ++ r)).
Proof.
  induction a as [|x a IH]; intros accum; simpl.
  - by rewrite app_nil_r.
  - destruct (b x) as [y| |]; simpl; [|done..].
    rewrite (IH (concat_value accum y)), (IH (concat_value [] y)).
    destruct (flatMap_loop b a []) as [r| |]; simpl; [|done..].
    destruct y; simpl; by rewrite <- ?app_assoc.
Qed.

Lemma flatMap_loop_app b a1 a2 : forall accum,
  flatMap_loop b (a1 ++ a2) accum
  = (r ← flatMap_loop b a1 accum; flatMap_loop b a2 r).
Proof.
  induction a1 as [|x a1 IH]; intros accum; [done|]. simpl.
  destruct (b x) as [y| |]; simpl; [apply IH|done..].
Qed.

Lemma flatMap_loop_spec b (g : value -> value) a : forall accum,
  (forall x, x ∈ a -> b x = Ok (g x)) ->
  flatMap_loop b a accum = Ok (accum ++ (x ← a; items (g x))).
Proof.
  induction a as [|x a IH]; intros accum Hb; simpl.
  - by rewrite app_nil_r.
  - rewrite (Hb x) by apply list_elem_of_here. simpl.
    rewrite IH by (intros x' Hx'; by apply Hb, list_elem_of_further).
    destruct (g x); simpl; by rewrite <- ?app_assoc.
Qed.

Lemma ap_inner_spec fn (h : value -> value) bs : forall accum,
  (forall y, y ∈ bs -> fn y = Ok (h y)) ->
  ap_inner fn bs accum = Ok (accum ++ (h <$> bs)).
Proof.
  induction bs as [|y bs IH]; intros accum Hfn; simpl.
  - by rewrite app_nil_r.
  - rewrite (Hfn y) by apply list_elem_of_here. simpl.
    rewrite IH by (intros y' Hy'; by apply Hfn, list_elem_of_further).
    by rewrite <- app_assoc.
Qed.

Lemma ap_loop_spec app (g : value -> value -> value) a bs : forall accum,
  (forall fn y, fn ∈ a -> y ∈ bs -> app fn y = Ok (g fn y)) ->
  ap_loop app a (VArr bs) accum = Ok (accum ++ (fn ← a; g fn <$> bs)).
Proof.
  induction a as [|fn a IH]; intros accum Happ; simpl.
  - by rewrite app_nil_r.
  - rewrite (ap_inner_spec _ (g fn)); first last.
    { intros y Hy. apply Happ; [apply list_elem_of_here|done]. }
    simpl. rewrite IH; first last.
    { intros fn' y Hfn' Hy. apply Happ; [by apply list_elem_of_further|done]. }
    by rewrite <- app_assoc.
Qed.

Lemma length_bind_const {A B : Type} (f : A -> list B) (l : list A) n :
  (forall x, x ∈ l -> List.length (f x) = n) ->
  List.length (l ≫= f) = List.length l * n.
Proof.
  induction l as [|x l IH]; intros Hf; [done|]. rewrite bind_cons.
  rewrite length_app, (Hf x) by apply list_elem_of_here. simpl.
  rewrite IH; [lia|]. intros x' Hx'. by apply Hf, list_elem_of_further.
Qed.

Lemma bind_singletons (a : list value) : (x ← a; items (VArr [x])) = a.
Proof.
  induction a as [|x a IH]; [done|]. rewrite bind_cons. simpl. by f_equal.
Qed.

Lemma flatMap_loop_plain b a : forall accum,
  (forall x, x ∈ a -> exists y, b x = Ok y /\ forall ys, y <> VArr ys) ->
  flatMap_loop b a accum = map_loop b a accum.
Proof.
  induction a as [|x a IH]; intros accum Hplain; [done|]. simpl.
  destruct (Hplain x) as (y & Hy & Hno); [apply list_elem_of_here|].
  rewrite Hy. simpl.
  rewrite <- IH by (intros x' Hx'; by apply Hplain, list_elem_of_further).
  f_equal. destruct y; try done. by destruct (Hno xs).
Qed.

Lemma choices_length (xss : list (list value)) :
  List.length (choices xss) = foldr (fun xs n => List.length xs * n) 1 xss.
Proof.
  induction xss as [|xs xss IH]; [done|]. simpl.
  rewrite (length_bind_const _ xs (List.length (choices xss))); [by rewrite IH|].
  intros x _. rewrite (length_bind_const _ (choices xss) 1); [lia|done].
Qed.

Lemma sequence_rows (rest : list (list value)) (x : value) :
  flatMap_loop (fun y => pure_closure (VFun "Array") (VArr (concat_value [x] y)))
    (VArr <$> choices rest) []
  = Ok (VArr <$> (ys ← choices rest; [x :: ys])).
Proof.
  rewrite (flatMap_loop_spec _
             (fun y => VArr [VArr (concat_value [x] y)]) (VArr <$> choices rest)) by done.
  simpl. f_equal. induction (choices rest) as [|ys l IH]; [done|].
  rewrite fmap_cons, !bind_cons, fmap_app. simpl. by rewrite IH.
Qed.

Section laws.

Variable apply_function : value -> list value -> result value.
Variables map_function ap_function : callable.
Variables fold_rest flatMap_rest map_rest ap_rest : list (option registration).

Abbreviation fold := (fold apply_function fold_rest).
Abbreviation flatMap := (flatMap apply_function flatMap_rest).
Abbreviation map := (map apply_function map_function map_rest).
Abbreviation ap := (ap apply_function ap_function ap_rest).

(** X9: [env.map] of an array returns an array exactly when the callback
    returns for every element, and then holds the results in order, one for
    each element; when the callback throws, the exception of the first
    element it throws on comes out of [map]. *)
Theorem map_array_pointwise this (a : list value) (fn : value) :
  (forall r,
     map this [VArr a; fn] = Ok (RVal (VArr r)) <->
     Forall2 (fun x y => apply_function fn [x] = Ok y) a r) /\
  (forall i x e,
     a !! i = Some x -> apply_function fn [x] = Throw e ->
     (forall j y, j < i -> a !! j = Some y -> exists z, apply_function fn [y] = Ok z) ->
     map this [VArr a; fn] = Throw e).
Proof.
  assert (map this [VArr a; fn]
          = (r ← map_loop (callback apply_function fn) a []; Ok (RVal (VArr r))))
    as Hmap by reflexivity.
  split.
  - intros r. rewrite Hmap. split.
    + destruct (map_loop _ a []) as [r'| |] eqn:E; simpl; [|done..].
      intros [= <-]. apply map_loop_spec in E as (ys & Hys & ->). done.
    + intros Hr.
      assert (map_loop (callback apply_function fn) a [] = Ok r) as ->; [|done].
      apply map_loop_spec. by exists r.
  - intros i x e Hi Hx Hbefore. rewrite Hmap.
    by rewrite (map_loop_throws _ _ e [] i x).
Qed.

(** X10: [env.flatMap] of an array appends what the callback returns for
    each element, splicing in a returned array and appending any other
    value as one element.  So [flatMap(a, x => [x])] is [a]; and with a
    callback that returns no arrays, [flatMap] is [map]. *)
Theorem flatMap_array_concatenates this (a : list value) (fn : value) :
  (forall g : value -> value,
     (forall x, x ∈ a -> apply_function fn [x] = Ok (g x)) ->
     flatMap this [VArr a; fn] = Ok (RVal (VArr (x ← a; items (g x))))) /\
  ((forall x, x ∈ a -> apply_function fn [x] = Ok (VArr [x])) ->
     flatMap this [VArr a; fn] = Ok (RVal (VArr a))) /\
  ((forall x, x ∈ a ->
      exists y, apply_function fn [x] = Ok y /\ forall ys, y <> VArr ys) ->
     flatMap this [VArr a; fn] = map this [VArr a; fn]).
Proof.
  assert (flatMap this [VArr a; fn]
          = (r ← flatMap_loop (callback apply_function fn) a []; Ok (RVal (VArr r))))
    as Hrun by reflexivity.
  assert (map this [VArr a; fn]
          = (r ← map_loop (callback apply_function fn) a []; Ok (RVal (VArr r))))
    as Hmap by reflexivity.
  split; [|split].
  - intros g Hg. rewrite Hrun. by rewrite (flatMap_loop_spec _ g).
  - intros Hid. rewrite Hrun.
    rewrite (flatMap_loop_spec _ (fun x => VArr [x])) by done. simpl.
    by rewrite bind_singletons.
  - intros Hplain. rewrite Hrun, Hmap. by rewrite flatMap_loop_plain.
Qed.

(** X11: for a callback [f] that returns arrays, [flatMap] of arrays is
    associative: [flatMap(flatMap(a, f), g)] is
    [flatMap(a, x => flatMap(f(x), g))], exceptions of [g] included. *)
Theorem flatMap_array_associative (a : list value) (f g : value -> result value)
    (f' : value -> list value) :
  (forall x, x ∈ a -> f x = Ok (VArr (f' x))) ->
  (s ← flatMap_closure (VArr a) f; flatMap_closure s g)
  = flatMap_closure (VArr a) (fun x => y ← f x; flatMap_closure y g).
Proof.
  intros Hf. simpl.
  rewrite (flatMap_loop_spec f (fun x => VArr (f' x))) by done. simpl.
  assert (forall accum,
            (r ← flatMap_loop g (x ← a; f' x) []; Ok (accum ++ r))
            = flatMap_loop (fun x => y ← f x; flatMap_closure y g) a accum) as H.
  { induction a as [|x a IH]; intros accum.
    - simpl. by rewrite app_nil_r.
    - rewrite bind_cons, flatMap_loop_app. simpl.
      rewrite (Hf x) by apply list_elem_of_here. simpl.
      destruct (flatMap_loop g (f' x) []) as [r| |] eqn:E; simpl; [|done..].
      rewrite <- IH by (intros x' Hx'; by apply Hf, list_elem_of_further).
      rewrite (flatMap_loop_accum g (a ≫= f') r).
      destruct (flatMap_loop g (a ≫= f') []) as [r'| |]; simpl; [|done..].
      by rewrite app_assoc. }
  rewrite <- (H []).
  by destruct (flatMap_loop g (a ≫= f') []).
Qed.

(** X12: [env.ap] of an array of functions and an array of arguments
    returns every function applied to every argument, the functions varying
    slowest: as many results as the product of the two lengths.  For an
    empty array of functions the second argument is not looked at; for a
    non-empty one, a second argument that is [undefined] is a [TypeError]. *)
Theorem ap_array_all_pairs this (fs xs : list value) :
  (forall g : value -> value -> value,
     (forall fn x, fn ∈ fs -> x ∈ xs -> apply_function fn [x] = Ok (g fn x)) ->
     ap this [VArr fs; VArr xs] = Ok (RVal (VArr (fn ← fs; g fn <$> xs))) /\
     List.length (fn ← fs; g fn <$> xs) = List.length fs * List.length xs) /\
  (forall b, ap this [VArr []; b] = Ok (RVal (VArr []))) /\
  (fs <> [] ->
   ap this [VArr fs; VUndef]
   = Throw (TypeError "Cannot read property 'length' of undefined")).
Proof.
  split; [|split].
  - intros g Hg. split.
    + change (ap this [VArr fs; VArr xs])
        with (r ← ap_loop (callback apply_function) fs (VArr xs) []; Ok (RVal (VArr r))).
      by rewrite (ap_loop_spec _ g).
    + apply length_bind_const. intros fn _. by rewrite length_fmap.
  - done.
  - by destruct fs.
Qed.

(** X13: [sequence(Array, a)] of an array of arrays returns all the ways
    to pick one element from each, in order, the first array varying
    slowest: [[[]]] for no arrays, and as many rows as the product of the
    lengths. *)
Theorem sequence_array_choices (xss : list (list value)) :
  sequence (VFun "Array") (VArr <$> xss) = Ok (VArr (VArr <$> choices xss)) /\
  List.length (choices xss) = foldr (fun xs n => List.length xs * n) 1 xss.
Proof.
  split; [|apply choices_length].
  induction xss as [|xs xss IH]; [done|].
  cbn [fmap list_fmap sequence flatMap_closure]. rewrite IH. cbn [mbind result_bind].
  rewrite (flatMap_loop_spec _
             (fun x => VArr (VArr <$> (ys ← choices xss; [x :: ys])))).
  - simpl. do 2 f_equal. induction xs as [|x xs IHxs]; [done|].
    rewrite !bind_cons, fmap_app. simpl. by rewrite IHxs.
  - intros x _. cbn [mbind result_bind flatMap_closure]. by rewrite sequence_rows.
Qed.


End laws.

Lemma map_array_pointwise_witness :
  map sample_apply Helpers.identity [] VUndef [VArr [VNum 1; VNum 2]; VFun "inc"]
  = Ok (RVal (VArr [VNum 2; VNum 3])) /\
  map sample_apply Helpers.identity [] VUndef
    [VArr [VNum 1; VStr "a"; VNum 2]; VFun "inc"]
  = Throw (TypeError "not a function").
Proof.
  split.
  - apply (map_array_pointwise sample_apply Helpers.identity [] VUndef
             [VNum 1; VNum 2] (VFun "inc")).
    repeat constructor.
  - destruct (map_array_pointwise sample_apply Helpers.identity [] VUndef
                [VNum 1; VStr "a"; VNum 2] (VFun "inc")) as [_ H].
    apply (H 1 (VStr "a")); [reflexivity|reflexivity|].
    intros [|j] y Hj Hy; [|lia]. simplify_eq/=. by eexists.
Defined.

Lemma flatMap_array_concatenates_witness :
  flatMap sample_apply [] VUndef [VArr [VNum 1; VNum 2]; VFun "dup"]
  = Ok (RVal (VArr [VNum 1; VNum 1; VNum 2; VNum 2])) /\
  flatMap sample_apply [] VUndef [VArr [VNum 1; VNum 2]; VFun "inc"]
  = map sample_apply Helpers.identity [] VUndef [VArr [VNum 1; VNum 2]; VFun "inc"].
Proof.
  destruct (flatMap_array_concatenates sample_apply Helpers.identity [] [] VUndef
              [VNum 1; VNum 2] (VFun "dup")) as (H1 & _ & _).
  destruct (flatMap_array_concatenates sample_apply Helpers.identity [] [] VUndef
              [VNum 1; VNum 2] (VFun "inc")) as (_ & _ & H3).
  split.
  - by apply (H1 (fun x => VArr [x; x])).
  - apply H3.
    intros x [->|[->|[]%elem_of_nil]%elem_of_cons]%elem_of_cons;
      (eexists; split; [reflexivity|done]).
Defined.

Lemma flatMap_array_associative_witness :
  (s ← flatMap_closure (VArr [VNum 1; VNum 2]) (fun x => Ok (VArr [x; x]));
   flatMap_closure s (fun x => Ok (VArr [x])))
  = Ok (VArr [VNum 1; VNum 1; VNum 2; VNum 2]).
Proof.
  rewrite (flatMap_array_associative [VNum 1; VNum 2]
             (fun x => Ok (VArr [x; x])) (fun x => Ok (VArr [x]))
             (fun x => [x; x])).
  - reflexivity.
  - done.
Defined.

Lemma ap_array_all_pairs_witness :
  ap sample_apply Helpers.identity [] VUndef
    [VArr [VFun "inc"; VFun "dup"]; VArr [VNum 1; VNum 2]]
  = Ok (RVal (VArr [VNum 2; VNum 3; VArr [VNum 1; VNum 1]; VArr [VNum 2; VNum 2]])).
Proof.
  destruct (ap_array_all_pairs sample_apply Helpers.identity [] VUndef
              [VFun "inc"; VFun "dup"] [VNum 1; VNum 2]) as (H & _ & _).
  destruct (H (fun fn x => match sample_apply fn [x] with
                           | Ok y => y
                           | _ => VUndef
                           end)) as [H1 _]; [|exact H1].
  intros fn x [->|[->|[]%elem_of_nil]%elem_of_cons]%elem_of_cons
              [->|[->|[]%elem_of_nil]%elem_of_cons]%elem_of_cons; reflexivity.
Defined.

End Arrays.

(** ** Further facts about [equal] and [zip] *)

Module EqualLaws.

(** The values that [equal] has registrations for, at every level: the
    booleans, numbers and strings, and the arrays of such values. *)
Fixpoint plain (v : value) : bool :=
  match v with
  | VBool _ | VNum _ | VStr _ => true
  | VArr xs => forallb plain xs
  | _ => false
  end.

(** How deep the arrays of a value nest. *)
Fixpoint depth (v : value) : nat :=
  match v with
  | VArr xs => S (foldr (fun x n => depth x `max` n) 0 xs)
  | _ => 0
  end.

Lemma depth_elem x xs : x ∈ xs -> depth x < depth (VArr xs).
Proof.
  intros Hx. simpl. apply Nat.lt_succ_r.
  induction Hx as [x xs|x y xs _ IH]; simpl; lia.
Qed.

Lemma plain_elem x xs : plain (VArr xs) = true -> x ∈ xs -> plain x = true.
Proof.
  simpl. intros Hall Hx. rewrite forallb_forall in Hall.
  by apply Hall, list_elem_of_In.
Qed.

(** X15: [equal(v, v)] is [true] for every boolean, number and string and
    every array of such values, however nested (given fuel for the
    nesting). *)
Theorem equal_reflexive n this (v : value) :
  plain v = true -> depth v < n ->
  Equal.equal n this [v; v] = Ok (RVal (VBool true)).
Proof.
  revert v. induction n as [|n IH]; intros v Hplain Hdepth; [lia|].
  destruct v as [| |b|z|s|xs| | |]; try done.
  - change (Equal.equal (S n) this [VBool b; VBool b])
      with (Ok (RVal (VBool (Bool.eqb b b))) : result ret).
    by rewrite Bool.eqb_reflx.
  - change (Equal.equal (S n) this [VNum z; VNum z])
      with (Ok (RVal (VBool (z =? z)%Z)) : result ret).
    by rewrite Z.eqb_refl.
  - change (Equal.equal (S n) this [VStr s; VStr s])
      with (Ok (RVal (VBool (String.eqb s s))) : result ret).
    by rewrite String.eqb_refl.
  - rewrite Equal.equal_on_arrays. apply Equal.fold_array_true.
    intros t (i & x & y & Hx & Hy & ->)%Equal.zip_lookup.
    simplify_eq. unfold Equal.compare_pair. simpl.
    apply list_elem_of_lookup_2 in Hx.
    apply IH; [by apply (plain_elem x xs)|].
    pose proof (depth_elem x xs Hx). lia.
Qed.

Lemma equal_reflexive_witness :
  Equal.equal 3 VUndef
    [VArr [VNum 1; VArr [VStr "a"; VBool true]];
     VArr [VNum 1; VArr [VStr "a"; VBool true]]]
  = Ok (RVal (VBool true)).
Proof.
  apply (equal_reflexive 3 VUndef (VArr [VNum 1; VArr [VStr "a"; VBool true]])).
  - reflexivity.
  - simpl. lia.
Defined.

(** X16: [equal] is not symmetric.  With an array first and a number or a
    boolean second it is [true], whatever the array holds ([zip] finds no
    [length] in the second argument and returns no pair); the other way
    round it is [false].  With an array first and [undefined] second it is
    a [TypeError]; with [undefined] first no registration accepts. *)
Theorem equal_array_with_primitive n this (xs : list value) :
  (forall z,
     Equal.equal (S n) this [VArr xs; VNum z] = Ok (RVal (VBool true)) /\
     Equal.equal (S n) this [VNum z; VArr xs] = Ok (RVal (VBool false))) /\
  (forall b,
     Equal.equal (S n) this [VArr xs; VBool b] = Ok (RVal (VBool true)) /\
     Equal.equal (S n) this [VBool b; VArr xs] = Ok (RVal (VBool false))) /\
  Equal.equal (S n) this [VArr xs; VUndef]
  = Throw (TypeError "Cannot read property 'length' of undefined") /\
  Equal.equal (S n) this [VUndef; VArr xs] = Throw not_implemented.
Proof.
  split; [|split; [|split]].
  - intros z. split; [by destruct xs|reflexivity].
  - intros b. split; [by destruct xs|reflexivity].
  - reflexivity.
  - reflexivity.
Qed.

(** X17: [zip(a, b)] has as many pairs as the shorter of [a] and [b], and
    its pair at [i] is [[a[i], b[i]]]; what the longer one has beyond is
    left out. *)
Theorem zip_stops_at_shorter (a b : list value) :
  List.length (Equal.zip a b) = List.length a `min` List.length b /\
  forall i,
    Equal.zip a b !! i
    = match a !! i, b !! i with
      | Some x, Some y => Some (VArr [x; y])
      | _, _ => None
      end.
Proof.
  revert b. induction a as [|x a IH]; intros b.
  - split; [done|]. by intros [|i].
  - destruct b as [|y b].
    + split; [done|]. intros i. by destruct ((x :: a) !! i).
    + destruct (IH b) as [Hlen Hi]. split; [simpl; by rewrite Hlen|].
      intros [|i]; [done|]. apply Hi.
Qed.

End EqualLaws.

(** ** Shrinking a failing input: [findSmallest] *)

Module Check.

(** [env.map(inputs, env.shrink)]: [shrink] is called on each input in
    order, as a plain function; the first exception comes out. *)
Fixpoint shrink_all (inputs : list value) : result (list ret) :=
  match inputs with
  | [] => Ok []
  | x :: rest => s ← Shrink.shrink VUndef x; ss ← shrink_all rest; Ok (s :: ss)
  end.

(** What the inner loop reads of [shrunken[i]]: its [length] and its
    elements.  [shrink] returns an array, or (for a boolean) a function: a
    function has its declared parameter count for [length], and
    [undefined] at every index. *)
Definition candidates (s : ret) : result (list value) :=
  match s with
  | inl (VArr cs) => Ok cs
  | inr g => Ok (replicate (js_length g) VUndef)
  | inl _ => NoAnswer
  end.

(** The inner loop, for the position [i]:
    [for(j..) { args[i] = shrunken[i][j];
                if(property.apply(this, args)) break;
                smallest[i] = shrunken[i][j]; }]
    It returns what [smallest[i]] is in the end. *)
Fixpoint try_candidates (property : callable) (args : list value) (i : nat)
    (cs : list value) (smallest_i : value) : result value :=
  match cs with
  | [] => Ok smallest_i
  | c :: cs' =>
      r ← call property VUndef (<[i := c]> args);
      if truthy_ret r then Ok smallest_i
      else try_candidates property (<[i := c]> args) i cs' c
  end.

(** The outer loop: [args = [].concat(smallest)] and the inner loop, for
    each position in turn. *)
Fixpoint shrink_positions (property : callable) (shrunken : list ret) (i : nat)
    (smallest : list value) : result (list value) :=
  match shrunken with
  | [] => Ok smallest
  | s :: rest =>
      cs ← candidates s;
      v ← try_candidates property smallest i cs (nth i smallest VUndef);
      shrink_positions property rest (S i) (<[i := v]> smallest)
  end.

(** [findSmallest(env, property, inputs)] *)
Definition findSmallest (property : callable) (inputs : list value)
    : result (list value) :=
  shrunken ← shrink_all inputs;
  shrink_positions property shrunken 0 inputs.

(** The property does not hold of the arguments. *)
Definition fails (property : callable) (args : list value) : Prop :=
  exists r, call property VUndef args = Ok r /\ truthy_ret r = false.

(** [function(n) { return n < 5; }] *)
Definition below_five : callable :=
  Plain 1 None (fun _ args =>
    Ok (RVal (VBool match arg 0 args with VNum n => (n <? 5)%Z | _ => false end))).


(** The inputs that [shrink] has a registration for. *)
Definition shrinkable (v : value) : bool :=
  match v with
  | VBool _ | VNum _ | VStr _ | VArr _ => true
  | _ => false
  end.

Section rounds.

(** [generateInputs(this, args, i)] draws the inputs of round [i] at
    random: what each round draws is left open. *)
Variable generate : nat -> result (list value).

(** [this.forAll(property, args)] with [this.goal] rounds to go from round
    [i]:
    [for(..; i < this.goal; i++) {
       inputs = generateInputs(this, args, i);
       if(!property.apply(this, inputs))
         return some(failureReporter(findSmallest(this, property, inputs), i)); }
     return none]
    The result is [None] for [none], and the [inputs] and [tries] of the
    reporter otherwise. *)
Fixpoint forAll_from (this : value) (property : callable) (i rounds : nat)
    : result (option (list value * nat)) :=
  match rounds with
  | 0 => Ok None
  | S rounds' =>
      inputs ← generate i;
      r ← call property this inputs;
      if truthy_ret r then forAll_from this property (S i) rounds'
      else smallest ← findSmallest property inputs; Ok (Some (smallest, i))
  end.

Definition forAll (this : value) (property : callable) (goal : nat)
    : result (option (list value * nat)) :=
  forAll_from this property 0 goal.

(** Round [i] draws inputs of which the property, called as [forAll] calls
    it, holds. *)
Definition round_passes (this : value) (property : callable) (i : nat) : Prop :=
  exists inputs r,
    generate i = Ok inputs /\ call property this inputs = Ok r /\
    truthy_ret r = true.

End rounds.

Lemma shrink_all_length inputs : forall shrunken,
  shrink_all inputs = Ok shrunken -> List.length shrunken = List.length inputs.
Proof.
  induction inputs as [|x inputs IH]; intros shrunken; simpl.
  - by intros [= <-].
  - destruct (Shrink.shrink VUndef x) as [s| |]; simpl; [|done..].
    destruct (shrink_all inputs) as [ss| |]; simpl; [|done..].
    intros [= <-]. simpl. by rewrite (IH ss).
Qed.

Lemma shrink_all_lookup inputs : forall shrunken i s,
  shrink_all inputs = Ok shrunken -> shrunken !! i = Some s ->
  exists x, inputs !! i = Some x /\ Shrink.shrink VUndef x = Ok s.
Proof.
  induction inputs as [|x inputs IH]; intros shrunken i s; simpl.
  - by intros [= <-].
  - destruct (Shrink.shrink VUndef x) as [s0| |] eqn:E; simpl; [|done..].
    destruct (shrink_all inputs) as [ss| |]; simpl; [|done..].
    intros [= <-]. destruct i as [|i]; simpl.
    + intros [= <-]. by exists x.
    + by apply IH.
Qed.

(** The inner loop returns the start value, or a candidate on which the
    property fails. *)
Lemma try_candidates_spec property i : forall cs args v0 v,
  try_candidates property args i cs v0 = Ok v ->
  v = v0 \/ (v ∈ cs /\ fails property (<[i := v]> args)).
Proof.
  induction cs as [|c cs IH]; intros args v0 v; simpl.
  - intros [= <-]. by left.
  - destruct (call property VUndef (<[i := c]> args)) as [r| |] eqn:E; simpl; [|done..].
    destruct (truthy_ret r) eqn:Er.
    + intros [= <-]. by left.
    + intros Hrun. apply IH in Hrun as [->|[Hin Hfail]].
      * right. split; [apply list_elem_of_here|]. by exists r.
      * right. split; [by apply list_elem_of_further|].
        by rewrite list_insert_insert_eq in Hfail.
Qed.

Lemma insert_nth_id (l : list value) i d : <[i := nth i l d]> l = l.
Proof.
  destruct (decide (i < List.length l)) as [Hi|Hi].
  - destruct (lookup_lt_is_Some_2 l i Hi) as [y Hy].
    rewrite (nth_lookup_Some _ _ d _ Hy). by apply list_insert_id.
  - apply list_insert_ge. lia.
Qed.

Lemma shrink_positions_spec property : forall shrunken i smallest res,
  shrink_positions property shrunken i smallest = Ok res ->
  fails property smallest ->
  List.length res = List.length smallest /\
  fails property res /\
  forall k v, res !! k = Some v ->
    smallest !! k = Some v \/
    exists s cs, i <= k /\ shrunken !! (k - i) = Some s /\
                 candidates s = Ok cs /\ v ∈ cs.
Proof.
  induction shrunken as [|s shrunken IH]; intros i smallest res; simpl.
  - intros [= <-] Hfail. split; [done|]. split; [done|]. intros k v Hk. by left.
  - destruct (candidates s) as [cs| |] eqn:Ecs; simpl; [|done..].
    destruct (try_candidates property smallest i cs (nth i smallest VUndef))
      as [v| |] eqn:Etry; simpl; [|done..].
    intros Hrun Hfail.
    apply try_candidates_spec in Etry.
    assert (fails property (<[i := v]> smallest)) as Hfail'.
    { destruct Etry as [->|[_ ?]]; [|done]. by rewrite insert_nth_id. }
    destruct (IH _ _ _ Hrun Hfail') as (Hlen & Hres & Hpos).
    rewrite length_insert in Hlen. split; [done|]. split; [done|].
    intros k w Hk. destruct (Hpos k w Hk) as [Hw|(s' & cs' & Hik & Hs' & Hcs' & Hin)].
    + destruct (decide (i = k)) as [<-|Hne].
      * destruct Etry as [->|[Hin _]].
        { left. by rewrite insert_nth_id in Hw. }
        apply list_lookup_insert_Some in Hw as [(_ & <- & _)|[? _]]; [|done].
        right. exists s, cs. rewrite Nat.sub_diag. by repeat split.
      * left. by rewrite list_lookup_insert_ne in Hw.
    + right. exists s', cs'. split; [lia|].
      replace (k - i) with (S (k - S i)) by lia. by repeat split.
Qed.

Lemma shrink_positions_spec_top property inputs smallest :
  findSmallest property inputs = Ok smallest -> fails property inputs ->
  fails property smallest /\ List.length smallest = List.length inputs.
Proof.
  unfold findSmallest. intros Hrun Hfail.
  destruct (shrink_all inputs) as [shrunken| |] eqn:Eall; simpl in Hrun; [|done..].
  by destruct (shrink_positions_spec _ _ _ _ _ Hrun Hfail) as (Hlen & Hres & _).
Qed.

Lemma shrink_shrinkable x :
  shrinkable x = true ->
  exists s cs, Shrink.shrink VUndef x = Ok s /\ candidates s = Ok cs.
Proof.
  destruct x; try done; intros _; by do 2 eexists.
Qed.

Lemma shrink_all_returns inputs :
  Forall (fun x => shrinkable x = true) inputs ->
  exists shrunken,
    shrink_all inputs = Ok shrunken /\
    Forall (fun s => exists cs, candidates s = Ok cs) shrunken.
Proof.
  induction 1 as [|x inputs Hx _ (shrunken & Hrun & Hall)].
  - by exists [].
  - destruct (shrink_shrinkable x Hx) as (s & cs & Hs & Hcs).
    exists (s :: shrunken). cbn [shrink_all]. rewrite Hs, Hrun. split; [done|].
    constructor; [by exists cs|done].
Qed.

Lemma try_candidates_returns property i :
  (forall args, exists r, call property VUndef args = Ok r) ->
  forall cs args v0, exists v, try_candidates property args i cs v0 = Ok v.
Proof.
  intros Htotal. induction cs as [|c cs IH]; intros args v0; simpl.
  - by exists v0.
  - destruct (Htotal (<[i := c]> args)) as [r ->]. simpl.
    destruct (truthy_ret r); [by exists v0|apply IH].
Qed.

Lemma shrink_positions_returns property :
  (forall args, exists r, call property VUndef args = Ok r) ->
  forall shrunken i smallest,
    Forall (fun s => exists cs, candidates s = Ok cs) shrunken ->
    exists res, shrink_positions property shrunken i smallest = Ok res.
Proof.
  intros Htotal. induction shrunken as [|s shrunken IH]; intros i smallest Hall; simpl.
  - by exists smallest.
  - inversion Hall as [|s' l' [cs Hcs] Hall']; subst. rewrite Hcs. simpl.
    destruct (try_candidates_returns property i Htotal cs smallest
                (nth i smallest VUndef)) as [v ->]. simpl.
    by apply IH.
Qed.

(** X23: [findSmallest] returns a counterexample: when the property fails
    on the inputs, it fails on the list returned, which has the length of
    the inputs and holds at each position the input itself or one of the
    candidates that [shrink] gave for it.  And [findSmallest] does return
    a list when the inputs are booleans, numbers, strings and arrays and
    the property returns on all arguments. *)
Theorem findSmallest_keeps_failure (property : callable) (inputs : list value) :
  fails property inputs ->
  (forall smallest,
     findSmallest property inputs = Ok smallest ->
     List.length smallest = List.length inputs /\
     fails property smallest /\
     forall k v, smallest !! k = Some v ->
       inputs !! k = Some v \/
       exists x s cs, inputs !! k = Some x /\ Shrink.shrink VUndef x = Ok s /\
                      candidates s = Ok cs /\ v ∈ cs) /\
  ((forall args, exists r, call property VUndef args = Ok r) ->
   Forall (fun x => shrinkable x = true) inputs ->
   exists smallest, findSmallest property inputs = Ok smallest).
Proof.
  intros Hfail. split.
  - unfold findSmallest. intros smallest Hrun.
    destruct (shrink_all inputs) as [shrunken| |] eqn:Eall; simpl in Hrun; [|done..].
    destruct (shrink_positions_spec _ _ _ _ _ Hrun Hfail) as (Hlen & Hres & Hpos).
    split; [done|]. split; [done|].
    intros k v Hk.
    destruct (Hpos k v Hk) as [?|(s & cs & _ & Hs & Hcs & Hin)]; [by left|].
    right. rewrite Nat.sub_0_r in Hs.
    destruct (shrink_all_lookup _ _ _ _ Eall Hs) as (x & Hx & Hsx).
    by exists x, s, cs.
  - intros Htotal Hshapes. unfold findSmallest.
    destruct (shrink_all_returns inputs Hshapes) as (shrunken & -> & Hall). simpl.
    by apply shrink_positions_returns.
Qed.

Lemma findSmallest_keeps_failure_witness :
  findSmallest below_five [VNum 8; VBool true] = Ok [VNum 8; VUndef] /\
  fails below_five [VNum 8; VUndef].
Proof.
  assert (fails below_five [VNum 8; VBool true]) as Hfail
    by (eexists; split; reflexivity).
  split; [reflexivity|].
  destruct (findSmallest_keeps_failure below_five [VNum 8; VBool true] Hfail)
    as [H _].
  by destruct (H [VNum 8; VUndef] eq_refl) as (_ & H' & _).
Defined.




Section runs.

Variable generate : nat -> result (list value).

Lemma forAll_from_none this property : forall rounds i,
  forAll_from generate this property i rounds = Ok None <->
  forall k, k < rounds -> round_passes generate this property (i + k).
Proof.
  induction rounds as [|rounds IH]; intros i; simpl.
  - split; [|done]. intros _ k Hk. lia.
  - split.
    + destruct (generate i) as [inputs| |] eqn:Eg; simpl; [|done..].
      destruct (call property this inputs) as [r| |] eqn:Er; simpl; [|done..].
      destruct (truthy_ret r) eqn:Et.
      * intros Hrun [|k] Hk.
        -- rewrite Nat.add_0_r. by exists inputs, r.
        -- replace (i + S k) with (S i + k) by lia. apply (proj1 (IH (S i)) Hrun). lia.
      * by destruct (findSmallest property inputs).
    + intros Hall. destruct (Hall 0) as (inputs & r & Hg & Hr & Ht); [lia|].
      rewrite Nat.add_0_r in Hg. rewrite Hg. simpl. rewrite Hr. simpl. rewrite Ht.
      apply IH. intros k Hk. replace (S i + k) with (i + S k) by lia.
      apply Hall. lia.
Qed.

Lemma forAll_from_some this property smallest tries : forall rounds i,
  forAll_from generate this property i rounds = Ok (Some (smallest, tries)) ->
  i <= tries < i + rounds /\
  (forall k, i <= k < tries -> round_passes generate this property k) /\
  exists inputs r,
    generate tries = Ok inputs /\ call property this inputs = Ok r /\
    truthy_ret r = false /\ findSmallest property inputs = Ok smallest.
Proof.
  induction rounds as [|rounds IH]; intros i; simpl; [done|].
  destruct (generate i) as [inputs| |] eqn:Eg; simpl; [|done..].
  destruct (call property this inputs) as [r| |] eqn:Er; simpl; [|done..].
  destruct (truthy_ret r) eqn:Et.
  - intros Hrun. destruct (IH _ Hrun) as (Hi & Hbefore & Hat).
    split; [lia|]. split; [|done].
    intros k Hk. destruct (decide (k = i)) as [->|Hne].
    + by exists inputs, r.
    + apply Hbefore. lia.
  - destruct (findSmallest property inputs) as [s| |] eqn:Es; simpl; [|done..].
    intros [= <- <-]. split; [lia|]. split; [intros k Hk; lia|].
    by exists inputs, r.
Qed.

(** X25: [forAll] returns [none] exactly when the property holds of the
    inputs of every one of the [goal] rounds.  Otherwise its reporter has
    for [tries] the first round whose inputs fail, after that many rounds
    that passed, and for [inputs] what [findSmallest] makes of the failing
    inputs; for a property that does not depend on its [this], the
    property fails on them. *)
Theorem forAll_reports_first_failure this (property : callable) (goal : nat) :
  (forAll generate this property goal = Ok None <->
   forall k, k < goal -> round_passes generate this property k) /\
  (forall smallest tries,
     forAll generate this property goal = Ok (Some (smallest, tries)) ->
     tries < goal /\
     (forall k, k < tries -> round_passes generate this property k) /\
     exists inputs r,
       generate tries = Ok inputs /\ call property this inputs = Ok r /\
       truthy_ret r = false /\ findSmallest property inputs = Ok smallest /\
       ((forall args, call property VUndef args = call property this args) ->
        fails property smallest)).
Proof.
  split.
  - unfold forAll. by rewrite forAll_from_none.
  - intros smallest tries Hrun.
    destruct (forAll_from_some _ _ _ _ _ _ Hrun)
      as (Hi & Hbefore & inputs & r & Hg & Hr & Ht & Hs).
    split; [lia|]. split; [intros k Hk; apply Hbefore; lia|].
    exists inputs, r. repeat (split; [done|]).
    intros Hthis.
    assert (fails property inputs) as Hfail by (exists r; by rewrite Hthis).
    by destruct (shrink_positions_spec_top property inputs smallest Hs Hfail).
Qed.

End runs.

Lemma forAll_reports_first_failure_witness :
  forAll (fun i => Ok [VNum (Z.of_nat i)]) VUndef below_five 100
  = Ok (Some ([VNum 5], 5)) /\
  5 < 100 /\ fails below_five [VNum 5].
Proof.
  assert (forAll (fun i => Ok [VNum (Z.of_nat i)]) VUndef below_five 100
          = Ok (Some ([VNum 5], 5))) as Hrun by reflexivity.
  destruct (forAll_reports_first_failure (fun i => Ok [VNum (Z.of_nat i)])
              VUndef below_five 100) as [_ H].
  destruct (H [VNum 5] 5 Hrun) as (Hlt & _ & inputs & r & _ & _ & _ & _ & Hfail).
  split; [exact Hrun|]. split; [exact Hlt|]. by apply Hfail.
Defined.

End Check.

(** ** Either *)

Module Either.

(** The objects: what [new left(x)] and [new right(x)] create, and the
    options that [toOption] returns. *)
Inductive object : Type :=
| OOption (o : Option.object)
| OLeft (x : value)
| ORight (x : value).

(** The state: the objects created so far, by address, and the calls of
    named functions made so far, latest first. *)
Record state : Type := State {
  objects : list object;
  calls : list (string * list value)
}.

Definition M (A : Type) : Type := state -> result A * state.

#[global] Instance M_ret : MRet M := fun A a σ => (Ok a, σ).
#[global] Instance M_bind : MBind M := fun A B k m σ =>
  match m σ with
  | (Ok a, σ') => k a σ'
  | (Throw e, σ') => (Throw e, σ')
  | (NoAnswer, σ') => (NoAnswer, σ')
  end.

Definition throw {A : Type} (e : exn) : M A := fun σ => (Throw e, σ).
Definition no_answer {A : Type} : M A := fun σ => (NoAnswer, σ).

Definition alloc (o : object) : M value := fun σ =>
  (Ok (VRef (List.length (objects σ))), State (objects σ ++ [o]) (calls σ)).

Definition deref (v : value) : M object := fun σ =>
  match v with
  | VRef l =>
      match objects σ !! l with
      | Some o => (Ok o, σ)
      | None => (Throw (TypeError "not an object"), σ)
      end
  | _ => (Throw (TypeError "not an object"), σ)
  end.

(** [none] is the object at address 0 of the library's state. *)
Definition none : value := VRef 0.
Definition initial : state := State [OOption Option.ONone] [].

Definition left (x : value) : M value := alloc (OLeft x).
Definition right (x : value) : M value := alloc (ORight x).
Definition some (x : value) : M value := alloc (OOption (Option.OSome x)).

Section methods.

(** What a named function returns is left open. *)
Variable returns : string -> list value -> result value.

(** A call [g(args..)]: a call of a named function is recorded. *)
Fixpoint apply (g : Option.fn) (args : list value) : M value :=
  match g with
  | Option.Named name => fun σ =>
      (returns name args, State (objects σ) ((name, args) :: calls σ))
  | Option.PlusLeft plus x => apply plus [x; arg 0 args]
  | Option.NotFunction _ => throw (TypeError "f is not a function")
  end.

(** The methods of an either [this]; those of an option are in [Option],
    and a call of one of them gets no answer here.
    [fold(a, b)]: [a(x)] on [left(x)], [b(x)] on [right(x)]. *)
Definition fold (this : value) (a b : Option.fn) : M value :=
  o ← deref this;
  match o with
  | OLeft x => apply a [x]
  | ORight x => apply b [x]
  | OOption _ => no_answer
  end.

(** [swap()] *)
Definition swap (this : value) : M value :=
  o ← deref this;
  match o with
  | OLeft x => right x
  | ORight x => left x
  | OOption _ => no_answer
  end.

(** [toOption()]: [none] on a left, [some(x)] on [right(x)]. *)
Definition toOption (this : value) : M value :=
  o ← deref this;
  match o with
  | OLeft _ => mret none
  | ORight x => some x
  | OOption _ => no_answer
  end.

(** [toArray()] *)
Definition toArray (this : value) : M value :=
  o ← deref this;
  match o with
  | OLeft _ => mret (VArr [])
  | ORight x => mret (VArr [x])
  | OOption _ => no_answer
  end.

(** [flatMap(f)]: [return this] on a left, [return f(x)] on [right(x)]. *)
Definition flatMap (this : value) (f : Option.fn) : M value :=
  o ← deref this;
  match o with
  | OLeft _ => mret this
  | ORight x => apply f [x]
  | OOption _ => no_answer
  end.

(** [map(f)]: [return this] on a left, [return right(f(x))] on [right(x)]. *)
Definition map (this : value) (f : Option.fn) : M value :=
  o ← deref this;
  match o with
  | OLeft _ => mret this
  | ORight x => y ← apply f [x]; right y
  | OOption _ => no_answer
  end.

(** [ap(e)]: [return this] on a left, [return e.map(x)] on [right(x)]. *)
Definition ap (this : value) (e : value) : M value :=
  o ← deref this;
  match o with
  | OLeft _ => mret this
  | ORight x => map e (Option.as_fn x)
  | OOption _ => no_answer
  end.

(** [append(e, plus)].  On [left(x)]:
    [e.fold(function(y) { return left(plus(x, y)); }, function() { return t; })];
    on [right(x)]:
    [e.fold(function(x) { return left(x); },
            function(y) { return right(plus(x, y)); })]. *)
Definition append (this : value) (e : value) (plus : Option.fn) : M value :=
  o ← deref this;
  match o with
  | OLeft x =>
      o' ← deref e;
      match o' with
      | OLeft y => z ← apply plus [x; y]; left z
      | ORight _ => mret this
      | OOption _ => no_answer
      end
  | ORight x =>
      o' ← deref e;
      match o' with
      | OLeft y => left y
      | ORight y => z ← apply plus [x; y]; right z
      | OOption _ => no_answer
      end
  | OOption _ => no_answer
  end.

(** X21: on a left, [map], [flatMap] and [ap] return the very same left
    and leave the state as it was: no function is called, no object is
    created.  [toOption] of a left is [none] and [toArray] is [[]];
    [swap] creates a right of the same value, and swapping twice gives a
    left of the same value that is a new object, not the receiver. *)
Theorem left_operations_return_left σ l x (f : Option.fn) (e : value) :
  objects σ !! l = Some (OLeft x) ->
  map (VRef l) f σ = (Ok (VRef l), σ) /\
  flatMap (VRef l) f σ = (Ok (VRef l), σ) /\
  ap (VRef l) e σ = (Ok (VRef l), σ) /\
  toOption (VRef l) σ = (Ok none, σ) /\
  toArray (VRef l) σ = (Ok (VArr []), σ) /\
  (r ← swap (VRef l); swap r) σ
  = (Ok (VRef (S (List.length (objects σ)))),
     State (objects σ ++ [ORight x; OLeft x]) (calls σ)) /\
  VRef (S (List.length (objects σ))) <> VRef l.
Proof.
  intros Hl.
  assert (deref (VRef l) σ = (Ok (OLeft x), σ)) as Hderef
    by (unfold deref; by rewrite Hl).
  split; [|split; [|split; [|split; [|split; [|split]]]]].
  - unfold map, mbind, M_bind. by rewrite Hderef.
  - unfold flatMap, mbind, M_bind. by rewrite Hderef.
  - unfold ap, mbind, M_bind. by rewrite Hderef.
  - unfold toOption, mbind, M_bind. by rewrite Hderef.
  - unfold toArray, mbind, M_bind. by rewrite Hderef.
  - unfold mbind at 1, M_bind at 1. unfold swap at 1, mbind, M_bind.
    rewrite Hderef. unfold right, alloc, swap, mbind, M_bind, deref. cbn [objects calls].
    rewrite list_lookup_middle by done. unfold left, alloc. cbn [objects calls].
    rewrite length_app, <- app_assoc. simpl.
    by replace (List.length (objects σ) + 1) with (S (List.length (objects σ))) by lia.
  - intros [= Heq]. apply lookup_lt_Some in Hl. lia.
Qed.

(** X22: [append] of two eithers is a left as soon as one of them is.  Two
    lefts give a new left of [plus(x, y)]; a left and then a right give
    the receiver itself, and [plus] is not called; a right and then a left
    give a new left of the value of that left, and [plus] is not called;
    two rights give a new right of [plus(x, y)]. *)
Theorem either_append_prefers_left σ l l' x y name :
  objects σ !! l = Some x -> objects σ !! l' = Some y ->
  match x, y with
  | OLeft a, OLeft b =>
      forall z, returns name [a; b] = Ok z ->
      append (VRef l) (VRef l') (Option.Named name) σ
      = (Ok (VRef (List.length (objects σ))),
         State (objects σ ++ [OLeft z]) ((name, [a; b]) :: calls σ))
  | OLeft a, ORight b =>
      append (VRef l) (VRef l') (Option.Named name) σ = (Ok (VRef l), σ)
  | ORight a, OLeft b =>
      append (VRef l) (VRef l') (Option.Named name) σ
      = (Ok (VRef (List.length (objects σ))),
         State (objects σ ++ [OLeft b]) (calls σ))
  | ORight a, ORight b =>
      forall z, returns name [a; b] = Ok z ->
      append (VRef l) (VRef l') (Option.Named name) σ
      = (Ok (VRef (List.length (objects σ))),
         State (objects σ ++ [ORight z]) ((name, [a; b]) :: calls σ))
  | _, _ => True
  end.
Proof.
  intros Hl Hl'.
  destruct x as [o|a|a], y as [o'|b|b]; try done;
    try intros z Hz; unfold append, mbind, M_bind, deref; rewrite Hl, Hl';
    cbn [apply]; rewrite ?Hz; reflexivity.
Qed.

End methods.

Lemma left_operations_return_left_witness :
  map (fun _ _ => Ok VUndef) (VRef 1) (Option.Named "f")
    (State [OOption Option.ONone; OLeft (VStr "no")] [])
  = (Ok (VRef 1), State [OOption Option.ONone; OLeft (VStr "no")] []).
Proof.
  by destruct (left_operations_return_left (fun _ _ => Ok VUndef)
                 (State [OOption Option.ONone; OLeft (VStr "no")] [])
                 1 (VStr "no") (Option.Named "f") VUndef eq_refl) as [H _].
Defined.

Lemma either_append_prefers_left_witness :
  append (fun _ _ => Ok (VStr "ab")) (VRef 1) (VRef 2) (Option.Named "plus")
    (State [OOption Option.ONone; OLeft (VStr "a"); OLeft (VStr "b")] [])
  = (Ok (VRef 3),
     State [OOption Option.ONone; OLeft (VStr "a"); OLeft (VStr "b"); OLeft (VStr "ab")]
           [("plus", [VStr "a"; VStr "b"])]).
Proof.
  apply (either_append_prefers_left (fun _ _ => Ok (VStr "ab"))
           (State [OOption Option.ONone; OLeft (VStr "a"); OLeft (VStr "b")] [])
           1 2 (OLeft (VStr "a")) (OLeft (VStr "b")) "plus" eq_refl eq_refl
           (VStr "ab") eq_refl).
Defined.

End Either.

(** ** [Do]: the scopes of the overloaded operators *)

Module Do.

(** The state: the arrays created so far, by address, and the global
    [doQueue], which is [undefined] or one of these arrays. *)
Record state : Type := State {
  arrays : list (list value);
  doQueue : option nat
}.

Definition M (A : Type) : Type := state -> result A * state.

#[global] Instance M_ret : MRet M := fun A a σ => (Ok a, σ).
#[global] Instance M_bind : MBind M := fun A B k m σ =>
  match m σ with
  | (Ok a, σ') => k a σ'
  | (Throw e, σ') => (Throw e, σ')
  | (NoAnswer, σ') => (NoAnswer, σ')
  end.

(** The [valueOf] that [Do.setValueOf] installs:
    [if(doQueue === undefined) return oldValueOf.call(this);
     doQueue.push(this); return 1].
    The [valueOf] that the object had before is not modelled. *)
Definition valueOf (this : value) : M value := fun σ =>
  match doQueue σ with
  | None => (NoAnswer, σ)
  | Some q =>
      match arrays σ !! q with
      | Some xs => (Ok (VNum 1), State (<[q := xs ++ [this]]> (arrays σ)) (doQueue σ))
      | None => (NoAnswer, σ)
      end
  end.

(** The operands of an expression are coerced one after the other. *)
Fixpoint coerce_all (operands : list value) : M unit :=
  match operands with
  | [] => mret tt
  | x :: rest => _ ← valueOf x; coerce_all rest
  end.

(** The choice of the operation from the value [n] of the expression: five
    [if]s in a row, the last that applies wins. *)
Definition operator (n : value) (length : nat) : option string :=
  let op := None in
  let op := if strict_equals n (VBool true) then Some "flatMap" else op in
  let op := if strict_equals n (VBool false) then Some "map" else op in
  let op := if strict_equals n (VNum 0) then Some "kleisli" else op in
  let op := if strict_equals n (VNum 1) then Some "ap" else op in
  let op := if strict_equals n (VNum (Z.of_nat length)) then Some "append" else op in
  op.

Section scopes.

(** [env[op](x, y)]: the operations of the environment are left open; they
    do not touch the queue. *)
Variable operation : string -> value -> value -> result value.

(** [x = doQueue[0]; for(i = 1; i < doQueue.length; i++) x = env[op](x, doQueue[i])] *)
Fixpoint apply_all (op : string) (x : value) (rest : list value) : result value :=
  match rest with
  | [] => Ok x
  | y :: rest' => x' ← operation op x y; apply_all op x' rest'
  end.

(** [Do(args..)]: what it returns is the function below, a closure over
    [oldDoQueue]. *)
Definition Do (args : list value) : M (option nat) := fun σ =>
  match args with
  | _ :: _ =>
      (Throw (TypeError "Arguments given to Do. Proper usage: Do()(arguments)"), σ)
  | [] =>
      (Ok (doQueue σ),
       State (arrays σ ++ [[]]) (Some (List.length (arrays σ))))
  end.

(** The function [function(n) { .. }] that [Do()] returned, with its
    [oldDoQueue]. *)
Definition run (oldDoQueue : option nat) (n : value) : M value := fun σ =>
  match doQueue σ with
  | None => (Throw (TypeError "Cannot read property 'length' of undefined"), σ)
  | Some q =>
      match arrays σ !! q with
      | None => (NoAnswer, σ)
      | Some [] => (Ok n, State (arrays σ) oldDoQueue)
      | Some (x :: rest) =>
          match operator n (S (List.length rest)) with
          | None =>
              (Throw (Error "Couldn't determine Do operation. Could be ambiguous."),
               State (arrays σ) oldDoQueue)
          | Some op =>
              match apply_all op x rest with
              | Ok v => (Ok v, State (arrays σ) oldDoQueue)
              | Throw e => (Throw e, σ)
              | NoAnswer => (NoAnswer, σ)
              end
          end
      end
  end.

(** [Do()(expression)]: the scope is opened, the operands of the
    expression are coerced, and the function is called on the value [n]
    of the expression. *)
Definition scope (operands : list value) (n : value) : M value :=
  f ← Do [];
  _ ← coerce_all operands;
  run f n.

Lemma coerce_all_spec operands : forall (σ : state) q xs,
  doQueue σ = Some q -> arrays σ !! q = Some xs ->
  coerce_all operands σ
  = (Ok tt, State (<[q := xs ++ operands]> (arrays σ)) (doQueue σ)).
Proof.
  induction operands as [|x operands IH]; intros σ q xs Hq Hxs.
  - destruct σ as [arrs dq]. simpl in *. by rewrite app_nil_r, list_insert_id.
  - cbn [coerce_all]. unfold mbind, M_bind, valueOf. rewrite Hq, Hxs.
    rewrite (IH _ q (xs ++ [x])); cbn [arrays doQueue]; [|done|].
    + by rewrite list_insert_insert_eq, <- app_assoc.
    + apply list_lookup_insert_eq. by apply lookup_lt_Some in Hxs.
Qed.

(** X26: a scope [Do()(expression)] leaves the global queue as it found
    it when it returns and when it cannot tell the operation, and leaves
    its own queue in place when the operation throws.  Without operands
    it returns the value of the expression; else it applies the chosen
    operation from the left over the operands. *)
Theorem scope_restores_queue (σ : state) (operands : list value) (n : value) :
  let a := arrays σ ++ [operands] in
  scope operands n σ
  = match operands with
    | [] => (Ok n, State a (doQueue σ))
    | x :: rest =>
        match operator n (List.length operands) with
        | None =>
            (Throw (Error "Couldn't determine Do operation. Could be ambiguous."),
             State a (doQueue σ))
        | Some op =>
            match apply_all op x rest with
            | Ok v => (Ok v, State a (doQueue σ))
            | Throw e => (Throw e, State a (Some (List.length (arrays σ))))
            | NoAnswer => (NoAnswer, State a (Some (List.length (arrays σ))))
            end
        end
    end.
Proof.
  intros a.
  assert (forall σ', σ' = State (arrays σ ++ [[]]) (Some (List.length (arrays σ))) ->
            coerce_all operands σ'
            = (Ok tt, State a (Some (List.length (arrays σ))))) as Hco.
  { intros σ' ->. rewrite (coerce_all_spec operands _ (List.length (arrays σ)) []);
      cbn [arrays doQueue]; [|done|by rewrite list_lookup_middle].
    unfold a. by rewrite (insert_app_r_alt _ _ _ _) by lia; rewrite Nat.sub_diag. }
  assert (a !! List.length (arrays σ) = Some operands) as Ha
    by (unfold a; by rewrite list_lookup_middle).
  unfold scope, mbind, M_bind, Do. rewrite (Hco _ eq_refl).
  unfold run. cbn [doQueue arrays]. rewrite Ha.
  destruct operands as [|x rest]; [done|]. cbn [List.length].
  destruct (operator n (S (List.length rest))) as [op|]; [|done].
  by destruct (apply_all op x rest).
Qed.

End scopes.

End Do.
